(** * check-cx: the health-check execution engine

    A shallow embedding of the core of the repository:

    - [lib/providers/challenge.ts]   (generateChallenge, validateResponse)
    - [lib/providers/index.ts]       (shouldRetryRequestAborted, checkWithRetry,
                                      runProviderChecks)
    - [lib/utils/error-handler.ts]   (sanitizeValue, sanitizeError, logError,
                                      extractErrorFromResponseBody, getErrorMessage)
    - [app/api/v1/status/route.ts]   (computeStatistics, GET)
    - [lib/utils/client-cache.ts]    (getOrCreateClientCache)
    - [lib/utils/cache-key.ts]       (stableStringify)

    Conventions of the embedding.

    - A JavaScript string is a [string]; one [ascii] stands for one code unit,
      so the model covers strings whose code units are below 256.  Fixed texts
      of the source outside that range are kept as opaque literals.
    - Integer-valued numbers (counters, latencies, status codes, operands) are
      [nat] or [Z]; the success rate, a genuine fraction, is a binary64
      [float], evaluated with the IEEE operations the source uses.
    - The regular expressions of the source are values of [regex], run by a
      backtracking matcher with the priorities of ECMAScript (greedy
      quantifiers, left alternative first).
    - Effects are explicit: the provider check is an oracle indexed by the
      attempt, the console is a list of entries, the clock is an argument;
      the [Map] objects of the client caches live in a heap and are referred
      to by their position in it. *)

From Stdlib Require Import ZArith QArith Qround Floats Uint63 Ascii String DecimalString Bool Lia.
From Stdlib Require Import Sorting.Sorted Sorting.Permutation Structures.OrderedTypeEx.
From stdpp Require Import base tactics option list relations.

Local Open Scope string_scope.
Local Open Scope nat_scope.
Local Open Scope list_scope.

(** ** Strings *)

Module Str.

Fixpoint take (n : nat) (s : string) : string :=
  match n, s with
  | S n', String c s' => String c (take n' s')
  | _, _ => EmptyString
  end.

Fixpoint drop (n : nat) (s : string) : string :=
  match n, s with
  | S n', String _ s' => drop n' s'
  | _, _ => s
  end.

(** [s.slice(-n)] for [n] at most the length of [s]. *)
Definition take_last (n : nat) (s : string) : string :=
  drop (String.length s - n) s.

Definition is_upper (c : ascii) : bool :=
  (65 <=? nat_of_ascii c) && (nat_of_ascii c <=? 90).

(** Canonicalisation of a code unit under the [i] flag (without [u]): the
    upper and lower case of an ASCII letter are identified, and no code unit
    outside ASCII is identified with an ASCII one. *)
Definition fold_case (c : ascii) : ascii :=
  if is_upper c then ascii_of_nat (nat_of_ascii c + 32) else c.

Fixpoint lower (s : string) : string :=
  match s with
  | EmptyString => EmptyString
  | String c s' => String (fold_case c) (lower s')
  end.

Fixpoint take_while (p : ascii -> bool) (s : string) : string :=
  match s with
  | String c s' => if p c then String c (take_while p s') else EmptyString
  | EmptyString => EmptyString
  end.

Fixpoint drop_while (p : ascii -> bool) (s : string) : string :=
  match s with
  | String c s' => if p c then drop_while p s' else s
  | EmptyString => EmptyString
  end.

Fixpoint all (p : ascii -> bool) (s : string) : bool :=
  match s with
  | String c s' => p c && all p s'
  | EmptyString => true
  end.

Definition starts_with (p : ascii -> bool) (s : string) : bool :=
  match s with
  | String c _ => p c
  | EmptyString => false
  end.

Definition is_empty (s : string) : bool :=
  match s with EmptyString => true | _ => false end.

(** [contains w s]: [w] occurs in [s] as a substring. *)
Definition contains (w s : string) : Prop :=
  exists pre post : string, s = (pre ++ w ++ post)%string.

(** [contains_ci w s]: some substring of [s] equals [w] up to ASCII case. *)
Definition contains_ci (w s : string) : Prop :=
  exists pre mid post : string,
    s = (pre ++ mid ++ post)%string /\ lower mid = lower w.

End Str.

(** ** Regular expressions

    The fragment of ECMAScript patterns the source uses.  [Chr p] matches one
    code unit satisfying [p]; the quantifiers are greedy. *)

Inductive regex : Type :=
| Eps : regex
| Chr : (ascii -> bool) -> regex
| Seq : regex -> regex -> regex
| Alt : regex -> regex -> regex
| Opt : regex -> regex
| Star : regex -> regex.

Module Re.

Definition Plus (r : regex) : regex := Seq r (Star r).

(** A literal code unit, compared exactly or up to case ([i] flag). *)
Definition lit (c : ascii) : regex := Chr (Ascii.eqb c).
Definition lit_i (c : ascii) : regex :=
  Chr (fun x => Ascii.eqb (Str.fold_case x) (Str.fold_case c)).

Fixpoint word (s : string) : regex :=
  match s with
  | EmptyString => Eps
  | String c s' => Seq (lit c) (word s')
  end.

Fixpoint word_i (s : string) : regex :=
  match s with
  | EmptyString => Eps
  | String c s' => Seq (lit_i c) (word_i s')
  end.

(** [\d] *)
Definition digit (c : ascii) : bool :=
  (48 <=? nat_of_ascii c) && (nat_of_ascii c <=? 57).

(** [\s], on code units below 256: TAB, LF, VT, FF, CR, SP and NBSP. *)
Definition space (c : ascii) : bool :=
  let n := nat_of_ascii c in
  ((9 <=? n) && (n <=? 13)) || (n =? 32) || (n =? 160).

(** [.] (without the [s] flag): any code unit but a line terminator. *)
Definition dot (c : ascii) : bool :=
  let n := nat_of_ascii c in negb ((n =? 10) || (n =? 13)).

Section Exec.
Context {A : Type}.

(** The iterations of a greedy [r*]: [once] runs [r]; an iteration that
    consumes nothing is rejected, as in ECMAScript, so [fuel], the length of
    the input, is never exhausted. *)
Fixpoint star_loop (once : string -> (string -> option A) -> option A)
  (k : string -> option A) (fuel : nat) (s : string) : option A :=
  match fuel with
  | O => k s
  | S fuel' =>
      match once s (fun s1 =>
              if String.length s1 <? String.length s
              then star_loop once k fuel' s1 else None) with
      | Some x => Some x
      | None => k s
      end
  end.

(** [exec r s k] matches [r] at the start of [s] and hands the rest of the
    input to the continuation [k]; when [k] fails the matcher backtracks
    into [r].  The first success in priority order is the result. *)
Fixpoint exec (r : regex) (s : string) (k : string -> option A) : option A :=
  match r with
  | Eps => k s
  | Chr p =>
      match s with
      | String c s' => if p c then k s' else None
      | EmptyString => None
      end
  | Seq r1 r2 => exec r1 s (fun s1 => exec r2 s1 k)
  | Alt r1 r2 =>
      match exec r1 s k with
      | Some x => Some x
      | None => exec r2 s k
      end
  | Opt r1 =>
      match exec r1 s k with
      | Some x => Some x
      | None => k s
      end
  | Star r1 => star_loop (exec r1) k (String.length s) s
  end.
End Exec.

(** The text matched at the start of [s], if [r] matches there. *)
Definition match_here (r : regex) (s : string) : option string :=
  exec r s (fun rest => Some (Str.take (String.length s - String.length rest) s)).

(** [r.test(s)]: [r] matches at some position of [s]. *)
Fixpoint test (r : regex) (s : string) : bool :=
  match match_here r s with
  | Some _ => true
  | None =>
      match s with
      | EmptyString => false
      | String _ s' => test r s'
      end
  end.

(** [s.match(r)] for a pattern with the [g] flag: all matches, left to
    right, each search starting where the previous match ended (one code
    unit further after an empty match); [skip] counts the code units of the
    previous match still to be passed.  [None] is the [null] returned when
    there is no match at all. *)
Fixpoint match_from (r : regex) (skip : nat) (s : string) : list string :=
  match s with
  | EmptyString =>
      match skip, match_here r s with
      | O, Some m => [m]
      | _, _ => []
      end
  | String _ s' =>
      match skip with
      | S n => match_from r n s'
      | O =>
          match match_here r s with
          | Some m => m :: match_from r (String.length m - 1) s'
          | None => match_from r 0 s'
          end
      end
  end.

Definition match_all (r : regex) (s : string) : option (list string) :=
  match match_from r 0 s with
  | [] => None
  | ms => Some ms
  end.

End Re.

(** ** lib/providers/index.ts: the transient-failure classifier *)

Definition MAX_REQUEST_ABORT_RETRIES : nat := 2.

(** [/request was aborted\.?/i] *)
Definition REQUEST_ABORTED_PATTERN : regex :=
  Seq (Re.word_i "request was aborted") (Opt (Re.lit_i ".")).

(** [message] is [string | undefined]; [!message] holds for [undefined] and
    for the empty string. *)
Definition shouldRetryRequestAborted (message : option string) : bool :=
  match message with
  | None => false
  | Some m =>
      if Str.is_empty m then false
      else Re.test REQUEST_ABORTED_PATTERN m
  end.

(** ** lib/providers/challenge.ts *)

Record Challenge := {
  prompt : string;
  expectedAnswer : string
}.

Record ValidationResult := {
  valid : bool;
  extractedNumbers : option (list string)
}.

Definition newline : string := String (ascii_of_nat 10) EmptyString.

(** [String(n)] for an integer [n]. *)
Definition String_of_Z (n : Z) : string :=
  NilZero.string_of_int (Z.to_int n).

Definition buildPromptWithExamples (question : string) : string :=
  ("Calculate and respond with ONLY the number, nothing else." ++ newline
   ++ newline
   ++ "Q: 3 + 5 = ?" ++ newline
   ++ "A: 8" ++ newline
   ++ newline
   ++ "Q: 12 - 7 = ?" ++ newline
   ++ "A: 5" ++ newline
   ++ newline
   ++ "Q: " ++ question ++ newline
   ++ "A:")%string.

(** [Math.floor(x)] and [Math.round(x)] on exact values: [Math.round] takes
    the nearest integer, a tie going up. *)
Definition Math_floor (x : Q) : Z := Qfloor x.
Definition Math_round (x : Q) : Z := Qfloor (x + (1 # 2)).

(** [Math.floor(Math.random() * 50) + 1] for a draw [r] of [Math.random()]. *)
Definition operand (r : Q) : Z := (Math_floor (r * 50) + 1)%Z.

(** [generateChallenge], as a function of its three draws of
    [Math.random()], each a number in [0, 1). *)
Definition generateChallenge (r1 r2 r3 : Q) : Challenge :=
  let a := operand r1 in
  let b := operand r2 in
  let isAddition := negb (Qle_bool r3 (1 # 2)) in
  if isAddition then
    let answer := (a + b)%Z in
    {| prompt := buildPromptWithExamples
                   (String_of_Z a ++ " + " ++ String_of_Z b ++ " = ?")%string;
       expectedAnswer := String_of_Z answer |}
  else
    let larger := Z.max a b in
    let smaller := Z.min a b in
    let answer := (larger - smaller)%Z in
    {| prompt := buildPromptWithExamples
                   (String_of_Z larger ++ " - " ++ String_of_Z smaller ++ " = ?")%string;
       expectedAnswer := String_of_Z answer |}.

(** [/-?\d+/g] *)
Definition NUMBER_PATTERN : regex :=
  Seq (Opt (Re.lit "-")) (Re.Plus (Chr Re.digit)).

(** [!s] for [s : string | undefined]. *)
Definition falsy_string (s : option string) : bool :=
  match s with
  | None => true
  | Some t => Str.is_empty t
  end.

(** [numbers.includes(x)] *)
Definition includes (x : string) (numbers : list string) : bool :=
  existsb (String.eqb x) numbers.

Definition validateResponse (response expectedAnswer : option string)
  : ValidationResult :=
  match response, expectedAnswer with
  | Some response', Some expectedAnswer' =>
      if falsy_string response || falsy_string expectedAnswer then
        {| valid := false; extractedNumbers := None |}
      else
        match Re.match_all NUMBER_PATTERN response' with
        | None => {| valid := false; extractedNumbers := None |}
        | Some numbers =>
            {| valid := includes expectedAnswer' numbers;
               extractedNumbers := Some numbers |}
        end
  | _, _ => {| valid := false; extractedNumbers := None |}
  end.

(** ** JavaScript values

    The values an error payload or a parsed JSON text is made of.  An object
    is the list of its own enumerable properties in enumeration order, with
    distinct keys.  An [Error] instance is typed after the [AIAPICallError]
    interface of the source: [name], [message], the optional [stack],
    [statusCode] and [responseBody], and the remaining own properties. *)

#[warnings="-register-all"]
Inductive JsValue : Type :=
| JUndefined : JsValue
| JNull : JsValue
| JBool : bool -> JsValue
| JNum : float -> JsValue
| JStr : string -> JsValue
| JArr : list JsValue -> JsValue
| JObj : list (string * JsValue) -> JsValue
| JError : string -> string -> option string -> option float -> option string
           -> list (string * JsValue) -> JsValue.

(** Built-ins of the host that the source calls and the model takes as given:
    [JSON.parse] ([None] when it raises a SyntaxError), the conversion of a
    number to a string, and [String.prototype.localeCompare]. *)
Class Host := {
  JSON_parse : string -> option JsValue;
  Number_toString : float -> string;
  localeCompare : string -> string -> Z
}.

Module Js.

Definition lookup (key : string) (props : list (string * JsValue))
  : option JsValue :=
  match List.find (fun kv => String.eqb key (fst kv)) props with
  | Some kv => Some (snd kv)
  | None => None
  end.

Definition truthy_number (n : float) : bool :=
  negb (PrimFloat.is_zero n || PrimFloat.is_nan n).

(** ToBoolean *)
Definition truthy (v : JsValue) : bool :=
  match v with
  | JUndefined | JNull => false
  | JBool b => b
  | JNum n => truthy_number n
  | JStr s => negb (Str.is_empty s)
  | JArr _ | JObj _ | JError _ _ _ _ _ _ => true
  end.

Definition nullish (v : JsValue) : bool :=
  match v with
  | JUndefined | JNull => true
  | _ => false
  end.

Fixpoint join (sep : string) (parts : list string) : string :=
  match parts with
  | [] => EmptyString
  | [p] => p
  | p :: rest => (p ++ sep ++ join sep rest)%string
  end.

(** Whether an object has an own property [key]. *)
Definition has_own (key : string) (props : list (string * JsValue)) : bool :=
  match lookup key props with
  | Some _ => true
  | None => false
  end.

(** ToString, as applied by a template literal; [None] is the TypeError it
    raises.  A primitive always converts.  An object converts through its
    [toString] method: the inherited one gives ["[object Object]"], the name
    and message of an [Error], or the joined elements of an array, each
    converted in turn; an own property [toString] hides it, and since no
    value of the model is callable the conversion then finds no method that
    yields a primitive ([valueOf] returns the object) and raises. *)
Fixpoint ToString `{Host} (v : JsValue) : option string :=
  match v with
  | JUndefined => Some "undefined"
  | JNull => Some "null"
  | JBool true => Some "true"
  | JBool false => Some "false"
  | JNum n => Some (Number_toString n)
  | JStr s => Some s
  | JArr items =>
      option_map (join ",")
        ((fix elements (l : list JsValue) : option (list string) :=
            match l with
            | [] => Some []
            | x :: rest =>
                match (if nullish x then Some EmptyString else ToString x) with
                | None => None
                | Some text =>
                    match elements rest with
                    | None => None
                    | Some texts => Some (text :: texts)
                    end
                end
            end) items)
  | JObj props =>
      if has_own "toString" props then None else Some "[object Object]"
  | JError name message _ _ _ props =>
      if has_own "toString" props then None
      else Some (if Str.is_empty name then message
                 else if Str.is_empty message then name
                 else (name ++ ": " ++ message)%string)
  end.

(** [v.key] for the keys the source reads, ["message"] and ["error"], which
    no prototype of a primitive or of an array defines; [None] is the
    TypeError raised on [null] and [undefined]. *)
Definition get (v : JsValue) (key : string) : option JsValue :=
  match v with
  | JUndefined | JNull => None
  | JObj props =>
      match lookup key props with
      | Some x => Some x
      | None => Some JUndefined
      end
  | JError name message stack _ _ props =>
      if String.eqb key "message" then Some (JStr message)
      else match lookup key props with
           | Some x => Some x
           | None => Some JUndefined
           end
  | _ => Some JUndefined
  end.

(** The own enumerable properties a sanitizer walks over. *)
Definition own_props (v : JsValue) : list (string * JsValue) :=
  match v with
  | JObj props => props
  | JError _ _ _ _ _ props => props
  | _ => []
  end.

End Js.

(** ** lib/utils/error-handler.ts *)

(** [/api[_-]?key|secret|token|password|authorization|bearer|credential/i] *)
Definition SENSITIVE_PATTERNS : regex :=
  Alt (Seq (Re.word_i "api")
         (Seq (Opt (Chr (fun c => Ascii.eqb c "_" || Ascii.eqb c "-")))
            (Re.word_i "key")))
   (Alt (Re.word_i "secret")
   (Alt (Re.word_i "token")
   (Alt (Re.word_i "password")
   (Alt (Re.word_i "authorization")
   (Alt (Re.word_i "bearer")
        (Re.word_i "credential")))))).

Definition sanitizeValue (value : JsValue) : JsValue :=
  match value with
  | JStr s =>
      if String.length s <=? 8 then value
      else JStr (Str.take 4 s ++ "***" ++ Str.take_last 4 s)%string
  | _ => value
  end.

(** The keys an [Error] instance is copied without: [["name", "message",
    "stack"].includes(key)]. *)
Definition reserved_key (key : string) : bool :=
  String.eqb key "name" || String.eqb key "message" || String.eqb key "stack".

Definition opt_prop (key : string) (v : option JsValue)
  : list (string * JsValue) :=
  match v with
  | Some x => [(key, x)]
  | None => []
  end.

(** The copy of an [Error] lists [name], [message] and [stack] first, as the
    source does, then [statusCode] and [responseBody], then the remaining own
    properties; the order among the last two groups is that of the model. *)
Fixpoint sanitizeError (error : JsValue) : JsValue :=
  let sanitizeProp (kv : string * JsValue) : string * JsValue :=
    (fst kv,
     if Re.test SENSITIVE_PATTERNS (fst kv) then sanitizeValue (snd kv)
     else sanitizeError (snd kv)) in
  match error with
  | JUndefined | JNull => error
  | JBool _ | JNum _ | JStr _ => error
  | JArr items => JArr (List.map sanitizeError items)
  | JError name message stack statusCode responseBody props =>
      JObj ([("name", JStr name); ("message", JStr message)]
            ++ (match stack with
                | Some st => if Str.is_empty st then [] else [("stack", JStr st)]
                | None => []
                end)
            ++ opt_prop "statusCode" (option_map JNum statusCode)
            ++ opt_prop "responseBody" (option_map JStr responseBody)
            ++ List.flat_map
                 (fun kv => if reserved_key (fst kv) then [] else [sanitizeProp kv])
                 props)
  | JObj props => JObj (List.map sanitizeProp props)
  end.

(** The console: [console.warn(text)] and [console.error(label, payload)]. *)
Inductive LogEntry : Type :=
| Warn : string -> LogEntry
| Error : string -> JsValue -> LogEntry.

Definition logError (context : string) (error : JsValue)
  (console : list LogEntry) : list LogEntry :=
  let sanitized := sanitizeError error in
  console ++ [Error ("[check-cx] " ++ context ++ ":")%string sanitized].

(** [/data:\s*(\{.*\})/], in two parts: what precedes the capture group, and
    the group. *)
Definition SSE_PREFIX : regex :=
  Seq (Re.word "data:") (Star (Chr Re.space)).
Definition SSE_GROUP : regex :=
  Seq (Re.lit "{") (Seq (Star (Chr Re.dot)) (Re.lit "}")).

(** [responseBody.match(/data:\s*(\{.*\})/)]: the text of the capture group
    of the leftmost match, [None] for [null]. *)
Definition sse_here (s : string) : option string :=
  Re.exec SSE_PREFIX s (fun s1 =>
    Re.exec SSE_GROUP s1 (fun s2 =>
      Some (Str.take (String.length s1 - String.length s2) s1))).

Fixpoint sseMatch (s : string) : option string :=
  match sse_here s with
  | Some group => Some group
  | None =>
      match s with
      | EmptyString => None
      | String _ s' => sseMatch s'
      end
  end.

(** How the body of a [try] block ends. *)
Inductive TryResult : Type :=
| Return : JsValue -> TryResult
| Fallthrough : TryResult
| Raise : TryResult.

(** The body shared by the two [try] blocks of
    [extractErrorFromResponseBody]:
    [const data = JSON.parse(text);
     if (data.message) return data.message;
     if (data.error?.message) return data.error.message;] *)
Definition parse_message `{Host} (text : string) : TryResult :=
  match JSON_parse text with
  | None => Raise
  | Some data =>
      match Js.get data "message" with
      | None => Raise
      | Some m =>
          if Js.truthy m then Return m
          else
            match Js.get data "error" with
            | None => Raise
            | Some e =>
                if Js.nullish e then Fallthrough
                else
                  match Js.get e "message" with
                  | None => Raise
                  | Some em => if Js.truthy em then Return em else Fallthrough
                  end
            end
      end
  end.

(** The result is [null] ([None]) or the value found, a string by the
    declared type. *)
Definition extractErrorFromResponseBody `{Host} (responseBody : string)
  : option JsValue :=
  let fromSse :=
    match sseMatch responseBody with
    | Some group =>
        match parse_message group with
        | Return v => Some v
        | _ => None
        end
    | None => None
    end in
  match fromSse with
  | Some v => Some v
  | None =>
      match parse_message responseBody with
      | Return v => Some v
      | Fallthrough => None
      | Raise =>
          if 0 <? String.length responseBody
          then Some (JStr (Str.take 100 responseBody))
          else None
      end
  end.

Definition UNKNOWN_ERROR : string := "未知错误".

Definition statusPrefix `{Host} (statusCode : option float) : string :=
  match statusCode with
  | Some code =>
      if Js.truthy_number code
      then ("[" ++ Number_toString code ++ "] ")%string
      else EmptyString
  | None => EmptyString
  end.

(** The message of an error, or [None] when the template literal
    [`${statusPrefix}${extracted}`] raises a TypeError: the value found in the
    response body need not be a string. *)
Definition getErrorMessage `{Host} (error : JsValue) : option string :=
  match error with
  | JError _ message _ statusCode responseBody _ =>
      let extracted :=
        match responseBody with
        | Some body =>
            if Str.is_empty body then None
            else
              match extractErrorFromResponseBody body with
              | Some v => if Js.truthy v then Some v else None
              | None => None
              end
        | None => None
        end in
      match extracted with
      | Some v =>
          match Js.ToString v with
          | Some text => Some (statusPrefix statusCode ++ text)%string
          | None => None
          end
      | None =>
          match statusCode with
          | Some code =>
              if Js.truthy_number code
              then Some ("[" ++ Number_toString code ++ "] " ++ message)%string
              else Some message
          | None => Some message
          end
      end
  | JStr s => Some s
  | _ => Some UNKNOWN_ERROR
  end.

(** ** lib/types *)

Inductive HealthStatus : Type :=
| operational | degraded | failed | validation_failed | maintenance | error.

Definition HealthStatus_eqb (a b : HealthStatus) : bool :=
  match a, b with
  | operational, operational | degraded, degraded | failed, failed
  | validation_failed, validation_failed | maintenance, maintenance
  | error, error => true
  | _, _ => false
  end.

Record ProviderConfig := {
  cfg_id : string;
  cfg_name : string;
  cfg_type : string;
  cfg_endpoint : string;
  cfg_model : string;
  cfg_apiKey : string
}.

Record CheckResult := {
  id : string;
  name : string;
  type : string;
  endpoint : string;
  model : string;
  status : HealthStatus;
  latencyMs : option Z;
  pingLatencyMs : option Z;
  checkedAt : string;
  message : option string
}.

(** ** lib/providers/index.ts: the single-provider check runner *)

(** How a call ends: it returns a value or raises one. *)
Inductive Completion (A : Type) : Type :=
| Returned : A -> Completion A
| Threw : JsValue -> Completion A.
Arguments Returned {A} _.
Arguments Threw {A} _.

(** What [checkWithRetry] touches outside itself: the number of calls made to
    the provider check, and the console. *)
Record World := {
  calls : nat;
  console : list LogEntry
}.

Definition retryWarning (config : ProviderConfig) (attempt : nat) : LogEntry :=
  Warn ("[check-cx] " ++ cfg_name config
        ++ " 请求异常（Request was aborted），正在重试第 "
        ++ String_of_Z (Z.of_nat (attempt + 2)) ++ " 次")%string.

Definition UNEXPECTED_EXIT : JsValue :=
  JError "Error" "Unexpected retry loop exit" None None None [].

(** The TypeError raised by a conversion to a string; the wording of its
    message is the engine's. *)
Definition TypeError : JsValue :=
  JError "TypeError" "Cannot convert object to primitive value" None None None [].

Section CheckWithRetry.
Context `{Host}.

(** [checkWithAiSdk config], the provider check supplied from outside: its
    [n]-th call (from 0) on [config] ends as [checkWithAiSdk config n]. *)
Variable checkWithAiSdk : ProviderConfig -> nat -> Completion CheckResult.
(** [new Date().toISOString()] at the time the result is built. *)
Variable now : string.
Variable config : ProviderConfig.

(** The loop [for (attempt = 0; attempt <= MAX_REQUEST_ABORT_RETRIES;
    attempt += 1)], over the values [attempt] takes; leaving it leads to the
    [throw] after the loop. *)
Fixpoint retryLoop (attempts : list nat) (w : World)
  : Completion CheckResult * World :=
  match attempts with
  | [] => (Threw UNEXPECTED_EXIT, w)
  | attempt :: rest =>
      let w1 := {| calls := S (calls w); console := console w |} in
      match checkWithAiSdk config (calls w) with
      | Returned result =>
          if HealthStatus_eqb (status result) failed
             && shouldRetryRequestAborted (message result)
             && (attempt <? MAX_REQUEST_ABORT_RETRIES)
          then
            retryLoop rest
              {| calls := calls w1;
                 console := console w1 ++ [retryWarning config attempt] |}
          else (Returned result, w1)
      | Threw thrown =>
          match getErrorMessage thrown with
          | None => (Threw TypeError, w1)
          | Some message =>
              if shouldRetryRequestAborted (Some message)
                 && (attempt <? MAX_REQUEST_ABORT_RETRIES)
              then
                retryLoop rest
                  {| calls := calls w1;
                     console := console w1 ++ [retryWarning config attempt] |}
              else
                (Returned
                   {| id := cfg_id config;
                      name := cfg_name config;
                      type := cfg_type config;
                      endpoint := cfg_endpoint config;
                      model := cfg_model config;
                      status := error;
                      latencyMs := None;
                      pingLatencyMs := None;
                      checkedAt := now;
                      message := Some message |},
                 {| calls := calls w1;
                    console :=
                      logError ("检查 " ++ cfg_name config ++ " ("
                                ++ cfg_type config ++ ") 失败")%string
                        thrown (console w1) |})
          end
      end
  end.

Definition checkWithRetry (w : World) : Completion CheckResult * World :=
  retryLoop (seq 0 (S MAX_REQUEST_ABORT_RETRIES)) w.

(** The result of the error path for a message, and the console label of
    that path, for reference in the properties. *)
Definition errorResult (message : string) : CheckResult :=
  {| id := cfg_id config; name := cfg_name config; type := cfg_type config;
     endpoint := cfg_endpoint config; model := cfg_model config;
     status := error; latencyMs := None; pingLatencyMs := None;
     checkedAt := now; message := Some message |}.

Definition errorContext : string :=
  ("[check-cx] " ++ ("检查 " ++ cfg_name config ++ " ("
                     ++ cfg_type config ++ ") 失败") ++ ":")%string.

End CheckWithRetry.

(** ** lib/providers/index.ts: the bounded-concurrency scheduler *)

(** [Array.prototype.sort(compare)]: a stable sort; [x] is placed before the
    first element it does not compare greater than. *)
Fixpoint sort_insert {A : Type} (compare : A -> A -> Z) (x : A) (l : list A)
  : list A :=
  match l with
  | [] => [x]
  | y :: l' =>
      if (compare x y <=? 0)%Z then x :: y :: l'
      else y :: sort_insert compare x l'
  end.

Definition Array_sort {A : Type} (compare : A -> A -> Z) (l : list A) : list A :=
  List.fold_right (sort_insert compare) [] l.

(** [(a, b) => a.name.localeCompare(b.name)] *)
Definition byName `{Host} (a b : CheckResult) : Z :=
  localeCompare (name a) (name b).

(** The limiter and [Promise.all]: the tasks, numbered by their position in
    [configs], wait in [queue] in submission order; at most [limit] of them
    are [active]; a task that settles stores its completion in the slot of
    its position, and the first task to reject, in time, gives [Promise.all]
    its rejection. *)
Record Pool := {
  queue : list nat;
  active : list nat;
  slots : list (option (Completion CheckResult));
  rejection : option JsValue
}.

Definition Pool_initial (n : nat) : Pool :=
  {| queue := seq 0 n; active := []; slots := replicate n None;
     rejection := None |}.

(** The rejection of [Promise.all] after a task has settled. *)
Definition first_rejection (earlier : option JsValue)
  (settled : Completion CheckResult) : option JsValue :=
  match earlier, settled with
  | Some e, _ => Some e
  | None, Threw e => Some e
  | None, Returned _ => None
  end.

Definition Pool_done (p : Pool) : Prop :=
  queue p = [] /\ active p = [].

(** One step of the pool: the head of the queue starts when a slot of the
    limiter is free, or any active task settles. *)
Inductive Pool_step (limit : positive) (task : nat -> Completion CheckResult)
  : Pool -> Pool -> Prop :=
| Pool_start i q a v x :
    length a < Pos.to_nat limit ->
    Pool_step limit task
      {| queue := i :: q; active := a; slots := v; rejection := x |}
      {| queue := q; active := a ++ [i]; slots := v; rejection := x |}
| Pool_settle i q a1 a2 v x :
    Pool_step limit task
      {| queue := q; active := a1 ++ i :: a2; slots := v; rejection := x |}
      {| queue := q; active := a1 ++ a2; slots := <[i := Some (task i)]> v;
         rejection := first_rejection x (task i) |}.

(** What every reachable state of a pool of [n] tasks satisfies: the slots
    are [n]; the queued and active tasks are among the [n]; every other task
    has stored its completion; the active tasks respect the limit; a
    rejection is that of one of the tasks, and there is one as soon as a
    task that rejects has settled. *)
Definition Pool_inv (limit : positive) (task : nat -> Completion CheckResult)
  (n : nat) (p : Pool) : Prop :=
  length (slots p) = n
  /\ (forall i, i ∈ queue p ++ active p -> i < n)
  /\ (forall i, i < n -> i ∉ queue p ++ active p ->
                slots p !! i = Some (Some (task i)))
  /\ length (active p) <= Pos.to_nat limit
  /\ (forall e, rejection p = Some e -> exists i, i < n /\ task i = Threw e)
  /\ (rejection p = None ->
      forall i e, i < n -> i ∉ queue p ++ active p -> task i <> Threw e).

(** What [await Promise.all(...)] yields from the slots when the tasks have
    settled one after the other in the order of their positions: the values
    in that order, or the first rejection. *)
Fixpoint Promise_all (settled : list (option (Completion CheckResult)))
  : option (Completion (list CheckResult)) :=
  match settled with
  | [] => Some (Returned [])
  | None :: _ => None
  | Some (Threw e) :: _ => Some (Threw e)
  | Some (Returned r) :: rest =>
      match Promise_all rest with
      | Some (Returned rs) => Some (Returned (r :: rs))
      | other => other
      end
  end.

Section RunProviderChecks.
Context `{Host}.
Variable checkWithAiSdk : ProviderConfig -> nat -> Completion CheckResult.
Variable now : string.
(** [getCheckConcurrency()], a positive integer. *)
Variable getCheckConcurrency : positive.

(** The completion of [checkWithRetry(config)], run on its own calls to the
    provider check. *)
Definition checkOne (config : ProviderConfig) : Completion CheckResult :=
  fst (checkWithRetry checkWithAiSdk now config {| calls := 0; console := [] |}).

(** [runProviderChecks], with the tasks settled in submission order: the
    results of all the checks, sorted, or the rejection of the first check
    that rejects. *)
Definition runProviderChecks (configs : list ProviderConfig)
  : Completion (list CheckResult) :=
  if length configs =? 0 then Returned []
  else
    match Promise_all (List.map (fun c => Some (checkOne c)) configs) with
    | Some (Returned results) => Returned (Array_sort byName results)
    | Some (Threw e) => Threw e
    | None => Threw JUndefined
    end.

(** [runProviderChecks] under an arbitrary schedule: [out] is what the call
    ends with when the pool is run in any order of starts and completions.
    It resolves once every task has settled and none has rejected; it rejects
    as soon as one task rejects, with the rejection of that task. *)
Definition task_of (configs : list ProviderConfig) (i : nat)
  : Completion CheckResult :=
  match configs !! i with
  | Some c => checkOne c
  | None => Threw JUndefined
  end.

Inductive runProviderChecks_scheduled (configs : list ProviderConfig)
  : Completion (list CheckResult) -> Prop :=
| scheduled_empty :
    configs = [] -> runProviderChecks_scheduled configs (Returned [])
| scheduled_batch p results :
    configs <> [] ->
    rtc (Pool_step getCheckConcurrency (task_of configs))
      (Pool_initial (length configs)) p ->
    Pool_done p ->
    rejection p = None ->
    Promise_all (slots p) = Some (Returned results) ->
    runProviderChecks_scheduled configs (Returned (Array_sort byName results))
| scheduled_rejected p e :
    configs <> [] ->
    rtc (Pool_step getCheckConcurrency (task_of configs))
      (Pool_initial (length configs)) p ->
    rejection p = Some e ->
    runProviderChecks_scheduled configs (Threw e).

End RunProviderChecks.

(** ** app/api/v1/status/route.ts: the statistics aggregator *)

Record ProviderStatistics := {
  totalChecks : nat;
  operationalCount : nat;
  degradedCount : nat;
  failedCount : nat;
  validationFailedCount : nat;
  successRate : float;
  avgLatencyMs : option Z;
  minLatencyMs : option Z;
  maxLatencyMs : option Z
}.

Module F64.

(** The binary64 value of an integer below 2^63 in magnitude (exact below
    2^53). *)
Definition of_Z (z : Z) : float :=
  if (z <? 0)%Z then PrimFloat.opp (PrimFloat.of_uint63 (Uint63.of_Z (- z)))
  else PrimFloat.of_uint63 (Uint63.of_Z z).

Definition of_nat (n : nat) : float := of_Z (Z.of_nat n).

(** [Math.round(x)] on a binary64: the nearest integer, a tie going up; an
    integer, an infinity and NaN are returned as they are, and a result of
    zero keeps the sign of [x]. *)
Definition Math_round (x : float) : float :=
  match Prim2SF x with
  | S754_finite s m e =>
      if (0 <=? e)%Z then x
      else
        let n := if s then Z.neg m else Z.pos m in
        let z := ((2 * n + 2 ^ (- e)) / 2 ^ (1 - e))%Z in
        if (z =? 0)%Z && s then (-0)%float else of_Z z
  | _ => x
  end.

(** Equality of two binary64 values as data (so [0] and [-0] differ). *)
Definition same (x y : float) : bool :=
  match Prim2SF x, Prim2SF y with
  | S754_zero a, S754_zero b => Bool.eqb a b
  | S754_infinity a, S754_infinity b => Bool.eqb a b
  | S754_nan, S754_nan => true
  | S754_finite a m e, S754_finite b n f =>
      Bool.eqb a b && Pos.eqb m n && Z.eqb e f
  | _, _ => false
  end.

End F64.

(** The state of the [for ... of] loop of [computeStatistics]. *)
Record Tally := {
  t_operational : nat;
  t_degraded : nat;
  t_failed : nat;
  t_validationFailed : nat;
  t_latencies : list Z
}.

Definition Tally_zero : Tally :=
  {| t_operational := 0; t_degraded := 0; t_failed := 0;
     t_validationFailed := 0; t_latencies := [] |}.

(** One iteration: the [switch] on the status, then the latency. *)
Definition tally_item (t : Tally) (item : CheckResult) : Tally :=
  let t1 :=
    match status item with
    | operational =>
        {| t_operational := S (t_operational t); t_degraded := t_degraded t;
           t_failed := t_failed t; t_validationFailed := t_validationFailed t;
           t_latencies := t_latencies t |}
    | degraded =>
        {| t_operational := t_operational t; t_degraded := S (t_degraded t);
           t_failed := t_failed t; t_validationFailed := t_validationFailed t;
           t_latencies := t_latencies t |}
    | failed =>
        {| t_operational := t_operational t; t_degraded := t_degraded t;
           t_failed := S (t_failed t); t_validationFailed := t_validationFailed t;
           t_latencies := t_latencies t |}
    | validation_failed =>
        {| t_operational := t_operational t; t_degraded := t_degraded t;
           t_failed := t_failed t; t_validationFailed := S (t_validationFailed t);
           t_latencies := t_latencies t |}
    | _ => t
    end in
  match latencyMs item with
  | Some ms =>
      {| t_operational := t_operational t1; t_degraded := t_degraded t1;
         t_failed := t_failed t1; t_validationFailed := t_validationFailed t1;
         t_latencies := t_latencies t1 ++ [ms] |}
  | None => t1
  end.

(** [Math.min(...xs)] and [Math.max(...xs)] for a non-empty [xs]. *)
Definition Math_min (x : Z) (xs : list Z) : Z := List.fold_left Z.min xs x.
Definition Math_max (x : Z) (xs : list Z) : Z := List.fold_left Z.max xs x.

(** [latencies.reduce((a, b) => a + b, 0)] *)
Definition sum (latencies : list Z) : Z := List.fold_left Z.add latencies 0%Z.

(** [Math.round((successCount / total) * 100 * 100) / 100], in binary64. *)
Definition rate (successCount total : nat) : float :=
  let successRate :=
    if 0 <? total
    then ((F64.of_nat successCount / F64.of_nat total) * 100)%float
    else 0%float in
  (F64.Math_round (successRate * 100) / 100)%float.

Definition computeStatistics (items : list CheckResult) : ProviderStatistics :=
  if length items =? 0 then
    {| totalChecks := 0; operationalCount := 0; degradedCount := 0;
       failedCount := 0; validationFailedCount := 0; successRate := 0%float;
       avgLatencyMs := None; minLatencyMs := None; maxLatencyMs := None |}
  else
    let t := List.fold_left tally_item items Tally_zero in
    let successCount := t_operational t + t_degraded t in
    let latencies := t_latencies t in
    {| totalChecks := length items;
       operationalCount := t_operational t;
       degradedCount := t_degraded t;
       failedCount := t_failed t;
       validationFailedCount := t_validationFailed t;
       successRate := rate successCount (length items);
       avgLatencyMs :=
         match latencies with
         | [] => None
         | _ :: _ =>
             Some (Math_round (inject_Z (sum latencies)
                               / inject_Z (Z.of_nat (length latencies))))
         end;
       minLatencyMs :=
         match latencies with
         | [] => None
         | x :: xs => Some (Math_min x xs)
         end;
       maxLatencyMs :=
         match latencies with
         | [] => None
         | x :: xs => Some (Math_max x xs)
         end |}.

(** ** What the specification says of the validator

    The tokens of a reply, in the words of the specification: every maximal
    substring matching [-?[0-9]+], from left to right.  [Tokens s toks] cuts
    [s] into stretches without digits and numbers; a number is maximal when
    no digit follows it and, if it has no sign, no minus precedes it. *)

Module Spec.

Definition no_digit (s : string) : bool := Str.all (fun c => negb (Re.digit c)) s.

Inductive is_number : string -> Prop :=
| number_plain ds :
    ds <> EmptyString -> Str.all Re.digit ds = true -> is_number ds
| number_minus ds :
    ds <> EmptyString -> Str.all Re.digit ds = true -> is_number (String "-" ds).

Definition ends_with_minus (s : string) : Prop :=
  exists s0 : string, s = (s0 ++ "-")%string.

Inductive Tokens : string -> list string -> Prop :=
| Tokens_end gap :
    no_digit gap = true -> Tokens gap []
| Tokens_next gap tok rest toks :
    no_digit gap = true ->
    is_number tok ->
    Str.starts_with Re.digit rest = false ->
    (Str.starts_with Re.digit tok = true -> ~ ends_with_minus gap) ->
    Tokens rest toks ->
    Tokens (gap ++ tok ++ rest)%string (tok :: toks).

End Spec.

(** ** What the specification says of the statistics *)

Module StatSpec.

(** The number of items of a history with a given status. *)
Definition count (s : HealthStatus) (items : list CheckResult) : nat :=
  length (List.filter (fun item => HealthStatus_eqb (status item) s) items).

(** The latencies of the items that have one, in order. *)
Definition latencies (items : list CheckResult) : list Z :=
  omap latencyMs items.

(** [100 * successes / total] rounded to 2 decimal places: the exact
    quotient, rounded to the nearest hundredth (a tie going up), then taken as
    the nearest binary64. *)
Definition rounded_rate (successes total : nat) : float :=
  let exact := (100 * (inject_Z (Z.of_nat successes) / inject_Z (Z.of_nat total)))%Q in
  (F64.of_Z (Math_round (exact * 100)) / 100)%float.

(** The success rate the specification states for a history. *)
Definition stated_successRate (items : list CheckResult) : float :=
  rounded_rate (count operational items + count degraded items) (length items).

(** [rate] and [rounded_rate] agree for every total below [bound]. *)
Definition rates_agree_below (bound : nat) : bool :=
  forallb (fun total =>
    forallb (fun successes => F64.same (rate successes total)
                                (rounded_rate successes total))
      (seq 0 (S total)))
    (seq 1 (bound - 1)).

(** [Math.round(sum / count)] evaluated in binary64 agrees with the exact
    rounded mean for every sum up to [bound] and count from 1 to [bound]. *)
Definition means_agree_below (bound : nat) : bool :=
  forallb (fun count =>
    forallb (fun total =>
               F64.same (F64.Math_round (F64.of_nat total / F64.of_nat count))
                 (F64.of_Z (Math_round (inject_Z (Z.of_nat total)
                                        / inject_Z (Z.of_nat count)))))
      (seq 0 (S bound)))
    (seq 1 bound).

(** An item of a history with status [s] and latency [ms]. *)
Definition item (s : HealthStatus) (ms : option Z) : CheckResult :=
  {| id := "p1"; name := "Provider"; type := "openai";
     endpoint := "https://api.example.com/v1"; model := "m";
     status := s; latencyMs := ms; pingLatencyMs := None;
     checkedAt := "2025-12-10T12:00:00.000Z"; message := None |}.

(** A history of [n] items with status [s] and no latency. *)
Definition history (s : HealthStatus) (n : nat) : list CheckResult :=
  repeat (item s None) n.

End StatSpec.

(** ** The scan of a reply, step by step

    The two functions through which the matcher is analysed on
    [NUMBER_PATTERN]. *)

Module Scan.

(** The number that starts at the head of [s], if any. *)
Definition token_here (s : string) : option string :=
  match s with
  | String c s' =>
      if Ascii.eqb c "-" then
        if Str.starts_with Re.digit s' then Some (String c (Str.take_while Re.digit s'))
        else None
      else if Re.digit c then Some (Str.take_while Re.digit s)
      else None
  | EmptyString => None
  end.

(** The numbers of a reply, as [match] collects them. *)
Definition numbers (s : string) : list string :=
  Re.match_from NUMBER_PATTERN 0 s.

End Scan.

(** ** A host and inputs for the examples *)

Module Example.

(** Integers print in decimal; the examples print no other number. *)
Definition print_number (n : float) : string :=
  match Prim2SF n with
  | S754_zero _ => "0"
  | S754_infinity s => if s then "-Infinity" else "Infinity"
  | S754_nan => "NaN"
  | S754_finite s m e =>
      let n := if s then Z.neg m else Z.pos m in
      if (0 <=? e)%Z then String_of_Z (n * 2 ^ e)
      else if (n mod 2 ^ (- e) =? 0)%Z then String_of_Z (n / 2 ^ (- e))
      else EmptyString
  end.

(** A comparison that ignores case and then follows the code units. *)
Definition compare_ci (a b : string) : Z :=
  match String.compare (Str.lower a) (Str.lower b) with
  | Lt => (-1)%Z
  | Eq => 0%Z
  | Gt => 1%Z
  end.

(** The host of the examples.  Its [JSON.parse] accepts no text: the errors of
    the examples carry no response body. *)
Definition host : Host :=
  {| JSON_parse := fun _ => None;
     Number_toString := print_number;
     localeCompare := compare_ci |}.

Definition provider (name : string) : ProviderConfig :=
  {| cfg_id := name; cfg_name := name; cfg_type := "openai";
     cfg_endpoint := "https://api.example.com/v1"; cfg_model := "gpt-4o-mini";
     cfg_apiKey := "sk-proj-abcdef123456" |}.

Definition clock : string := "2025-12-10T12:00:00.000Z".

Definition world : World := {| calls := 0; console := [] |}.


(** A provider check that fails with an error quoting the key it was given,
    and carrying it as a property. *)
Definition secret : string := "sk-proj-abcdef123456".
Definition rejected : JsValue :=
  JError "Error" "Incorrect API key provided: sk-proj-abcdef123456"
    None None None [("apiKey", JStr secret)].
Definition always_rejected (config : ProviderConfig) (n : nat)
  : Completion CheckResult := Threw rejected.

(** An interrupted request answered by a gateway: the error says so, the
    response body says something else. *)
Definition interrupted_with_body : JsValue :=
  JError "AbortError" "Request was aborted." None None (Some "Bad Gateway") [].

(** The double quote, and the JSON text of an object whose [message] is an
    object with a property [toString]. *)
Definition quote : string := String (ascii_of_nat 34) EmptyString.
Definition poisoned_body : string :=
  ("{" ++ quote ++ "message" ++ quote ++ ":{"
   ++ quote ++ "toString" ++ quote ++ ":1}}")%string.

(** A host whose [JSON.parse] reads that text; the other bodies of the
    examples are not JSON. *)
Definition json_host : Host :=
  {| JSON_parse := fun text =>
       if String.eqb text poisoned_body
       then Some (JObj [("message", JObj [("toString", JNum 1%float)])])
       else None;
     Number_toString := print_number;
     localeCompare := compare_ci |}.

(** A provider check that fails with a response carrying that body. *)
Definition poisoned : JsValue :=
  JError "AI_APICallError" "Bad Request" None (Some 400%float)
    (Some poisoned_body) [].
Definition always_poisoned (config : ProviderConfig) (n : nat)
  : Completion CheckResult := Threw poisoned.

(** A provider check that succeeds at once. *)
Definition healthy (config : ProviderConfig) (n : nat)
  : Completion CheckResult :=
  Returned {| id := cfg_id config; name := cfg_name config;
              type := cfg_type config; endpoint := cfg_endpoint config;
              model := cfg_model config; status := operational;
              latencyMs := Some 120%Z; pingLatencyMs := Some 30%Z;
              checkedAt := clock; message := Some "OK" |}.

End Example.

(** ** What a pattern matches

    The texts a pattern matches, without regard to priorities: the reference
    against which the matcher is checked. *)

Inductive Matches : regex -> string -> Prop :=
| Matches_Eps : Matches Eps EmptyString
| Matches_Chr p c : p c = true -> Matches (Chr p) (String c EmptyString)
| Matches_Seq r1 r2 m1 m2 :
    Matches r1 m1 -> Matches r2 m2 -> Matches (Seq r1 r2) (m1 ++ m2)%string
| Matches_Alt_l r1 r2 m : Matches r1 m -> Matches (Alt r1 r2) m
| Matches_Alt_r r1 r2 m : Matches r2 m -> Matches (Alt r1 r2) m
| Matches_Opt_none r : Matches (Opt r) EmptyString
| Matches_Opt_some r m : Matches r m -> Matches (Opt r) m
| Matches_Star_nil r : Matches (Star r) EmptyString
| Matches_Star_cons r m1 m2 :
    m1 <> EmptyString -> Matches r m1 -> Matches (Star r) m2 ->
    Matches (Star r) (m1 ++ m2)%string.

(** ** The sanitizer, property by property *)

(** What [sanitizeError] does to one property of an object. *)
Definition sanitizeProp (kv : string * JsValue) : string * JsValue :=
  (fst kv,
   if Re.test SENSITIVE_PATTERNS (fst kv) then sanitizeValue (snd kv)
   else sanitizeError (snd kv)).

(** The words of [SENSITIVE_PATTERNS], in lower case. *)
Definition SENSITIVE_WORDS : list string :=
  ["apikey"; "api_key"; "api-key"; "secret"; "token"; "password";
   "authorization"; "bearer"; "credential"]%string.

(** A value with no [Error] instance and no sensitive key inside. *)
Fixpoint unremarkable (v : JsValue) : bool :=
  match v with
  | JArr items => forallb unremarkable items
  | JObj props =>
      forallb (fun kv => negb (Re.test SENSITIVE_PATTERNS (fst kv))
                         && unremarkable (snd kv)) props
  | JError _ _ _ _ _ _ => false
  | _ => true
  end.

(** ** The retry policy, outcome by outcome *)

(** Whether the loop of [checkWithRetry] would try again after an outcome of
    the provider check, retries permitting: a [failed] result whose message
    matches the request-aborted pattern, or a raised error for which
    [getErrorMessage] yields a message that matches it. *)
Definition retryable `{Host} (outcome : Completion CheckResult) : bool :=
  match outcome with
  | Returned result =>
      HealthStatus_eqb (status result) failed
      && shouldRetryRequestAborted (message result)
  | Threw thrown =>
      match getErrorMessage thrown with
      | Some message => shouldRetryRequestAborted (Some message)
      | None => false
      end
  end.

(** What [checkWithRetry] makes of the outcome it stops on, and what it
    writes to the console for it.  A TypeError raised by [getErrorMessage]
    leaves the [catch] block before anything is written. *)
Definition settled `{Host} (now : string) (config : ProviderConfig)
  (outcome : Completion CheckResult) : Completion CheckResult :=
  match outcome with
  | Returned result => Returned result
  | Threw thrown =>
      match getErrorMessage thrown with
      | Some message => Returned (errorResult now config message)
      | None => Threw TypeError
      end
  end.

Definition settledLog `{Host} (config : ProviderConfig)
  (outcome : Completion CheckResult) : list LogEntry :=
  match outcome with
  | Returned _ => []
  | Threw thrown =>
      match getErrorMessage thrown with
      | Some _ => [Error (errorContext config) (sanitizeError thrown)]
      | None => []
      end
  end.

(** ** lib/utils: the client caches and their keys *)

(** *** [stableStringify] *)

(** The order of [Array.prototype.sort()] without a comparator: strings by
    their code units. *)
Definition compare_units (a b : string) : Z :=
  match String.compare a b with
  | Lt => (-1)%Z
  | Eq => 0%Z
  | Gt => 1%Z
  end.

(** A [Record<string, string>]: its own properties in the order in which
    [Object.keys] lists them. *)
Definition StringRecord : Type := list (string * string).

Definition Object_keys (obj : StringRecord) : list string := List.map fst obj.

(** [obj[k]] *)
Fixpoint Record_get (obj : StringRecord) (k : string) : option string :=
  match obj with
  | [] => None
  | (k', v) :: rest => if String.eqb k' k then Some v else Record_get rest k
  end.

(** [`${k}=${obj[k]}`] *)
Definition keyValue (obj : StringRecord) (k : string) : string :=
  (k ++ "=" ++ match Record_get obj k with
               | Some v => v
               | None => "undefined"
               end)%string.

(** [null] and [undefined] are [None]. *)
Definition stableStringify (obj : option StringRecord) : string :=
  match obj with
  | None => EmptyString
  | Some obj =>
      let sortedKeys := Array_sort compare_units (Object_keys obj) in
      Js.join "&" (List.map (keyValue obj) sortedKeys)
  end.

(** *** [getOrCreateClientCache] *)

Inductive GlobalCacheKey : Type :=
| CHECK_CX_OPENAI_CLIENTS
| CHECK_CX_GEMINI_CLIENTS
| CHECK_CX_ANTHROPIC_CLIENTS.

Definition GlobalCacheKey_eqb (a b : GlobalCacheKey) : bool :=
  match a, b with
  | CHECK_CX_OPENAI_CLIENTS, CHECK_CX_OPENAI_CLIENTS
  | CHECK_CX_GEMINI_CLIENTS, CHECK_CX_GEMINI_CLIENTS
  | CHECK_CX_ANTHROPIC_CLIENTS, CHECK_CX_ANTHROPIC_CLIENTS => true
  | _, _ => false
  end.

(** The [Map] objects live in a heap, and a reference to one is its position
    there; [globalThis] holds a reference or [undefined] under each of the
    three keys. *)
Record Globals (T : Type) := {
  heap : list (list (string * T));
  globalThis : GlobalCacheKey -> option nat
}.
Arguments heap {T} _.
Arguments globalThis {T} _ _.

Definition Globals_initial {T : Type} : Globals T :=
  {| heap := []; globalThis := fun _ => None |}.

(** The reference returned, and the globals afterwards. *)
Definition getOrCreateClientCache {T : Type} (globalKey : GlobalCacheKey)
  (g : Globals T) : nat * Globals T :=
  match globalThis g globalKey with
  | Some existing => (existing, g)
  | None =>
      let cache := length (heap g) in
      (cache,
       {| heap := heap g ++ [[]];
          globalThis := fun key =>
            if GlobalCacheKey_eqb key globalKey then Some cache
            else globalThis g key |})
  end.

(** [cache.get(key)] and [cache.set(key, client)] on the [Map] at a
    reference. *)
Fixpoint Map_lookup {T : Type} (entries : list (string * T)) (key : string)
  : option T :=
  match entries with
  | [] => None
  | (k, v) :: rest => if String.eqb k key then Some v else Map_lookup rest key
  end.

Fixpoint Map_update {T : Type} (entries : list (string * T)) (key : string)
  (client : T) : list (string * T) :=
  match entries with
  | [] => [(key, client)]
  | (k, v) :: rest =>
      if String.eqb k key then (k, client) :: rest
      else (k, v) :: Map_update rest key client
  end.

Definition Map_get {T : Type} (cache : nat) (key : string) (g : Globals T)
  : option T :=
  match List.nth_error (heap g) cache with
  | Some entries => Map_lookup entries key
  | None => None
  end.

Fixpoint set_nth {A : Type} (n : nat) (x : A) (l : list A) : list A :=
  match l, n with
  | [], _ => []
  | _ :: l', O => x :: l'
  | y :: l', S n' => y :: set_nth n' x l'
  end.

Definition Map_set {T : Type} (cache : nat) (key : string) (client : T)
  (g : Globals T) : Globals T :=
  match List.nth_error (heap g) cache with
  | Some entries =>
      {| heap := set_nth cache (Map_update entries key client) (heap g);
         globalThis := globalThis g |}
  | None => g
  end.

(** What the modules that hold a cache do between two calls: ask for a cache
    again, or store a client in one. *)
Inductive CacheOp (T : Type) : Type :=
| Ask (globalKey : GlobalCacheKey)
| Store (cache : nat) (key : string) (client : T).
Arguments Ask {T} _.
Arguments Store {T} _ _ _.

Definition CacheOp_run {T : Type} (g : Globals T) (op : CacheOp T) : Globals T :=
  match op with
  | Ask globalKey => snd (getOrCreateClientCache globalKey g)
  | Store cache key client => Map_set cache key client g
  end.

(** The references under [globalThis] point into the heap, and no two keys
    hold the same one. *)
Definition Globals_wf {T : Type} (g : Globals T) : Prop :=
  (forall key cache, globalThis g key = Some cache -> cache < length (heap g))
  /\ (forall key key' cache,
         globalThis g key = Some cache -> globalThis g key' = Some cache ->
         key = key').

(** ** app/api/v1/status/route.ts: the status report *)

(** A row of the provider configurations, as far as [GET] reads it. *)
Record StoredConfig := {
  row_id : string;
  row_name : string;
  row_type : string;
  row_model : string;
  row_endpoint : string;
  groupName : option string;
  is_maintenance : bool
}.

(** An entry of [latest] and of [timeline]. *)
Record TimelineEntry := {
  entry_status : HealthStatus;
  entry_latencyMs : option Z;
  entry_pingLatencyMs : option Z;
  entry_checkedAt : string;
  entry_message : option string
}.

Record ProviderStatus := {
  provider_id : string;
  provider_name : string;
  provider_type : string;
  provider_model : string;
  group : option string;
  provider_endpoint : string;
  latest : option TimelineEntry;
  statistics : ProviderStatistics;
  timeline : list TimelineEntry
}.

Record StatusSummary := {
  total : nat;
  summary_operational : nat;
  summary_degraded : nat;
  summary_failed : nat;
  summary_validationFailed : nat;
  summary_maintenance : nat;
  summary_avgLatencyMs : option Z
}.

Section StatusReport.

(** [new Date(checkedAt).getTime()], for the timestamps of the history. *)
Variable getTime : string -> Z.

(** The query parameters, [null] when absent. *)
Variables groupFilter modelFilter : option string.

Variable allConfigs : list StoredConfig.

(** [history[id]], [undefined] for an identifier without checks. *)
Variable history : string -> option (list CheckResult).

(** [(a, b) => new Date(b.checkedAt).getTime() - new Date(a.checkedAt).getTime()] *)
Definition byCheckedAt (a b : CheckResult) : Z :=
  (getTime (checkedAt b) - getTime (checkedAt a))%Z.

Definition maintenanceConfigIds : list string :=
  List.map row_id (List.filter is_maintenance allConfigs).

(** [value !== wanted] *)
Definition differs (value : option string) (wanted : string) : bool :=
  match value with
  | Some v => negb (String.eqb v wanted)
  | None => true
  end.

(** The two [continue]s at the head of the loop. *)
Definition skipped (config : StoredConfig) : bool :=
  match groupFilter with
  | Some wanted => negb (Str.is_empty wanted) && differs (groupName config) wanted
  | None => false
  end
  || match modelFilter with
     | Some wanted =>
         negb (Str.is_empty wanted) && differs (Some (row_model config)) wanted
     | None => false
     end.

Definition entry (isMaintenance : bool) (item : CheckResult) : TimelineEntry :=
  {| entry_status := if isMaintenance then maintenance else status item;
     entry_latencyMs := latencyMs item;
     entry_pingLatencyMs := pingLatencyMs item;
     entry_checkedAt := checkedAt item;
     entry_message := message item |}.

(** The body of the loop over [allConfigs], for a configuration that is not
    skipped. *)
Definition providerStatus (config : StoredConfig) : ProviderStatus :=
  let items :=
    match history (row_id config) with
    | Some items => items
    | None => []
    end in
  let sortedItems := Array_sort byCheckedAt items in
  let latest := List.head sortedItems in
  let statistics := computeStatistics sortedItems in
  let isMaintenance :=
    List.existsb (String.eqb (row_id config)) maintenanceConfigIds in
  {| provider_id := row_id config;
     provider_name := row_name config;
     provider_type := row_type config;
     provider_model := row_model config;
     group := if falsy_string (groupName config) then None else groupName config;
     provider_endpoint := row_endpoint config;
     latest := option_map (entry isMaintenance) latest;
     statistics := statistics;
     timeline := List.map (entry isMaintenance) sortedItems |}.

Definition providers : list ProviderStatus :=
  List.flat_map
    (fun config => if skipped config then [] else [providerStatus config])
    allConfigs.

End StatusReport.

(** The counters of the loop over [providers]. *)
Record Counters := {
  summaryOperational : nat;
  summaryDegraded : nat;
  summaryFailed : nat;
  summaryValidationFailed : nat;
  summaryMaintenance : nat;
  allLatencies : list Z
}.

Definition Counters_zero : Counters :=
  {| summaryOperational := 0; summaryDegraded := 0; summaryFailed := 0;
     summaryValidationFailed := 0; summaryMaintenance := 0;
     allLatencies := [] |}.

(** One iteration: [continue] without a latest check, else the [switch] on
    its status, then its latency. *)
Definition count_provider (c : Counters) (provider : ProviderStatus) : Counters :=
  match latest provider with
  | None => c
  | Some l =>
      let c1 :=
        match entry_status l with
        | operational =>
            {| summaryOperational := S (summaryOperational c);
               summaryDegraded := summaryDegraded c;
               summaryFailed := summaryFailed c;
               summaryValidationFailed := summaryValidationFailed c;
               summaryMaintenance := summaryMaintenance c;
               allLatencies := allLatencies c |}
        | degraded =>
            {| summaryOperational := summaryOperational c;
               summaryDegraded := S (summaryDegraded c);
               summaryFailed := summaryFailed c;
               summaryValidationFailed := summaryValidationFailed c;
               summaryMaintenance := summaryMaintenance c;
               allLatencies := allLatencies c |}
        | failed =>
            {| summaryOperational := summaryOperational c;
               summaryDegraded := summaryDegraded c;
               summaryFailed := S (summaryFailed c);
               summaryValidationFailed := summaryValidationFailed c;
               summaryMaintenance := summaryMaintenance c;
               allLatencies := allLatencies c |}
        | validation_failed =>
            {| summaryOperational := summaryOperational c;
               summaryDegraded := summaryDegraded c;
               summaryFailed := summaryFailed c;
               summaryValidationFailed := S (summaryValidationFailed c);
               summaryMaintenance := summaryMaintenance c;
               allLatencies := allLatencies c |}
        | maintenance =>
            {| summaryOperational := summaryOperational c;
               summaryDegraded := summaryDegraded c;
               summaryFailed := summaryFailed c;
               summaryValidationFailed := summaryValidationFailed c;
               summaryMaintenance := S (summaryMaintenance c);
               allLatencies := allLatencies c |}
        | error => c
        end in
      match entry_latencyMs l with
      | Some ms =>
          {| summaryOperational := summaryOperational c1;
             summaryDegraded := summaryDegraded c1;
             summaryFailed := summaryFailed c1;
             summaryValidationFailed := summaryValidationFailed c1;
             summaryMaintenance := summaryMaintenance c1;
             allLatencies := allLatencies c1 ++ [ms] |}
      | None => c1
      end
  end.

Definition summary (providers : list ProviderStatus) : StatusSummary :=
  let c := List.fold_left count_provider providers Counters_zero in
  {| total := length providers;
     summary_operational := summaryOperational c;
     summary_degraded := summaryDegraded c;
     summary_failed := summaryFailed c;
     summary_validationFailed := summaryValidationFailed c;
     summary_maintenance := summaryMaintenance c;
     summary_avgLatencyMs :=
       match allLatencies c with
       | [] => None
       | _ :: _ =>
           Some (Math_round (inject_Z (sum (allLatencies c))
                             / inject_Z (Z.of_nat (length (allLatencies c)))))
       end |}.

(** The number of providers whose latest check has a status. *)
Definition latest_count (s : HealthStatus) (providers : list ProviderStatus) : nat :=
  length (List.filter
            (fun p => match latest p with
                      | Some l => HealthStatus_eqb (entry_status l) s
                      | None => false
                      end) providers).

Definition without_latest (providers : list ProviderStatus) : nat :=
  length (List.filter
            (fun p => match latest p with Some _ => false | None => true end)
            providers).

(** * Properties *)

(** ** Strings *)

Module StrFacts.
Import Str.
Local Open Scope string_scope.

Lemma length_app (a b : string) :
  String.length (a ++ b) = String.length a + String.length b.
Proof. induction a as [|c a IH]; simpl; [reflexivity | now rewrite IH]. Qed.

Lemma app_assoc (a b c : string) : (a ++ b) ++ c = a ++ (b ++ c).
Proof. induction a as [|x a IH]; simpl; [reflexivity | now rewrite IH]. Qed.

Lemma app_empty_r (a : string) : a ++ "" = a.
Proof. induction a as [|x a IH]; simpl; [reflexivity | now rewrite IH]. Qed.

Lemma drop_app_length (a b : string) : drop (String.length a) (a ++ b) = b.
Proof. induction a as [|x a IH]; simpl; [now destruct b | exact IH]. Qed.

Lemma take_app_length (a b : string) : take (String.length a) (a ++ b) = a.
Proof. induction a as [|x a IH]; simpl; [now destruct b | now rewrite IH]. Qed.

Lemma take_drop (n : nat) (s : string) : take n s ++ drop n s = s.
Proof.
  revert s; induction n as [|n IH]; intros [|c s]; simpl; try reflexivity.
  now rewrite IH.
Qed.

Lemma length_drop (n : nat) (s : string) :
  String.length (drop n s) = String.length s - n.
Proof.
  revert s; induction n as [|n IH]; intros [|c s]; simpl; auto with arith.
Qed.

Lemma length_take (n : nat) (s : string) :
  String.length (take n s) = Nat.min n (String.length s).
Proof.
  revert s; induction n as [|n IH]; intros [|c s]; simpl; auto.
Qed.

Lemma length_lower (s : string) : String.length (lower s) = String.length s.
Proof. induction s as [|c s IH]; simpl; [reflexivity | now rewrite IH]. Qed.

Lemma lower_app (a b : string) : lower (a ++ b) = lower a ++ lower b.
Proof. induction a as [|c a IH]; simpl; [reflexivity | now rewrite IH]. Qed.

Lemma lower_empty (s : string) : lower s = "" -> s = "".
Proof. destruct s; simpl; [reflexivity | discriminate]. Qed.

Lemma contains_length (w s : string) :
  contains w s -> String.length w <= String.length s.
Proof. intros (pre & post & ->). rewrite !length_app. lia. Qed.

Lemma contains_ci_length (w s : string) :
  contains_ci w s -> String.length w <= String.length s.
Proof.
  intros (pre & mid & post & -> & E).
  rewrite <- (length_lower w), <- E, length_lower, !length_app. lia.
Qed.

End StrFacts.

(** ** The matcher *)

Module ReFacts.
Import Str StrFacts.
Local Open Scope string_scope.

Section Exec.
Context {A : Type}.
Implicit Types (k : string -> option A) (s w : string).

(** A case-insensitive word matches exactly the prefixes that equal it up to
    case. *)
Lemma exec_word_i w s k x :
  Re.exec (Re.word_i w) s k = Some x <->
  exists mid rest : string,
    s = mid ++ rest /\ lower mid = lower w /\ k rest = Some x.
Proof.
  revert s; induction w as [|c w IH]; intros s; simpl.
  - split.
    + intros E. exists "", s. auto.
    + intros (mid & rest & -> & E & Hk). apply lower_empty in E. now subst.
  - destruct s as [|a s].
    + split; [discriminate|].
      intros (mid & rest & E & L & _). destruct mid; simpl in *; discriminate.
    + destruct (Ascii.eqb (fold_case a) (fold_case c)) eqn:Eac.
      * apply Ascii.eqb_eq in Eac. rewrite IH. split.
        -- intros (mid & rest & -> & L & Hk).
           exists (String a mid), rest. simpl. now rewrite Eac, L.
        -- intros (mid & rest & E & L & Hk).
           destruct mid as [|a' mid]; simpl in *; [discriminate|].
           injection E as -> ->. injection L as _ L. eauto.
      * split; [discriminate|].
        intros (mid & rest & E & L & _).
        destruct mid as [|a' mid]; simpl in *; [discriminate|].
        injection E as -> ->. injection L as L _.
        rewrite L, Ascii.eqb_refl in Eac. discriminate.
Qed.

(** An exact word matches exactly itself. *)
Lemma exec_word w s k :
  Re.exec (Re.word w) s k =
  if String.prefix w s then k (drop (String.length w) s) else None.
Proof.
  revert s; induction w as [|c w IH]; intros s; simpl.
  - now destruct s.
  - destruct s as [|a s]; [reflexivity|]. unfold Re.lit. simpl.
    rewrite Ascii.eqb_sym.
    destruct (ascii_dec a c) as [->|N].
    + rewrite Ascii.eqb_refl. destruct (ascii_dec c c); [apply IH | congruence].
    + apply Ascii.eqb_neq in N. rewrite N.
      destruct (ascii_dec c a); [subst; now rewrite Ascii.eqb_refl in N | reflexivity].
Qed.

(** An optional item never makes a match fail when the continuation cannot
    fail. *)
Lemma exec_Opt_total r s k :
  (forall s', is_Some (k s')) -> is_Some (Re.exec (Opt r) s k).
Proof. intros Hk. simpl. destruct (Re.exec r s k); [eauto | apply Hk]. Qed.

End Exec.

Lemma test_iff (r : regex) (s : string) :
  Re.test r s = true <->
  exists pre rest : string, s = pre ++ rest /\ is_Some (Re.match_here r rest).
Proof.
  induction s as [|c s IH]; simpl.
  - destruct (Re.match_here r "") eqn:E.
    + split; [intros _; exists "", ""; rewrite E; eauto | reflexivity].
    + split; [discriminate|].
      intros (pre & rest & Es & [m Hm]).
      destruct pre; [|discriminate]. simpl in Es. subst rest. congruence.
  - destruct (Re.match_here r (String c s)) eqn:E.
    + split; [intros _; exists "", (String c s); rewrite E; eauto | reflexivity].
    + rewrite IH. split.
      * intros (pre & rest & -> & Hm). exists (String c pre), rest. auto.
      * intros (pre & rest & Es & [m Hm]).
        destruct pre as [|c' pre]; simpl in Es.
        -- subst rest. congruence.
        -- injection Es as -> ->. exists pre, rest. eauto.
Qed.

End ReFacts.

(** ** The transient-failure classifier *)

Lemma request_aborted_here (s : string) :
  is_Some (Re.match_here REQUEST_ABORTED_PATTERN s) <->
  exists mid rest : string,
    s = (mid ++ rest)%string /\ Str.lower mid = "request was aborted".
Proof.
  unfold Re.match_here, REQUEST_ABORTED_PATTERN.
  change (Re.exec (Seq ?a ?b) s ?k) with (Re.exec a s (fun s1 => Re.exec b s1 k)).
  split.
  - intros [m Hm]. apply ReFacts.exec_word_i in Hm as (mid & rest & E & L & _).
    exists mid, rest. auto.
  - intros (mid & rest & E & L).
    destruct (ReFacts.exec_Opt_total (Re.lit_i ".") rest
                (fun rest0 => Some (Str.take (String.length s - String.length rest0) s)))
      as [m Hm]; [eauto|].
    exists m. apply ReFacts.exec_word_i. exists mid, rest. auto.
Qed.

(** C9. [shouldRetryRequestAborted] is false for an absent and for an empty
    message, and on every message it is true exactly when the message
    contains the phrase "request was aborted" up to case; the optional period
    of the pattern does not change the answer.  Messages of other failures
    (bad credentials, a 500, a timeout) are not retried. *)
Theorem shouldRetryRequestAborted_spec :
  shouldRetryRequestAborted None = false
  /\ shouldRetryRequestAborted (Some EmptyString) = false
  /\ (forall m : string,
        shouldRetryRequestAborted (Some m) = true <->
        Str.contains_ci "request was aborted" m)
  /\ shouldRetryRequestAborted (Some "Request was aborted") = true
  /\ shouldRetryRequestAborted (Some "Error: REQUEST WAS ABORTED.") = true
  /\ shouldRetryRequestAborted (Some "Incorrect API key provided") = false
  /\ shouldRetryRequestAborted (Some "[500] Internal Server Error") = false
  /\ shouldRetryRequestAborted (Some "The operation timed out") = false.
Proof.
  assert (main : forall m : string,
             shouldRetryRequestAborted (Some m) = true <->
             Str.contains_ci "request was aborted" m).
  { intros m. unfold shouldRetryRequestAborted, Str.contains_ci.
    destruct m as [|c m]; simpl Str.is_empty; cbv iota.
    - split; [discriminate|].
      intros (pre & mid & post & E & L).
      destruct pre; [|discriminate]. destruct mid; discriminate.
    - rewrite ReFacts.test_iff. split.
      + intros (pre & rest & E & Hm).
        apply request_aborted_here in Hm as (mid & post & -> & L).
        exists pre, mid, post. auto.
      + intros (pre & mid & post & E & L).
        exists pre, (mid ++ post)%string. split; [exact E|].
        apply request_aborted_here. exists mid, post. auto. }
  repeat split; try reflexivity; apply main.
Qed.

(** ** The response validator *)

Module NumberFacts.
Import Str StrFacts Spec Scan.
Local Open Scope string_scope.

Section Exec.
Context {A : Type}.
Implicit Types (k : string -> option A) (s : string).

Lemma star_loop_ext once once' k k' fuel s :
  (forall s0 h h', (forall x, h x = h' x) -> once s0 h = once' s0 h') ->
  (forall x, k x = k' x) ->
  Re.star_loop once k fuel s = Re.star_loop once' k' fuel s.
Proof.
  intros Honce Hk. revert s; induction fuel as [|fuel IH]; intros s; simpl.
  - apply Hk.
  - rewrite (Honce s _ (fun s1 =>
       if (String.length s1 <? String.length s)%nat
       then Re.star_loop once' k' fuel s1 else None)).
    + now rewrite Hk.
    + intros x. now rewrite IH.
Qed.

(** The matcher only looks at what its continuation returns. *)
Lemma exec_ext r s k k' :
  (forall x, k x = k' x) -> Re.exec r s k = Re.exec r s k'.
Proof.
  revert s k k'; induction r as [|p|r1 IH1 r2 IH2|r1 IH1 r2 IH2|r IH|r IH];
    intros s k k' Hk; simpl.
  - apply Hk.
  - destruct s as [|c s]; [reflexivity|]. now rewrite Hk.
  - apply IH1. intros x. now apply IH2.
  - now rewrite (IH1 s k k' Hk), (IH2 s k k' Hk).
  - now rewrite (IH s k k' Hk), Hk.
  - apply star_loop_ext; [|exact Hk]. intros s0 h h' Hh. now apply IH.
Qed.

(** A greedy run of one class of code units takes all of them when the
    continuation cannot fail. *)
Lemma star_loop_chr p k fuel s :
  (forall s', is_Some (k s')) ->
  String.length s <= fuel ->
  Re.star_loop (Re.exec (Chr p)) k fuel s = k (drop_while p s).
Proof.
  intros Hk. revert s; induction fuel as [|fuel IH]; intros s Hlen; simpl.
  - destruct s; [reflexivity | simpl in Hlen; lia].
  - destruct s as [|c s]; [reflexivity|]. simpl.
    destruct (p c); [|reflexivity].
    replace (String.length s <? S (String.length s))%nat with true
      by (symmetry; apply Nat.ltb_lt; lia).
    simpl in Hlen. rewrite IH by lia.
    destruct (Hk (drop_while p s)) as [x ->]. reflexivity.
Qed.

Lemma exec_plus_chr p k s :
  (forall s', is_Some (k s')) ->
  Re.exec (Re.Plus (Chr p)) s k =
  match s with
  | String c s' => if p c then k (drop_while p s') else None
  | EmptyString => None
  end.
Proof.
  intros Hk. destruct s as [|c s]; [reflexivity|]. simpl.
  destruct (p c); [|reflexivity]. now apply star_loop_chr.
Qed.

Lemma exec_Opt_lit c0 c s k :
  Re.exec (Opt (Re.lit c0)) (String c s) k =
  match (if Ascii.eqb c0 c then k s else None) with
  | Some x => Some x
  | None => k (String c s)
  end.
Proof. reflexivity. Qed.

End Exec.

Lemma length_drop_while p s : String.length (drop_while p s) <= String.length s.
Proof.
  induction s as [|c s IH]; simpl; [lia|]. destruct (p c); simpl; lia.
Qed.

Lemma take_drop_while p s :
  take (String.length s - String.length (drop_while p s)) s = take_while p s.
Proof.
  induction s as [|c s IH]; simpl; [reflexivity|].
  destruct (p c) eqn:E.
  - pose proof (length_drop_while p s).
    replace (S (String.length s) - String.length (drop_while p s))
      with (S (String.length s - String.length (drop_while p s))) by lia.
    simpl. now rewrite IH.
  - simpl. now rewrite Nat.sub_diag.
Qed.

Lemma take_while_drop_while p s : take_while p s ++ drop_while p s = s.
Proof.
  induction s as [|c s IH]; simpl; [reflexivity|].
  destruct (p c); simpl; [now rewrite IH | reflexivity].
Qed.

Lemma all_take_while p s : all p (take_while p s) = true.
Proof.
  induction s as [|c s IH]; simpl; [reflexivity|].
  destruct (p c) eqn:E; simpl; [now rewrite E | reflexivity].
Qed.

Lemma starts_drop_while p s : starts_with p (drop_while p s) = false.
Proof.
  induction s as [|c s IH]; simpl; [reflexivity|].
  destruct (p c) eqn:E; simpl; [exact IH | exact E].
Qed.

Lemma match_here_number s : Re.match_here NUMBER_PATTERN s = token_here s.
Proof.
  unfold Re.match_here, NUMBER_PATTERN.
  set (k := fun rest => Some (take (String.length s - String.length rest) s)).
  change (Re.exec (Seq ?a ?b) s k) with (Re.exec a s (fun s1 => Re.exec b s1 k)).
  rewrite (exec_ext _ s _ (fun s1 =>
    match s1 with
    | String c s' => if Re.digit c then k (drop_while Re.digit s') else None
    | EmptyString => None
    end)) by (intros x; apply exec_plus_chr; unfold k; eauto).
  destruct s as [|c s]; [reflexivity|].
  rewrite exec_Opt_lit. unfold token_here.
  rewrite (Ascii.eqb_sym "-" c).
  destruct (Ascii.eqb c "-") eqn:Ec.
  - apply Ascii.eqb_eq in Ec. subst c.
    destruct s as [|d s]; [reflexivity|]. simpl starts_with.
    destruct (Re.digit d) eqn:Ed; [|reflexivity].
    unfold k. f_equal.
    pose proof (length_drop_while Re.digit s).
    replace (String.length (String "-" (String d s))
             - String.length (drop_while Re.digit s))
      with (S (S (String.length s - String.length (drop_while Re.digit s))))
      by (simpl; lia).
    simpl. now rewrite Ed, take_drop_while.
  - destruct (Re.digit c) eqn:Ed; [|reflexivity].
    unfold k. f_equal.
    pose proof (length_drop_while Re.digit s).
    replace (String.length (String c s) - String.length (drop_while Re.digit s))
      with (S (String.length s - String.length (drop_while Re.digit s)))
      by (simpl; lia).
    simpl. now rewrite Ed, take_drop_while.
Qed.


Lemma digit_not_minus c : Re.digit c = true -> Ascii.eqb c "-" = false.
Proof.
  intros Hd. destruct (Ascii.eqb c "-") eqn:E; [|reflexivity].
  apply Ascii.eqb_eq in E. subst c. discriminate.
Qed.

Lemma is_number_nonempty tok : is_number tok -> 1 <= String.length tok.
Proof. intros [ds N _|ds N _]; destruct ds; simpl; try congruence; lia. Qed.

Lemma take_while_app_all p a b :
  all p a = true -> starts_with p b = false -> take_while p (a ++ b) = a.
Proof.
  intros Ha Hb. induction a as [|c a IH]; simpl in *.
  - destruct b as [|c b]; simpl in *; [reflexivity | now rewrite Hb].
  - apply andb_true_iff in Ha as [-> Ha]. now rewrite IH.
Qed.

Lemma starts_with_app p a b :
  a <> "" -> starts_with p (a ++ b) = starts_with p a.
Proof. destruct a; simpl; congruence. Qed.

Lemma starts_with_all p a : a <> "" -> all p a = true -> starts_with p a = true.
Proof.
  destruct a; simpl; [congruence|]. intros _ H.
  now apply andb_true_iff in H as [-> _].
Qed.

Lemma token_here_Some s m :
  token_here s = Some m ->
  exists rest : string,
    s = m ++ rest /\ is_number m /\ starts_with Re.digit rest = false.
Proof.
  destruct s as [|c s]; [discriminate|]. unfold token_here.
  destruct (Ascii.eqb c "-") eqn:Ec.
  - apply Ascii.eqb_eq in Ec. subst c.
    destruct (starts_with Re.digit s) eqn:Es; [|discriminate].
    intros [= <-]. exists (drop_while Re.digit s). split; [|split].
    + cbn [append]. now rewrite take_while_drop_while.
    + apply number_minus; [|apply all_take_while].
      destruct s as [|d s]; simpl in *; [discriminate|]. now rewrite Es.
    + apply starts_drop_while.
  - destruct (Re.digit c) eqn:Ed; [|discriminate].
    intros E.
    assert (m = take_while Re.digit (String c s)) as -> by congruence.
    exists (drop_while Re.digit (String c s)). split; [|split].
    + symmetry. apply take_while_drop_while.
    + apply number_plain; [|apply all_take_while]. simpl. now rewrite Ed.
    + apply starts_drop_while.
Qed.

Lemma token_here_None c s :
  token_here (String c s) = None ->
  Re.digit c = false /\ (c = "-"%char -> starts_with Re.digit s = false).
Proof.
  unfold token_here. destruct (Ascii.eqb c "-") eqn:Ec.
  - apply Ascii.eqb_eq in Ec. subst c.
    destruct (starts_with Re.digit s); [discriminate|]. auto.
  - destruct (Re.digit c); [discriminate|]. intros _. split; [reflexivity|].
    intros ->. discriminate.
Qed.

Lemma token_here_number tok rest :
  is_number tok -> starts_with Re.digit rest = false ->
  token_here (tok ++ rest) = Some tok.
Proof.
  intros [ds N Hds|ds N Hds] Hrest.
  - destruct ds as [|d ds]; [congruence|]. simpl in Hds.
    apply andb_true_iff in Hds as [Hd Hds].
    change (String d ds ++ rest) with (String d (ds ++ rest)).
    unfold token_here. rewrite (digit_not_minus d Hd), Hd.
    simpl. now rewrite Hd, take_while_app_all.
  - change (String "-" ds ++ rest) with (String "-" (ds ++ rest)).
    unfold token_here. rewrite Ascii.eqb_refl.
    rewrite starts_with_app, starts_with_all by assumption.
    now rewrite take_while_app_all.
Qed.

Lemma match_from_skip r n s :
  n <= String.length s ->
  Re.match_from r n s = Re.match_from r 0 (drop n s).
Proof.
  revert n; induction s as [|c s IH]; intros n Hn.
  - destruct n; [reflexivity | simpl in Hn; lia].
  - destruct n as [|n]; [reflexivity|]. simpl in Hn.
    change (Re.match_from r (S n) (String c s)) with (Re.match_from r n s).
    rewrite IH by lia. reflexivity.
Qed.

Lemma numbers_empty : numbers "" = [].
Proof. reflexivity. Qed.

Lemma numbers_cons c s :
  numbers (String c s) =
  match token_here (String c s) with
  | Some m => m :: numbers (drop (String.length m) (String c s))
  | None => numbers s
  end.
Proof.
  unfold numbers. cbn [Re.match_from]. rewrite match_here_number.
  destruct (token_here (String c s)) as [m|] eqn:E; [|reflexivity].
  apply token_here_Some in E as (rest & Es & Hm & _).
  pose proof (is_number_nonempty m Hm) as Hlen.
  assert (String.length m <= S (String.length s)).
  { change (S (String.length s)) with (String.length (String c s)).
    rewrite Es, length_app. lia. }
  rewrite match_from_skip by lia. f_equal. f_equal.
  destruct (String.length m) as [|n]; [lia|]. simpl.
  now rewrite Nat.sub_0_r.
Qed.

(** *** The matcher computes the tokens of the specification *)

Lemma Tokens_gap_cons c s toks :
  Re.digit c = false ->
  (c = "-"%char -> starts_with Re.digit s = false) ->
  Tokens s toks -> Tokens (String c s) toks.
Proof.
  intros Hc Hminus HT. destruct HT as [gap Hgap|gap tok rest toks Hgap Htok Hrest Hsign HT].
  - apply Tokens_end. unfold no_digit in *. simpl. now rewrite Hc.
  - change (String c (gap ++ tok ++ rest)) with (String c gap ++ tok ++ rest).
    apply Tokens_next; auto.
    + unfold no_digit in *. simpl. now rewrite Hc.
    + intros Hd [s0 E]. destruct gap as [|g gap].
      * destruct s0 as [|x s0]; simpl in E.
        -- injection E as ->. specialize (Hminus eq_refl). simpl in Hminus.
           rewrite starts_with_app in Hminus; [congruence|].
           destruct Htok; simpl; congruence.
        -- injection E as _ E. destruct s0; discriminate.
      * destruct s0 as [|x s0]; simpl in E; [discriminate|].
        injection E as _ E. apply (Hsign Hd). now exists s0.
Qed.

Lemma numbers_sound_bounded n s :
  String.length s <= n -> Tokens s (numbers s).
Proof.
  revert s; induction n as [|n IH]; intros s Hlen.
  - destruct s; [|simpl in Hlen; lia]. now apply Tokens_end.
  - destruct s as [|c s]; [now apply Tokens_end|].
    rewrite numbers_cons. simpl in Hlen.
    destruct (token_here (String c s)) as [m|] eqn:E.
    + apply token_here_Some in E as (rest & Es & Hm & Hrest).
      rewrite Es, drop_app_length.
      apply (Tokens_next "" m rest); auto.
      * intros _ [s0 E0]. destruct s0; discriminate.
      * apply IH. pose proof (is_number_nonempty m Hm).
        assert (String.length (String c s) = String.length m + String.length rest)
          by (rewrite Es; apply length_app).
        simpl in *. lia.
    + apply token_here_None in E as [Hc Hminus].
      apply Tokens_gap_cons; auto. apply IH. lia.
Qed.

Lemma numbers_sound s : Tokens s (numbers s).
Proof. now apply (numbers_sound_bounded (String.length s)). Qed.

Lemma numbers_no_digit s : no_digit s = true -> numbers s = [].
Proof.
  unfold no_digit. induction s as [|c s IH]; [reflexivity|]. simpl.
  intros H. apply andb_true_iff in H as [Hc Hs].
  apply negb_true_iff in Hc. rewrite numbers_cons.
  unfold token_here. rewrite Hc.
  destruct (Ascii.eqb c "-"); [|now apply IH].
  destruct s as [|d s]; simpl in *; [reflexivity|].
  apply andb_true_iff in Hs as [Hd Hs']. apply negb_true_iff in Hd.
  rewrite Hd. apply IH. now rewrite Hd, Hs'.
Qed.

Lemma numbers_next gap tok rest :
  no_digit gap = true ->
  is_number tok ->
  starts_with Re.digit rest = false ->
  (starts_with Re.digit tok = true -> ~ ends_with_minus gap) ->
  numbers (gap ++ tok ++ rest) = tok :: numbers rest.
Proof.
  intros Hgap Htok Hrest. unfold no_digit in Hgap.
  induction gap as [|c gap IH]; intros Hsign.
  - simpl. pose proof (is_number_nonempty tok Htok).
    destruct (tok ++ rest) as [|x y] eqn:E.
    + destruct tok; simpl in *; [lia | discriminate].
    + rewrite numbers_cons, <- E, token_here_number by assumption.
      now rewrite drop_app_length.
  - simpl in Hgap. apply andb_true_iff in Hgap as [Hc Hgap].
    apply negb_true_iff in Hc.
    change (String c gap ++ tok ++ rest) with (String c (gap ++ tok ++ rest)).
    rewrite numbers_cons.
    assert (token_here (String c (gap ++ tok ++ rest)) = None) as ->.
    { unfold token_here. rewrite Hc.
      destruct (Ascii.eqb c "-") eqn:Ec; [|reflexivity].
      apply Ascii.eqb_eq in Ec. subst c.
      destruct gap as [|g gap].
      - simpl. rewrite starts_with_app
          by (intros ->; now pose proof (is_number_nonempty _ Htok)).
        destruct (starts_with Re.digit tok) eqn:Et; [|reflexivity].
        exfalso. apply (Hsign eq_refl). now exists "".
      - simpl in *. apply andb_true_iff in Hgap as [Hg _].
        apply negb_true_iff in Hg. now rewrite Hg. }
    apply IH; [assumption|].
    intros Hd [s0 E]. apply (Hsign Hd). exists (String c s0). simpl. now rewrite E.
Qed.

(** The specification determines the tokens: they are those of the matcher. *)
Lemma Tokens_unique s toks : Tokens s toks -> toks = numbers s.
Proof.
  induction 1 as [gap Hgap|gap tok rest toks Hgap Htok Hrest Hsign _ IH].
  - symmetry. now apply numbers_no_digit.
  - rewrite numbers_next by assumption. now rewrite IH.
Qed.

End NumberFacts.

Lemma includes_In (x : string) (l : list string) :
  includes x l = true <-> In x l.
Proof.
  unfold includes. rewrite existsb_exists. split.
  - intros (y & Hy & E). apply String.eqb_eq in E. now subst.
  - intros Hx. exists x. split; [assumption | apply String.eqb_refl].
Qed.

Lemma validateResponse_nonempty (response expectedAnswer : string) :
  response <> EmptyString -> expectedAnswer <> EmptyString ->
  validateResponse (Some response) (Some expectedAnswer) =
  match Scan.numbers response with
  | [] => {| valid := false; extractedNumbers := None |}
  | numbers =>
      {| valid := includes expectedAnswer numbers;
         extractedNumbers := Some numbers |}
  end.
Proof.
  intros Hr He. unfold validateResponse, Re.match_all, Scan.numbers.
  destruct response; [congruence|]. destruct expectedAnswer; [congruence|].
  cbn [falsy_string Str.is_empty orb].
  now destruct (Re.match_from NUMBER_PATTERN 0 _).
Qed.

Lemma validateResponse_falsy (response expectedAnswer : option string) :
  falsy_string response = true \/ falsy_string expectedAnswer = true ->
  validateResponse response expectedAnswer =
  {| valid := false; extractedNumbers := None |}.
Proof.
  unfold validateResponse.
  destruct response as [r|], expectedAnswer as [e|]; try reflexivity.
  intros [H|H]; rewrite H; [reflexivity | now rewrite orb_true_r].
Qed.

(** C5. [validateResponse] returns [{valid: false, extractedNumbers: null}]
    when an argument is empty or absent.  Otherwise the numbers it extracts
    are the tokens of the reply in the sense of the specification (every
    maximal substring matching [-?[0-9]+], left to right, which the reply
    determines), and [valid] holds exactly when the expected answer is one of
    them as a string. *)
Theorem validateResponse_spec :
  (forall response expectedAnswer : option string,
      falsy_string response = true \/ falsy_string expectedAnswer = true ->
      validateResponse response expectedAnswer =
      {| valid := false; extractedNumbers := None |})
  /\ (forall (response expectedAnswer : string) (tokens : list string),
        response <> EmptyString -> expectedAnswer <> EmptyString ->
        Spec.Tokens response tokens ->
        (valid (validateResponse (Some response) (Some expectedAnswer)) = true
         <-> In expectedAnswer tokens)
        /\ extractedNumbers (validateResponse (Some response) (Some expectedAnswer))
           = match tokens with [] => None | _ => Some tokens end)
  /\ (forall response : string, exists tokens, Spec.Tokens response tokens)
  /\ valid (validateResponse (Some "-3 and 8") (Some "-3")) = true
  /\ valid (validateResponse (Some "The answer is 8.") (Some "8")) = true
  /\ validateResponse (Some "The answer is 9.") (Some "8")
     = {| valid := false; extractedNumbers := Some ["9"] |}.
Proof.
  split; [exact validateResponse_falsy|].
  split; [|split; [|repeat split]].
  - intros response expectedAnswer tokens Hr He HT.
    apply NumberFacts.Tokens_unique in HT. subst tokens.
    rewrite validateResponse_nonempty by assumption.
    destruct (Scan.numbers response) as [|m ms] eqn:E;
      cbn [valid extractedNumbers].
    + split; [|reflexivity]. split; [discriminate | contradiction].
    + split; [apply includes_In | reflexivity].
  - intros response. exists (Scan.numbers response).
    apply NumberFacts.numbers_sound.
Qed.

(** The hypotheses of C5 are met by the reply "-3 and 8". *)
Lemma validateResponse_spec_witness :
  (valid (validateResponse (Some "-3 and 8") (Some "-3")) = true
   <-> In "-3"%string ["-3"; "8"]%string)
  /\ extractedNumbers (validateResponse (Some "-3 and 8") (Some "-3"))
     = Some ["-3"; "8"]%string.
Proof.
  apply (proj1 (proj2 validateResponse_spec) "-3 and 8" "-3" ["-3"; "8"]%string).
  - discriminate.
  - discriminate.
  - apply (Spec.Tokens_next "" "-3" " and 8" ["8"]%string).
    + reflexivity.
    + apply (Spec.number_minus "3"); [discriminate | reflexivity].
    + reflexivity.
    + discriminate.
    + apply (Spec.Tokens_next " and " "8" "" []).
      * reflexivity.
      * apply (Spec.number_plain "8"); [discriminate | reflexivity].
      * reflexivity.
      * intros _ [s0 E]. do 6 (destruct s0 as [|? s0]; try discriminate).
      * now apply Spec.Tokens_end.
Defined.

Lemma numbers_nil_no_digit (s : string) :
  Scan.numbers s = [] <-> Spec.no_digit s = true.
Proof.
  split; [|apply NumberFacts.numbers_no_digit].
  intros E. pose proof (NumberFacts.numbers_sound s) as HT. rewrite E in HT.
  now inversion HT.
Qed.

(** C10. [validateResponse] never returns an empty array of numbers:
    [extractedNumbers] is absent exactly when an argument is empty or absent
    or the reply holds no digit, and otherwise holds at least one token; so
    when [valid] is true, [extractedNumbers] is present and contains the
    expected answer. *)
Theorem validateResponse_numbers_nonempty :
  forall response expectedAnswer : option string,
    extractedNumbers (validateResponse response expectedAnswer) <> Some []
    /\ (extractedNumbers (validateResponse response expectedAnswer) = None
        <-> falsy_string response = true
            \/ falsy_string expectedAnswer = true
            \/ exists r, response = Some r /\ Spec.no_digit r = true)
    /\ (valid (validateResponse response expectedAnswer) = true ->
        exists e numbers,
          expectedAnswer = Some e
          /\ extractedNumbers (validateResponse response expectedAnswer)
             = Some numbers
          /\ numbers <> []
          /\ In e numbers).
Proof.
  intros response expectedAnswer.
  destruct (falsy_string response) eqn:Hr.
  { rewrite validateResponse_falsy by auto. simpl.
    repeat split; try discriminate; auto. }
  destruct (falsy_string expectedAnswer) eqn:He.
  { rewrite validateResponse_falsy by auto. simpl.
    repeat split; try discriminate; auto. }
  destruct response as [r|]; [|discriminate].
  destruct expectedAnswer as [e|]; [|discriminate].
  rewrite validateResponse_nonempty
    by (intros ->; simpl in *; discriminate).
  destruct (Scan.numbers r) as [|m ms] eqn:E;
    cbn [valid extractedNumbers].
  - split; [discriminate|]. split; [|discriminate].
    split; [|reflexivity]. intros _. right. right. exists r.
    split; [reflexivity | now apply numbers_nil_no_digit].
  - split; [discriminate|]. split.
    + split; [discriminate|].
      intros [H|[H|(r' & [= <-] & H)]]; try discriminate.
      apply numbers_nil_no_digit in H. congruence.
    + intros Hv. exists e, (m :: ms). repeat split; [discriminate|].
      now apply includes_In.
Qed.

(** C10 at the reply "-3 and 8": [valid] is true and the numbers are there. *)
Lemma validateResponse_numbers_nonempty_witness :
  exists e numbers,
    Some "-3"%string = Some e
    /\ extractedNumbers (validateResponse (Some "-3 and 8") (Some "-3"))
       = Some numbers
    /\ numbers <> []
    /\ In e numbers.
Proof.
  apply (proj2 (proj2 (validateResponse_numbers_nonempty
                         (Some "-3 and 8"%string) (Some "-3"%string)))).
  reflexivity.
Defined.

(** ** The challenge generator *)

Lemma operand_range (r : Q) :
  (0 <= r)%Q -> (r < 1)%Q -> (1 <= operand r <= 50)%Z.
Proof.
  intros H0 H1. unfold operand, Math_floor.
  assert (L : (0 <= Qfloor (r * 50))%Z).
  { change 0%Z with (Qfloor 0). apply Qfloor_resp_le.
    apply Qmult_le_0_compat; [assumption | discriminate]. }
  assert (U : (Qfloor (r * 50) < 50)%Z).
  { rewrite Zlt_Qlt. apply Qle_lt_trans with (r * 50)%Q; [apply Qfloor_le|].
    apply Qlt_le_trans with (1 * 50)%Q; [|discriminate].
    apply Qmult_lt_r; [reflexivity | assumption]. }
  lia.
Qed.

Lemma string_of_uint_digits (d : Decimal.uint) :
  Str.all Re.digit (NilEmpty.string_of_uint d) = true.
Proof. induction d; simpl; auto. Qed.

(** [String(n)] of a non-negative integer is a non-empty run of digits. *)
Lemma String_of_Z_digits (n : Z) :
  (0 <= n)%Z ->
  Str.all Re.digit (String_of_Z n) = true /\ String_of_Z n <> EmptyString.
Proof.
  intros Hn. unfold String_of_Z. destruct n as [|p|p]; [split; [reflexivity | discriminate]| |lia].
  simpl. unfold NilZero.string_of_uint.
  destruct (Pos.to_uint p) as [|d|d|d|d|d|d|d|d|d|d] eqn:E;
    (split; [try reflexivity; apply string_of_uint_digits | discriminate]).
Qed.



(** The product [Math.random() * 50] is taken exactly above.  In binary64 it
    is rounded, but it stays below 50 even for the largest draw below 1, so
    the rounding never lifts an operand to 51. *)
Remark largest_draw_below_50 :
  PrimFloat.ltb (PrimFloat.next_down 1 * 50)%float 50%float = true.
Proof. vm_compute. reflexivity. Qed.

(** ** The statistics aggregator *)

Module StatFacts.
Import StatSpec.

(** The loop of [computeStatistics] counts each of the four statuses and
    collects the latencies in order. *)
Lemma tally_fold (items : list CheckResult) (t : Tally) :
  List.fold_left tally_item items t =
  {| t_operational := t_operational t + count operational items;
     t_degraded := t_degraded t + count degraded items;
     t_failed := t_failed t + count failed items;
     t_validationFailed := t_validationFailed t + count validation_failed items;
     t_latencies := t_latencies t ++ latencies items |}.
Proof.
  revert t; induction items as [|item items IH]; intros t.
  - destruct t; unfold count, latencies; simpl.
    rewrite app_nil_r. f_equal; lia.
  - cbn [List.fold_left]. rewrite IH. unfold tally_item, count, latencies.
    cbn [List.filter omap].
    destruct (status item), (latencyMs item) as [ms|] eqn:E; simpl;
      rewrite ?E; f_equal; try lia; now rewrite <- ?app_assoc.
Qed.

Lemma count_le (s : HealthStatus) (items : list CheckResult) :
  count s items <= length items.
Proof. unfold count. apply List.filter_length_le. Qed.

Lemma count_partition (items : list CheckResult) :
  count operational items + count degraded items + count failed items
  + count validation_failed items + count maintenance items
  + count error items = length items.
Proof.
  unfold count. induction items as [|item items IH]; [reflexivity|].
  cbn [List.filter length]. destruct (status item); simpl; lia.
Qed.


(** *** Minimum, maximum and mean of a non-empty list of integers *)








End StatFacts.



(** The mean is taken exactly above.  In binary64 the quotient is rounded
    before [Math.round] is applied; the two agree, here checked for every sum
    up to 256 over 1 to 256 items. *)
Remark mean_binary64_agrees : StatSpec.means_agree_below 256 = true.
Proof. vm_cast_no_check (eq_refl true). Qed.

(** *** The success rate *)

Lemma F64_same_eq (x y : float) : F64.same x y = true -> x = y.
Proof.
  unfold F64.same. intros H. apply Prim2SF_inj.
  destruct (Prim2SF x) as [a|a| |a m e], (Prim2SF y) as [b|b| |b n f];
    simpl in H; try discriminate; try reflexivity.
  - f_equal. exact (Bool.eqb_prop a b H).
  - f_equal. exact (Bool.eqb_prop a b H).
  - apply andb_true_iff in H as [H He]. apply andb_true_iff in H as [Hs Hm].
    f_equal; [exact (Bool.eqb_prop a b Hs) | now apply Pos.eqb_eq | now apply Z.eqb_eq].
Qed.

Lemma rates_agree_160 : StatSpec.rates_agree_below 160 = true.
Proof. vm_cast_no_check (eq_refl true). Qed.

Lemma rates_agree_below_spec (bound successes total : nat) :
  StatSpec.rates_agree_below bound = true ->
  0 < total < bound -> successes <= total ->
  F64.same (rate successes total) (StatSpec.rounded_rate successes total) = true.
Proof.
  unfold StatSpec.rates_agree_below. intros H Ht Hs.
  assert (Hin : In total (seq 1 (bound - 1))) by (apply in_seq; lia).
  pose proof (proj1 (forallb_forall _ _) H total Hin) as H1. cbv beta in H1.
  apply (proj1 (forallb_forall _ _) H1 successes).
  apply in_seq. lia.
Qed.

(** For fewer than 160 checks the binary64 evaluation of the source is the
    exact rate rounded to two decimal places. *)
Lemma rate_rounded (successes total : nat) :
  0 < total < 160 -> successes <= total ->
  rate successes total = StatSpec.rounded_rate successes total.
Proof.
  intros Ht Hs. apply F64_same_eq.
  exact (rates_agree_below_spec 160 successes total rates_agree_160 Ht Hs).
Qed.

Lemma computeStatistics_counts (items : list CheckResult) :
  items <> [] ->
  let st := computeStatistics items in
  totalChecks st = length items
  /\ operationalCount st = StatSpec.count operational items
  /\ degradedCount st = StatSpec.count degraded items
  /\ failedCount st = StatSpec.count failed items
  /\ validationFailedCount st = StatSpec.count validation_failed items
  /\ successRate st
     = rate (StatSpec.count operational items + StatSpec.count degraded items)
         (length items).
Proof.
  intros Hne. unfold computeStatistics.
  destruct items as [|item items]; [congruence|].
  cbn [length Nat.eqb]. rewrite StatFacts.tally_fold.
  cbn [Tally_zero t_operational t_degraded t_failed t_validationFailed Nat.add].
  cbv zeta.
  cbn [totalChecks operationalCount degradedCount failedCount
       validationFailedCount successRate t_operational t_degraded t_failed
       t_validationFailed]. 
  repeat split; reflexivity.
Qed.

(** C3, as the source computes it.  For a non-empty history [totalChecks] is
    its length and the four counters count their statuses, so an item with
    status [error] is counted in [totalChecks] and in no counter.  The
    success rate is [Math.round(((operational + degraded) / total) * 100 *
    100) / 100] in binary64; for fewer than 160 checks that is exactly
    [100 * (operational + degraded) / total] rounded to two decimal places,
    and 3 operational, 1 degraded and 1 failed give 80. *)
Theorem computeStatistics_successRate (items : list CheckResult) :
  items <> [] ->
  let st := computeStatistics items in
  totalChecks st = length items
  /\ operationalCount st = StatSpec.count operational items
  /\ degradedCount st = StatSpec.count degraded items
  /\ failedCount st = StatSpec.count failed items
  /\ validationFailedCount st = StatSpec.count validation_failed items
  /\ operationalCount st + degradedCount st + failedCount st
     + validationFailedCount st + StatSpec.count error items
     + StatSpec.count maintenance items = totalChecks st
  /\ successRate st
     = (F64.Math_round
          (F64.of_nat (operationalCount st + degradedCount st)
           / F64.of_nat (totalChecks st) * 100 * 100) / 100)%float
  /\ (length items < 160 -> successRate st = StatSpec.stated_successRate items)
  /\ (StatSpec.count operational items = 3 ->
      StatSpec.count degraded items = 1 ->
      length items = 5 ->
      successRate st = 80%float).
Proof.
  intros Hne st.
  destruct (computeStatistics_counts items Hne)
    as (Htotal & Hop & Hdeg & Hfail & Hval & Hrate).
  fold st in Htotal, Hop, Hdeg, Hfail, Hval, Hrate.
  pose proof (StatFacts.count_partition items) as Hpart.
  assert (Hlen : 0 < length items) by (destruct items; simpl; [congruence | lia]).
  split; [exact Htotal|]. split; [exact Hop|]. split; [exact Hdeg|].
  split; [exact Hfail|]. split; [exact Hval|].
  split; [rewrite Htotal, Hop, Hdeg, Hfail, Hval; lia|].
  split; [|split].
  - rewrite Hrate, Htotal, Hop, Hdeg. unfold rate.
    apply Nat.ltb_lt in Hlen. now rewrite Hlen.
  - intros Hsmall. rewrite Hrate. apply rate_rounded; lia.
  - intros H3 H1 H5. rewrite Hrate, H3, H1, H5. vm_compute. reflexivity.
Qed.

(** C3 on the history of 3 operational, 1 degraded and 1 failed check. *)
Lemma computeStatistics_successRate_witness :
  let items := StatSpec.history operational 3 ++ StatSpec.history degraded 1
               ++ StatSpec.history failed 1 in
  totalChecks (computeStatistics items) = 5
  /\ successRate (computeStatistics items) = 80%float.
Proof.
  intros items.
  destruct (computeStatistics_successRate items)
    as (Htotal & _ & _ & _ & _ & _ & _ & _ & H80); [discriminate|].
  split; [exact Htotal|]. apply H80; reflexivity.
Defined.

(** C3 as stated fails on a tie that binary64 does not see: with 23
    successes in 160 checks the rate is 14.375, which rounds to 14.38, but
    [(23 / 160) * 100] is 14.374999999999998 in binary64 and the source
    returns 14.37. *)
Lemma successRate_tie_counterexample :
  let items := StatSpec.history operational 23 ++ StatSpec.history failed 137 in
  successRate (computeStatistics items) = (1437 / 100)%float
  /\ StatSpec.stated_successRate items = (1438 / 100)%float
  /\ successRate (computeStatistics items) <> StatSpec.stated_successRate items.
Proof.
  intros items.
  assert (H1 : successRate (computeStatistics items) = (1437 / 100)%float)
    by (vm_compute; reflexivity).
  assert (H2 : StatSpec.stated_successRate items = (1438 / 100)%float)
    by (vm_compute; reflexivity).
  split; [exact H1|]. split; [exact H2|].
  rewrite H1, H2. intros E. apply (f_equal Prim2SF) in E.
  vm_compute in E. discriminate.
Qed.

(** ** The single-provider check runner *)

Section RetryFacts.
Context `{Host}.
Variable checkWithAiSdk : ProviderConfig -> nat -> Completion CheckResult.
Variable now : string.
Variable config : ProviderConfig.

Local Abbreviation loop := (retryLoop checkWithAiSdk now config).
Local Abbreviation run := (checkWithRetry checkWithAiSdk now config).
Local Abbreviation outcome := (checkWithAiSdk config).

Local Abbreviation errorResult := (errorResult now config).
Local Abbreviation errorContext := (errorContext config).

(** An attempt that is not retried ends the loop. *)
Lemma retryLoop_stop (attempt : nat) (rest : list nat) (w : World) :
  retryable (outcome (calls w)) && (attempt <? MAX_REQUEST_ABORT_RETRIES) = false ->
  loop (attempt :: rest) w
  = (settled now config (outcome (calls w)),
     {| calls := S (calls w);
        console := console w ++ settledLog config (outcome (calls w)) |}).
Proof.
  intros Hstop. cbn [retryLoop]. unfold retryable in Hstop.
  destruct (outcome (calls w)) as [result|thrown]; cbn [settled settledLog].
  - rewrite Hstop. now rewrite app_nil_r.
  - destruct (getErrorMessage thrown) as [m|].
    + rewrite Hstop. reflexivity.
    + now rewrite app_nil_r.
Qed.

(** An attempt that is retried adds a call and a warning. *)
Lemma retryLoop_continue (attempt : nat) (rest : list nat) (w : World) :
  retryable (outcome (calls w)) && (attempt <? MAX_REQUEST_ABORT_RETRIES) = true ->
  loop (attempt :: rest) w
  = loop rest {| calls := S (calls w);
                 console := console w ++ [retryWarning config attempt] |}.
Proof.
  intros Hgo. cbn [retryLoop]. unfold retryable in Hgo.
  destruct (outcome (calls w)) as [result|thrown]; [now rewrite Hgo|].
  destruct (getErrorMessage thrown) as [m|]; [now rewrite Hgo | discriminate].
Qed.

(** The run stops on the first outcome that is not retryable, or on the
    third. *)
Lemma checkWithRetry_stops_at (k : nat) (w : World) :
  k <= MAX_REQUEST_ABORT_RETRIES ->
  (forall i, i < k -> retryable (outcome (calls w + i)) = true) ->
  (k = MAX_REQUEST_ABORT_RETRIES \/ retryable (outcome (calls w + k)) = false) ->
  run w
  = (settled now config (outcome (calls w + k)),
     {| calls := calls w + k + 1;
        console := console w ++ List.map (retryWarning config) (seq 0 k)
                   ++ settledLog config (outcome (calls w + k)) |}).
Proof.
  intros Hk Hretry Hlast. unfold checkWithRetry.
  change (seq 0 (S MAX_REQUEST_ABORT_RETRIES)) with [0; 1; 2].
  unfold MAX_REQUEST_ABORT_RETRIES in Hk, Hlast.
  assert (Hstop : forall attempt,
             attempt = k ->
             retryable (outcome (calls w + k))
             && (attempt <? MAX_REQUEST_ABORT_RETRIES) = false).
  { intros attempt ->. destruct Hlast as [Hk2 | Hr]; [subst k | now rewrite Hr].
    apply andb_false_r. }
  destruct k as [|[|[|k]]]; [| | |lia].
  - rewrite retryLoop_stop by (rewrite <- (Nat.add_0_r (calls w)); now apply Hstop).
    rewrite !Nat.add_0_r. cbn [seq List.map app].
    f_equal. f_equal. lia.
  - rewrite retryLoop_continue
      by (rewrite <- (Nat.add_0_r (calls w)), Hretry by lia; reflexivity).
    rewrite retryLoop_stop; cbn [calls console];
      replace (S (calls w)) with (calls w + 1) by lia;
      [|now apply Hstop].
    cbn [seq List.map]. f_equal. f_equal; [lia|]. now rewrite <- app_assoc.
  - rewrite retryLoop_continue
      by (rewrite <- (Nat.add_0_r (calls w)), Hretry by lia; reflexivity).
    rewrite retryLoop_continue; cbn [calls console];
      replace (S (calls w)) with (calls w + 1) by lia;
      [|rewrite Hretry by lia; reflexivity].
    rewrite retryLoop_stop; cbn [calls console];
      replace (S (calls w + 1)) with (calls w + 2) by lia;
      [|now apply Hstop].
    cbn [seq List.map]. f_equal. f_equal; [lia|]. now rewrite <- !app_assoc.
Qed.

(** Every run stops on one of its three calls. *)
Lemma checkWithRetry_stops (w : World) :
  exists k,
    k <= MAX_REQUEST_ABORT_RETRIES
    /\ (forall i, i < k -> retryable (outcome (calls w + i)) = true)
    /\ (k = MAX_REQUEST_ABORT_RETRIES
        \/ retryable (outcome (calls w + k)) = false).
Proof.
  unfold MAX_REQUEST_ABORT_RETRIES.
  destruct (retryable (outcome (calls w + 0))) eqn:R0.
  - destruct (retryable (outcome (calls w + 1))) eqn:R1.
    + exists 2. split; [lia|]. split; [|now left].
      intros i Hi. destruct i as [|[|i]]; [exact R0 | exact R1 | lia].
    + exists 1. split; [lia|]. split; [|now right].
      intros i Hi. destruct i as [|i]; [exact R0 | lia].
  - exists 0. split; [lia|]. split; [|now right]. intros i Hi. lia.
Qed.


Lemma checkWithRetry_ends (w : World) :
  exists k,
    k <= MAX_REQUEST_ABORT_RETRIES
    /\ run w
       = (settled now config (outcome (calls w + k)),
          {| calls := calls w + k + 1;
             console := console w ++ List.map (retryWarning config) (seq 0 k)
                        ++ settledLog config (outcome (calls w + k)) |}).
Proof.
  destruct (checkWithRetry_stops w) as (k & Hk & Hretry & Hlast).
  exists k. split; [exact Hk|]. now apply checkWithRetry_stops_at.
Qed.



(** When the last call of a run that returned a result raised [thrown], the
    run ended on the error path: [getErrorMessage] gave a message, the
    result is the one built from it, and the last entry of the console is
    the sanitized payload. *)
Lemma checkWithRetry_error_path (w w' : World) (r : CheckResult)
    (thrown : JsValue) :
  run w = (Returned r, w') ->
  checkWithAiSdk config (calls w' - 1) = Threw thrown ->
  exists m,
    getErrorMessage thrown = Some m
    /\ r = errorResult m
    /\ exists entries,
         console w' = entries ++ [Error errorContext (sanitizeError thrown)].
Proof.
  intros E Hlast.
  destruct (checkWithRetry_ends w) as (k & _ & Erun).
  rewrite Erun in E. injection E as Hr Hw. subst w'. cbn [calls console] in *.
  replace (calls w + k + 1 - 1) with (calls w + k) in Hlast by lia.
  rewrite Hlast in Hr |- *. cbn [settled settledLog] in *.
  destruct (getErrorMessage thrown) as [m|]; [|discriminate].
  exists m. split; [reflexivity|]. split; [congruence|].
  exists (console w ++ List.map (retryWarning config) (seq 0 k)).
  now rewrite app_assoc.
Qed.

End RetryFacts.





(** C1 as stated fails: an error whose own message is "Request was aborted."
    but which carries the response body "Bad Gateway" is not retried, since
    the message taken from the body comes first; the check is called once. *)
Lemma aborted_message_not_retried_counterexample :
  Example.interrupted_with_body
  = JError "AbortError" "Request was aborted." None None (Some "Bad Gateway") []
  /\ shouldRetryRequestAborted (Some "Request was aborted.") = true
  /\ exists r w',
       checkWithRetry (H := Example.host)
         (fun _ _ => Threw Example.interrupted_with_body) Example.clock
         (Example.provider "Alpha") Example.world = (Returned r, w')
       /\ calls w' = 1
       /\ message r = Some "Bad Gateway"%string.
Proof.
  split; [reflexivity|]. split; [vm_compute; reflexivity|].
  eexists _, _. split; [vm_compute; reflexivity|]. split; reflexivity.
Qed.

(** ** Sanitization *)

Lemma reserved_not_sensitive (key : string) :
  reserved_key key = true -> Re.test SENSITIVE_PATTERNS key = false.
Proof.
  unfold reserved_key. intros Hk.
  apply orb_true_iff in Hk as [Hk|Hk]; [apply orb_true_iff in Hk as [Hk|Hk]|];
    apply String.eqb_eq in Hk; subst key; vm_compute; reflexivity.
Qed.

Lemma sanitizeValue_long (value : string) :
  8 < String.length value ->
  sanitizeValue (JStr value)
  = JStr (Str.take 4 value ++ "***" ++ Str.take_last 4 value)%string.
Proof.
  intros Hlen. unfold sanitizeValue.
  destruct (String.length value <=? 8) eqn:E; [|reflexivity].
  apply Nat.leb_le in E. lia.
Qed.

(** In the payload handed to the console, a long string under a sensitive
    key is cut down to its first and last four code units. *)
Lemma sanitizeError_masks (thrown : JsValue) (key value : string) :
  In (key, JStr value) (Js.own_props thrown) ->
  Re.test SENSITIVE_PATTERNS key = true ->
  8 < String.length value ->
  exists props,
    sanitizeError thrown = JObj props
    /\ In (key, JStr (Str.take 4 value ++ "***" ++ Str.take_last 4 value)%string)
         props.
Proof.
  intros Hin Hkey Hlen.
  destruct thrown as [| | | | | |props|nm msg stack code body props];
    try contradiction; cbn [Js.own_props] in Hin; cbn [sanitizeError].
  - eexists. split; [reflexivity|]. apply List.in_map_iff.
    exists (key, JStr value). split; [|exact Hin].
    cbn [fst snd]. now rewrite Hkey, sanitizeValue_long.
  - eexists. split; [reflexivity|].
    apply List.in_or_app. right. apply List.in_or_app. right.
    apply List.in_or_app. right. apply List.in_or_app. right.
    apply List.in_flat_map. exists (key, JStr value). split; [exact Hin|].
    cbn [fst snd].
    destruct (reserved_key key) eqn:Er.
    + apply reserved_not_sensitive in Er. congruence.
    + left. now rewrite Hkey, sanitizeValue_long.
Qed.

(** C2, as the source has it.  On the error path the message of the result
    is [getErrorMessage] of the error raised by the last call, taken as it
    is; sanitization is applied to the payload written to the console, where
    a string longer than 8 code units under a sensitive key is replaced by
    its first 4 code units, [***] and its last 4. *)
Theorem checkWithRetry_error_message `{Host}
    (checkWithAiSdk : ProviderConfig -> nat -> Completion CheckResult)
    (now : string) (config : ProviderConfig) (w w' : World)
    (r : CheckResult) (thrown : JsValue) :
  checkWithRetry checkWithAiSdk now config w = (Returned r, w') ->
  checkWithAiSdk config (calls w' - 1) = Threw thrown ->
  status r = error
  /\ (exists m, getErrorMessage thrown = Some m /\ message r = Some m)
  /\ exists entries,
       console w' = entries ++ [Error (errorContext config) (sanitizeError thrown)]
       /\ forall key value : string,
            In (key, JStr value) (Js.own_props thrown) ->
            Re.test SENSITIVE_PATTERNS key = true ->
            8 < String.length value ->
            exists props,
              sanitizeError thrown = JObj props
              /\ In (key, JStr (Str.take 4 value ++ "***"
                                ++ Str.take_last 4 value)%string) props.
Proof.
  intros E Hlast.
  destruct (checkWithRetry_error_path checkWithAiSdk now config w w' r thrown
              E Hlast)
    as (m & Hm & -> & entries & Hlog).
  split; [reflexivity|]. split; [exists m; split; [exact Hm | reflexivity]|].
  exists entries. split; [exact Hlog|].
  intros key value. apply sanitizeError_masks.
Qed.

(** C2 on a provider check rejected for its key: the message is that of the
    error, and the console shows the key masked. *)
Lemma checkWithRetry_error_message_witness :
  let r := errorResult Example.clock (Example.provider "Alpha")
             "Incorrect API key provided: sk-proj-abcdef123456" in
  status r = error
  /\ (exists m,
        getErrorMessage (H := Example.host) Example.rejected = Some m
        /\ message r = Some m)
  /\ exists props,
       sanitizeError Example.rejected = JObj props
       /\ In ("apiKey", JStr "sk-p***3456") props.
Proof.
  intros r.
  destruct (checkWithRetry_error_message (H := Example.host)
              Example.always_rejected Example.clock (Example.provider "Alpha")
              Example.world
              {| calls := 1;
                 console := [Error (errorContext (Example.provider "Alpha"))
                               (sanitizeError Example.rejected)] |}
              r Example.rejected)
    as (Hs & Hm & entries & _ & Hmask); [reflexivity | reflexivity |].
  split; [exact Hs|]. split; [exact Hm|].
  apply (Hmask "apiKey" Example.secret).
  - simpl. auto.
  - vm_compute. reflexivity.
  - vm_compute. lia.
Defined.

(** C2 as stated fails: an error that quotes a credential in its message,
    and carries it under the key [apiKey], puts the credential whole into
    the message of the result. *)
Lemma message_leaks_credential_counterexample :
  exists r w' m,
    checkWithRetry (H := Example.host) Example.always_rejected Example.clock
      (Example.provider "Alpha") Example.world = (Returned r, w')
    /\ status r = error
    /\ In ("apiKey"%string, JStr Example.secret) (Js.own_props Example.rejected)
    /\ Re.test SENSITIVE_PATTERNS "apiKey" = true
    /\ 8 < String.length Example.secret
    /\ message r = Some m
    /\ Str.contains Example.secret m.
Proof.
  eexists _, _, _. split; [vm_compute; reflexivity|].
  split; [reflexivity|]. split; [simpl; auto|].
  split; [vm_compute; reflexivity|]. split; [vm_compute; lia|].
  split; [reflexivity|].
  exists "Incorrect API key provided: "%string, ""%string. reflexivity.
Qed.

(** ** The scheduler *)

(** *** The stable sort *)

Section SortFacts.
Context {A : Type} (compare : A -> A -> Z).

Local Abbreviation le := (fun a b : A => (compare a b <= 0)%Z).

Hypothesis compare_total : forall a b, le a b \/ le b a.
Hypothesis compare_trans : forall a b c, le a b -> le b c -> le a c.

Lemma sort_insert_perm (x : A) (l : list A) :
  Permutation (sort_insert compare x l) (x :: l).
Proof.
  induction l as [|y l IH]; simpl; [reflexivity|].
  destruct (compare x y <=? 0)%Z; [reflexivity|].
  rewrite IH. apply perm_swap.
Qed.

Lemma Array_sort_perm (l : list A) : Permutation (Array_sort compare l) l.
Proof.
  unfold Array_sort. induction l as [|x l IH]; simpl; [reflexivity|].
  rewrite sort_insert_perm. now constructor.
Qed.

Lemma sort_insert_sorted (x : A) (l : list A) :
  StronglySorted le l -> StronglySorted le (sort_insert compare x l).
Proof.
  induction 1 as [|y l Hl IH Hy]; simpl.
  - repeat constructor.
  - destruct (compare x y <=? 0)%Z eqn:E.
    + apply Z.leb_le in E. constructor; [now constructor|].
      constructor; [exact E|].
      eapply List.Forall_impl; [|exact Hy]. intros z Hz.
      now apply (compare_trans x y z).
    + apply Z.leb_gt in E. constructor; [exact IH|].
      apply (Permutation_Forall (Permutation_sym (sort_insert_perm x l))).
      constructor; [|exact Hy].
      destruct (compare_total x y) as [Hxy|Hyx]; [lia | exact Hyx].
Qed.

Lemma Array_sort_sorted (l : list A) : StronglySorted le (Array_sort compare l).
Proof.
  unfold Array_sort. induction l as [|x l IH]; simpl; [constructor|].
  now apply sort_insert_sorted.
Qed.

End SortFacts.

(** *** The pool *)

Section PoolFacts.
Variable limit : positive.
Variable task : nat -> Completion CheckResult.
Variable n : nat.

Local Abbreviation step := (Pool_step limit task).
Local Abbreviation inv := (Pool_inv limit task n).

Lemma Pool_inv_initial : inv (Pool_initial n).
Proof.
  unfold Pool_inv, Pool_initial. cbn [queue active slots rejection].
  rewrite app_nil_r. split; [apply length_replicate|].
  split; [|split; [|split; [|split]]].
  - intros i Hi. apply elem_of_seq in Hi. lia.
  - intros i Hi Hnot. exfalso. apply Hnot. apply elem_of_seq. lia.
  - simpl. lia.
  - discriminate.
  - intros _ i e Hi Hnot. exfalso. apply Hnot. apply elem_of_seq. lia.
Qed.

Lemma Pool_inv_step (p p' : Pool) : inv p -> step p p' -> inv p'.
Proof.
  intros (Hlen & Hbound & Hdone & Hlim & Hrej & Hnone) Hstep.
  destruct Hstep as [i q a v x Hfree|i q a1 a2 v x]; unfold Pool_inv in *;
    cbn [queue active slots rejection] in *.
  - split; [exact Hlen|]. split; [|split; [|split; [|split]]].
    + intros j Hj. apply Hbound. revert Hj.
      rewrite !elem_of_app, !elem_of_cons, elem_of_nil. tauto.
    + intros j Hj Hnot. apply Hdone; [exact Hj|]. revert Hnot.
      rewrite !elem_of_app, !elem_of_cons, elem_of_nil. tauto.
    + rewrite length_app. simpl. lia.
    + exact Hrej.
    + intros Hx j e Hj Hnot. apply (Hnone Hx j e Hj). revert Hnot.
      rewrite !elem_of_app, !elem_of_cons, elem_of_nil. tauto.
  - assert (Hi : i < n).
    { apply Hbound. rewrite !elem_of_app, elem_of_cons. tauto. }
    split; [now rewrite length_insert|]. split; [|split; [|split; [|split]]].
    + intros j Hj. apply Hbound. revert Hj.
      rewrite !elem_of_app, elem_of_cons. tauto.
    + intros j Hj Hnot. destruct (decide (i = j)) as [->|Hne].
      * apply list_lookup_insert_eq. rewrite Hlen. exact Hj.
      * rewrite list_lookup_insert_ne by exact Hne.
        apply Hdone; [exact Hj|]. revert Hnot.
        rewrite !elem_of_app, elem_of_cons. intuition congruence.
    + rewrite length_app in *. simpl in *. lia.
    + intros e. unfold first_rejection. destruct x as [e0|].
      * intros [= <-]. now apply Hrej.
      * destruct (task i) as [r|e0] eqn:Ei; [discriminate|].
        intros [= <-]. now exists i.
    + unfold first_rejection. destruct x as [e0|]; [discriminate|].
      destruct (task i) as [r|e0] eqn:Ei; [|discriminate].
      intros _ j e Hj Hnot. destruct (decide (i = j)) as [<-|Hne].
      * rewrite Ei. discriminate.
      * apply (Hnone eq_refl j e Hj). revert Hnot.
        rewrite !elem_of_app, elem_of_cons. intuition congruence.
Qed.

Lemma Pool_inv_reachable (p : Pool) : rtc step (Pool_initial n) p -> inv p.
Proof.
  revert p. apply rtc_ind_r; [apply Pool_inv_initial|].
  intros y z _ Hstep IH. eapply Pool_inv_step; eassumption.
Qed.

(** Whatever the order of starts and completions, when every task has
    settled each slot holds the completion of its own task. *)
Lemma Pool_done_slots (p : Pool) :
  rtc step (Pool_initial n) p -> Pool_done p ->
  slots p = (fun i => Some (task i)) <$> seq 0 n.
Proof.
  intros Hrun [Hq Ha].
  destruct (Pool_inv_reachable p Hrun) as (Hlen & _ & Hdone & _).
  rewrite Hq, Ha in Hdone. apply list_eq. intros i.
  rewrite list_lookup_fmap. destruct (decide (i < n)) as [Hi|Hi].
  - rewrite lookup_seq_lt by exact Hi. simpl.
    apply Hdone; [exact Hi|]. simpl. apply not_elem_of_nil.
  - rewrite lookup_seq_ge by lia. simpl. apply lookup_ge_None. lia.
Qed.

(** The limiter never runs more tasks than its limit. *)
Lemma Pool_limit_respected (p : Pool) :
  rtc step (Pool_initial n) p -> length (active p) <= Pos.to_nat limit.
Proof.
  intros Hrun. now destruct (Pool_inv_reachable p Hrun) as (_ & _ & _ & ? & _).
Qed.

(** A rejection is that of one of the tasks. *)
Lemma Pool_rejection_task (p : Pool) (e : JsValue) :
  rtc step (Pool_initial n) p -> rejection p = Some e ->
  exists i, i < n /\ task i = Threw e.
Proof.
  intros Hrun. destruct (Pool_inv_reachable p Hrun) as (_ & _ & _ & _ & Hrej & _).
  apply Hrej.
Qed.

(** Once every task has settled there is a rejection exactly when some
    task rejects. *)
Lemma Pool_done_resolved (p : Pool) :
  rtc step (Pool_initial n) p -> Pool_done p -> rejection p = None ->
  forall i e, i < n -> task i <> Threw e.
Proof.
  intros Hrun [Hq Ha] Hnone i e Hi.
  destruct (Pool_inv_reachable p Hrun) as (_ & _ & _ & _ & _ & H6).
  apply (H6 Hnone i e Hi). rewrite Hq, Ha. simpl. apply not_elem_of_nil.
Qed.

Lemma Pool_drains (q : list nat) (v : list (option (Completion CheckResult)))
    (x : option JsValue) :
  exists v' x',
    rtc step {| queue := q; active := []; slots := v; rejection := x |}
             {| queue := []; active := []; slots := v'; rejection := x' |}.
Proof.
  revert v x; induction q as [|i q IH]; intros v x.
  - exists v, x. apply rtc_refl.
  - destruct (IH (<[i := Some (task i)]> v) (first_rejection x (task i)))
      as (v' & x' & Hrun).
    exists v', x'.
    eapply rtc_l; [apply Pool_start; simpl; lia|].
    eapply rtc_l; [apply (Pool_settle limit task i q [] [] v x)|].
    exact Hrun.
Qed.

(** Some schedule settles every task. *)
Lemma Pool_completes :
  exists p, rtc step (Pool_initial n) p /\ Pool_done p.
Proof.
  destruct (Pool_drains (seq 0 n) (replicate n None) None) as (v' & x' & Hrun).
  eexists. split; [exact Hrun|]. split; reflexivity.
Qed.

End PoolFacts.

(** *** [runProviderChecks] *)

Section RunFacts.
Context `{Host}.
Variable checkWithAiSdk : ProviderConfig -> nat -> Completion CheckResult.
Variable now : string.
Variable limit : positive.

Local Abbreviation one := (checkOne checkWithAiSdk now).

(** Awaiting checks that all resolve yields their results, in the order of
    the configurations; and that is the only way to get results. *)
Lemma Promise_all_resolved (outcomes : list (Completion CheckResult))
    (results : list CheckResult) :
  Promise_all (List.map Some outcomes) = Some (Returned results)
  <-> List.map Returned results = outcomes.
Proof.
  revert results; induction outcomes as [|[r|e] outcomes IH]; intros results;
    cbn [List.map Promise_all].
  - split; [intros [= <-]; reflexivity|].
    destruct results; [reflexivity | discriminate].
  - destruct (Promise_all (List.map Some outcomes)) as [[rs|e]|] eqn:E.
    + split.
      * intros [= <-]. cbn [List.map]. f_equal. now apply IH.
      * destruct results as [|r0 results]; [discriminate|].
        cbn [List.map]. intros [= -> Hrest].
        apply IH in Hrest. now injection Hrest as ->.
    + split; [discriminate|].
      destruct results as [|r0 results]; [discriminate|].
      cbn [List.map]. intros [= -> Hrest]. apply IH in Hrest. discriminate.
    + split; [discriminate|].
      destruct results as [|r0 results]; [discriminate|].
      cbn [List.map]. intros [= -> Hrest]. apply IH in Hrest. discriminate.
  - split; [discriminate|].
    destruct results; cbn [List.map]; discriminate.
Qed.

(** The completions of checks that all resolve are the images of their
    results. *)
Lemma all_resolved_results (configs : list ProviderConfig) :
  (forall c, In c configs -> exists r, one c = Returned r) ->
  exists results, List.map Returned results = List.map one configs.
Proof.
  induction configs as [|c configs IH]; intros Hall.
  - now exists [].
  - destruct (Hall c) as [r Hr]; [now left|].
    destruct IH as [results Hmap]; [intros c' Hc'; apply Hall; now right|].
    exists (r :: results). cbn [List.map]. now rewrite Hr, Hmap.
Qed.

Lemma tasks_of_configs (configs : list ProviderConfig) :
  (fun i => Some (task_of checkWithAiSdk now configs i)) <$> seq 0 (length configs)
  = List.map Some (List.map one configs).
Proof.
  apply list_eq. intros i. unfold task_of.
  change (List.map ?f ?l) with (f <$> l).
  rewrite !list_lookup_fmap.
  destruct (configs !! i) as [c|] eqn:E; simpl.
  - rewrite lookup_seq_lt by (eapply lookup_lt_Some; eassumption).
    simpl. now rewrite E.
  - rewrite lookup_seq_ge by (now apply lookup_ge_None). reflexivity.
Qed.

Lemma task_of_In (configs : list ProviderConfig) (i : nat) :
  i < length configs ->
  exists c, In c configs /\ task_of checkWithAiSdk now configs i = one c.
Proof.
  intros Hi. unfold task_of.
  destruct (configs !! i) as [c|] eqn:E.
  - exists c. split; [|reflexivity].
    apply list_elem_of_In. eapply list_elem_of_lookup_2. exact E.
  - apply lookup_ge_None in E. lia.
Qed.

Lemma In_task_of (configs : list ProviderConfig) (c : ProviderConfig) :
  In c configs ->
  exists i, i < length configs /\ task_of checkWithAiSdk now configs i = one c.
Proof.
  intros Hc. apply list_elem_of_In, list_elem_of_lookup_1 in Hc as [i Hi].
  exists i. split; [eapply lookup_lt_Some; exact Hi|].
  unfold task_of. now rewrite Hi.
Qed.

Lemma runProviderChecks_unfold (configs : list ProviderConfig) :
  runProviderChecks checkWithAiSdk now configs
  = match Promise_all (List.map Some (List.map one configs)) with
    | Some (Returned results) => Returned (Array_sort byName results)
    | Some (Threw e) => Threw e
    | None => Threw JUndefined
    end.
Proof.
  unfold runProviderChecks. rewrite List.map_map.
  destruct configs; reflexivity.
Qed.


(** When some check rejects, every schedule rejects, with the rejection of
    one of the checks. *)
Lemma scheduled_rejects (configs : list ProviderConfig) (c : ProviderConfig)
    (e : JsValue) (out : Completion (list CheckResult)) :
  In c configs -> one c = Threw e ->
  runProviderChecks_scheduled checkWithAiSdk now limit configs out ->
  exists c' e', In c' configs /\ one c' = Threw e' /\ out = Threw e'.
Proof.
  intros Hc Ec [->|p rs Hne Hrun Hdone Hnone Hall|p e' Hne Hrun Hrej].
  - contradiction.
  - destruct (In_task_of configs c Hc) as (i & Hi & Ei).
    exfalso. apply (Pool_done_resolved _ _ _ p Hrun Hdone Hnone i e Hi).
    now rewrite Ei.
  - destruct (Pool_rejection_task _ _ _ p e' Hrun Hrej) as (i & Hi & Ei).
    destruct (task_of_In configs i Hi) as (c' & Hc' & Ec').
    exists c', e'. split; [exact Hc'|]. split; [congruence | reflexivity].
Qed.

(** Some schedule ends the call. *)
Lemma scheduled_exists (configs : list ProviderConfig) :
  exists out, runProviderChecks_scheduled checkWithAiSdk now limit configs out.
Proof.
  destruct configs as [|c configs]; [eexists; now apply scheduled_empty|].
  set (cs := c :: configs).
  destruct (Pool_completes limit (task_of checkWithAiSdk now cs) (length cs))
    as (p & Hrun & Hdone).
  destruct (rejection p) as [e|] eqn:Hrej.
  - exists (Threw e). eapply scheduled_rejected; [discriminate | exact Hrun | exact Hrej].
  - assert (Hall : forall c', In c' cs -> exists r, one c' = Returned r).
    { intros c' Hc'. destruct (In_task_of cs c' Hc') as (i & Hi & Ei).
      destruct (one c') as [r|e] eqn:E; [eauto|].
      exfalso. apply (Pool_done_resolved _ _ _ p Hrun Hdone Hrej i e Hi).
      exact Ei. }
    destruct (all_resolved_results cs Hall) as [results Hmap].
    eexists. eapply scheduled_batch;
      [discriminate | exact Hrun | exact Hdone | exact Hrej |].
    rewrite (Pool_done_slots _ _ _ p Hrun Hdone), tasks_of_configs.
    apply Promise_all_resolved. exact Hmap.
Qed.

End RunFacts.

(** *** The comparison of the examples is consistent *)



(** C4.  [runProviderChecks] does not resolve for every list of
    configurations.  When the check of one configuration rejects, as
    [checkWithRetry] does when [getErrorMessage] raises its TypeError, the
    call rejects under every schedule, with the rejection of one of the
    checks: no array is returned and the results of the other checks are
    lost. *)
Theorem runProviderChecks_rejects `{Host}
    (checkWithAiSdk : ProviderConfig -> nat -> Completion CheckResult)
    (now : string) (getCheckConcurrency : positive)
    (configs : list ProviderConfig) (config : ProviderConfig) (e : JsValue) :
  In config configs ->
  checkOne checkWithAiSdk now config = Threw e ->
  (exists out,
      runProviderChecks_scheduled checkWithAiSdk now getCheckConcurrency
        configs out)
  /\ (forall out,
        runProviderChecks_scheduled checkWithAiSdk now getCheckConcurrency
          configs out ->
        exists c' e',
          In c' configs /\ checkOne checkWithAiSdk now c' = Threw e'
          /\ out = Threw e')
  /\ (forall results,
        runProviderChecks checkWithAiSdk now configs <> Returned results).
Proof.
  intros Hin Hcheck. split; [apply scheduled_exists|]. split.
  - intros out. now apply (scheduled_rejects _ _ _ configs config e).
  - intros results Hrun. rewrite runProviderChecks_unfold in Hrun.
    destruct (Promise_all (List.map Some
                             (List.map (checkOne checkWithAiSdk now) configs)))
      as [[rs|e0]|] eqn:Hall; try discriminate.
    apply Promise_all_resolved in Hall.
    assert (Hc : In (checkOne checkWithAiSdk now config)
                   (List.map (checkOne checkWithAiSdk now) configs))
      by (now apply List.in_map).
    rewrite <- Hall, Hcheck in Hc. apply List.in_map_iff in Hc as (r & Hr & _).
    discriminate.
Qed.

(** C4 on the providers Alpha, whose check succeeds, and Beta, whose check
    fails with a response body that holds an object as its message: the call
    rejects with the TypeError and the result of Alpha is lost. *)
Lemma runProviderChecks_rejects_witness :
  let check := fun (config : ProviderConfig) (n : nat) =>
    if String.eqb (cfg_name config) "Beta" then Example.always_poisoned config n
    else Example.healthy config n in
  let configs := [Example.provider "Alpha"; Example.provider "Beta"] in
  runProviderChecks (H := Example.json_host) check Example.clock configs
  = Threw TypeError
  /\ forall out,
       runProviderChecks_scheduled (H := Example.json_host) check Example.clock
         2%positive configs out ->
       out = Threw TypeError.
Proof.
  intros check configs.
  destruct (runProviderChecks_rejects (H := Example.json_host) check
              Example.clock 2%positive configs (Example.provider "Beta")
              TypeError)
    as (_ & Hsched & _); [simpl; auto | vm_compute; reflexivity |].
  split; [vm_compute; reflexivity|].
  intros out Hout. destruct (Hsched out Hout) as (c' & e' & Hc' & Ec' & ->).
  destruct Hc' as [<-|[<-|[]]]; vm_compute in Ec';
    [discriminate | injection Ec' as <-; reflexivity].
Defined.

(** * Further properties *)

(** ** The matcher against the texts a pattern matches *)

Module MatchFacts.
Import Str StrFacts.
Local Open Scope string_scope.

Section Exec.
Context {A : Type}.
Implicit Types (k : string -> option A) (s m rest : string).

Lemma star_loop_sound r k fuel s x :
  (forall s0 k0 x0, Re.exec r s0 k0 = Some x0 ->
     exists m rest, s0 = m ++ rest /\ Matches r m /\ k0 rest = Some x0) ->
  Re.star_loop (Re.exec r) k fuel s = Some x ->
  exists m rest, s = m ++ rest /\ Matches (Star r) m /\ k rest = Some x.
Proof.
  intros Hr. revert s; induction fuel as [|fuel IH]; intros s; simpl.
  - intros Hk. exists "", s. split; [reflexivity|]. split; [constructor | exact Hk].
  - destruct (Re.exec r s _) as [y|] eqn:E.
    + intros [= ->].
      apply Hr in E as (m1 & rest1 & -> & Hm1 & Hcont).
      destruct (String.length rest1 <? String.length (m1 ++ rest1))%nat eqn:Hlt;
        [|discriminate].
      apply Nat.ltb_lt in Hlt. rewrite length_app in Hlt.
      apply IH in Hcont as (m2 & rest & -> & Hm2 & Hk).
      exists (m1 ++ m2), rest. split; [now rewrite app_assoc|].
      split; [|exact Hk]. constructor; [|assumption|assumption].
      intros ->. simpl in Hlt. lia.
    + intros Hk. exists "", s. split; [reflexivity|].
      split; [constructor | exact Hk].
Qed.

(** What the matcher finds is a match: the input splits into a text the
    pattern matches and the rest, on which the continuation gave the
    result. *)
Lemma exec_sound r s k x :
  Re.exec r s k = Some x ->
  exists m rest, s = m ++ rest /\ Matches r m /\ k rest = Some x.
Proof.
  revert s k x; induction r as [|p|r1 IH1 r2 IH2|r1 IH1 r2 IH2|r IH|r IH];
    intros s k x; simpl.
  - intros Hk. exists "", s. split; [reflexivity|]. split; [constructor | exact Hk].
  - destruct s as [|c s]; [discriminate|].
    destruct (p c) eqn:Hp; [|discriminate]. intros Hk.
    exists (String c ""), s. split; [reflexivity|].
    split; [now constructor | exact Hk].
  - intros E. apply IH1 in E as (m1 & rest1 & -> & Hm1 & E).
    apply IH2 in E as (m2 & rest & -> & Hm2 & Hk).
    exists (m1 ++ m2), rest. split; [now rewrite app_assoc|].
    split; [now constructor | exact Hk].
  - destruct (Re.exec r1 s k) as [y|] eqn:E.
    + intros [= ->]. apply IH1 in E as (m & rest & -> & Hm & Hk).
      exists m, rest. split; [reflexivity|]. split; [now apply Matches_Alt_l | exact Hk].
    + intros E2. apply IH2 in E2 as (m & rest & -> & Hm & Hk).
      exists m, rest. split; [reflexivity|]. split; [now apply Matches_Alt_r | exact Hk].
  - destruct (Re.exec r s k) as [y|] eqn:E.
    + intros [= ->]. apply IH in E as (m & rest & -> & Hm & Hk).
      exists m, rest. split; [reflexivity|]. split; [now apply Matches_Opt_some | exact Hk].
    + intros Hk. exists "", s. split; [reflexivity|].
      split; [constructor | exact Hk].
  - apply star_loop_sound. intros s0 k0 x0. apply IH.
Qed.

(** The fuel of the iteration is never missed: any two amounts that cover
    the input give the same result. *)
Lemma star_loop_fuel r k s :
  forall fuel fuel',
    String.length s <= fuel -> String.length s <= fuel' ->
    Re.star_loop (Re.exec r) k fuel s = Re.star_loop (Re.exec r) k fuel' s.
Proof.
  remember (String.length s) as n eqn:Hn. revert s Hn.
  induction n as [n IH] using lt_wf_ind. intros s Hn fuel fuel' Hf Hf'.
  destruct fuel as [|fuel], fuel' as [|fuel']; simpl.
  - reflexivity.
  - assert (s = "") as -> by (destruct s; simpl in *; [reflexivity | lia]).
    simpl. destruct (Re.exec r "" _) as [y|] eqn:E; [|reflexivity].
    apply exec_sound in E as (m & rest & E1 & _ & E2).
    destruct m, rest; simpl in *; discriminate.
  - assert (s = "") as -> by (destruct s; simpl in *; [reflexivity | lia]).
    simpl. destruct (Re.exec r "" _) as [y|] eqn:E; [|reflexivity].
    apply exec_sound in E as (m & rest & E1 & _ & E2).
    destruct m, rest; simpl in *; discriminate.
  - rewrite (NumberFacts.exec_ext r s _ (fun s1 =>
       if (String.length s1 <? String.length s)%nat
       then Re.star_loop (Re.exec r) k fuel' s1 else None)); [reflexivity|].
    intros s1. destruct (String.length s1 <? String.length s)%nat eqn:Hlt;
      [|reflexivity].
    apply Nat.ltb_lt in Hlt.
    apply (IH (String.length s1)); [lia | reflexivity | lia | lia].
Qed.

(** Whenever the input starts with a text the pattern matches and the
    continuation accepts what follows, the matcher succeeds. *)
Lemma exec_complete r m :
  Matches r m ->
  forall k rest, is_Some (k rest) -> is_Some (Re.exec r (m ++ rest) k).
Proof.
  induction 1 as [|p c Hp|r1 r2 m1 m2 _ IH1 _ IH2|r1 r2 m _ IH|r1 r2 m _ IH
                  |r|r m _ IH|r|r m1 m2 Hne _ IH1 _ IH2];
    intros k rest Hk; simpl.
  - exact Hk.
  - now rewrite Hp.
  - rewrite app_assoc. apply IH1. now apply IH2.
  - destruct (IH k rest Hk) as [y ->]. eauto.
  - destruct (Re.exec r1 (m ++ rest) k); [eauto | now apply IH].
  - destruct (Re.exec r rest k); [eauto | exact Hk].
  - destruct (IH k rest Hk) as [y ->]. eauto.
  - destruct (String.length rest) as [|n] eqn:E; simpl; [exact Hk|].
    destruct (Re.exec r rest _); [eauto | exact Hk].
  - specialize (IH2 k rest Hk). simpl in IH2.
    assert (Hlen : String.length (m2 ++ rest) < String.length ((m1 ++ m2) ++ rest)).
    { rewrite !length_app. destruct m1; [congruence | simpl; lia]. }
    destruct (String.length ((m1 ++ m2) ++ rest)) as [|n] eqn:E; [lia|]. simpl.
    rewrite app_assoc.
    assert (Hcont : is_Some
              ((fun s1 =>
                  if (String.length s1 <? String.length (m1 ++ m2 ++ rest))%nat
                  then Re.star_loop (Re.exec r) k n s1 else None) (m2 ++ rest))).
    { cbv beta. rewrite <- app_assoc, E.
      replace (String.length (m2 ++ rest) <? S n)%nat with true
        by (symmetry; apply Nat.ltb_lt; lia).
      rewrite (star_loop_fuel r k (m2 ++ rest) n (String.length (m2 ++ rest)))
        by lia.
      exact IH2. }
    destruct (IH1 _ (m2 ++ rest) Hcont) as [y ->]. eauto.
Qed.

End Exec.

(** [test] is true exactly when some substring is matched. *)
Lemma test_Matches (r : regex) (s : string) :
  Re.test r s = true <->
  exists pre m post : string, s = pre ++ m ++ post /\ Matches r m.
Proof.
  rewrite ReFacts.test_iff. split.
  - intros (pre & rest & -> & [g Hg]).
    apply exec_sound in Hg as (m & post & -> & Hm & _). eauto.
  - intros (pre & m & post & -> & Hm). exists pre, (m ++ post).
    split; [reflexivity|]. unfold Re.match_here.
    apply exec_complete; [exact Hm | eauto].
Qed.

(** *** What the building blocks match *)

Lemma Matches_word_i (w m : string) :
  Matches (Re.word_i w) m <-> lower m = lower w.
Proof.
  revert m; induction w as [|c w IH]; intros m; simpl.
  - split.
    + intros Hm. now inversion Hm.
    + intros E. apply lower_empty in E. subst. constructor.
  - split.
    + intros Hm. inversion Hm as [| |r1 r2 m1 m2 H1 H2| | | | | |]; subst.
      inversion H1 as [|p a Ha| | | | | | |]; subst.
      apply Ascii.eqb_eq in Ha. apply IH in H2. simpl. now rewrite Ha, H2.
    + intros E. destruct m as [|a m]; [discriminate|]. simpl in E.
      injection E as Ea Em.
      change (String a m) with (String a "" ++ m). constructor.
      * constructor. now apply Ascii.eqb_eq.
      * now apply IH.
Qed.

Lemma Matches_word (w m : string) : Matches (Re.word w) m <-> m = w.
Proof.
  revert m; induction w as [|c w IH]; intros m; simpl.
  - split; [intros Hm; now inversion Hm | intros ->; constructor].
  - split.
    + intros Hm. inversion Hm as [| |r1 r2 m1 m2 H1 H2| | | | | |]; subst.
      inversion H1 as [|p a Ha| | | | | | |]; subst.
      apply Ascii.eqb_eq in Ha. apply IH in H2. now subst.
    + intros ->. change (String c w) with (String c "" ++ w). constructor.
      * constructor. apply Ascii.eqb_refl.
      * now apply IH.
Qed.

Lemma Matches_Star_Chr (p : ascii -> bool) (m : string) :
  Matches (Star (Chr p)) m <-> all p m = true.
Proof.
  split.
  - remember (Star (Chr p)) as r eqn:Er. intros Hm.
    induction Hm as [| | | | | | | |r m1 m2 Hne H1 _ _ IH]; try discriminate.
    + reflexivity.
    + injection Er as ->. inversion H1 as [|q c Hc| | | | | | |]; subst.
      simpl. now rewrite Hc, IH.
  - induction m as [|c m IH]; simpl; [constructor|].
    intros H. apply andb_true_iff in H as [Hc Hm].
    change (String c m) with (String c "" ++ m).
    constructor; [discriminate | now constructor | now apply IH].
Qed.

End MatchFacts.

(** ** Which keys are sensitive *)

Module SensitiveFacts.
Import Str StrFacts MatchFacts.
Local Open Scope string_scope.

Lemma lower_lower (s : string) : lower (lower s) = lower s.
Proof.
  induction s as [|c s IH]; simpl; [reflexivity|]. rewrite IH. f_equal.
  destruct c as [[] [] [] [] [] [] [] []]; reflexivity.
Qed.

Lemma lower_take (n : nat) (s : string) : lower (take n s) = take n (lower s).
Proof.
  revert s; induction n as [|n IH]; intros [|c s]; simpl; try reflexivity.
  now rewrite IH.
Qed.

Lemma lower_drop (n : nat) (s : string) : lower (drop n s) = drop n (lower s).
Proof.
  revert s; induction n as [|n IH]; intros [|c s]; simpl; try reflexivity.
  apply IH.
Qed.

Lemma drop_drop (a b : nat) (s : string) : drop a (drop b s) = drop (b + a) s.
Proof.
  revert s; induction b as [|b IH]; intros s; [reflexivity|].
  destruct s as [|c s]; simpl; [now destruct a | apply IH].
Qed.

Lemma fold_case_separator (c : ascii) :
  fold_case c = "_"%char \/ fold_case c = "-"%char ->
  (Ascii.eqb c "_" || Ascii.eqb c "-") = true.
Proof.
  destruct c as [[] [] [] [] [] [] [] []]; vm_compute;
    intros [E|E]; try reflexivity; discriminate.
Qed.

Lemma separator_fold_case (c : ascii) :
  (Ascii.eqb c "_" || Ascii.eqb c "-") = true ->
  lower (String c "") = "_" \/ lower (String c "") = "-".
Proof.
  intros H. apply orb_true_iff in H as [H|H]; apply Ascii.eqb_eq in H; subst;
    [now left | now right].
Qed.

(** [api[_-]?key] matches "api", an optional separator and "key", up to
    case. *)
Lemma Matches_api_key (m : string) :
  Matches (Seq (Re.word_i "api")
             (Seq (Opt (Chr (fun c => Ascii.eqb c "_" || Ascii.eqb c "-")))
                (Re.word_i "key"))) m
  <-> lower m = "apikey" \/ lower m = "api_key" \/ lower m = "api-key".
Proof.
  split.
  - intros Hm. inversion Hm as [| |r1 r2 m1 m23 H1 H23| | | | | |]; subst.
    inversion H23 as [| |r1 r2 m2 m3 H2 H3| | | | | |]; subst.
    apply (proj1 (Matches_word_i "api" _)) in H1.
    apply (proj1 (Matches_word_i "key" _)) in H3.
    rewrite !lower_app, H1, H3.
    inversion H2 as [| | | | |r|r m H2'| |]; subst.
    + now left.
    + inversion H2' as [|p c Hc| | | | | | |]; subst.
      destruct (separator_fold_case c Hc) as [-> | ->]; auto.
  - intros H.
    assert (Hsplit : m = take 3 m ++ take (String.length m - 6) (drop 3 m)
                         ++ drop (String.length m - 3) m).
    { assert (6 <= String.length m)
        by (rewrite <- (length_lower m);
            destruct H as [H|[H|H]]; rewrite H; simpl; lia).
      rewrite <- (take_drop 3 m) at 1. f_equal.
      rewrite <- (take_drop (String.length m - 6) (drop 3 m)) at 1. f_equal.
      rewrite drop_drop. f_equal. lia. }
    rewrite Hsplit. constructor; [|constructor].
    + apply Matches_word_i. rewrite lower_take.
      destruct H as [H|[H|H]]; now rewrite H.
    + assert (Hmid : lower (take (String.length m - 6) (drop 3 m)) = ""
                     \/ lower (take (String.length m - 6) (drop 3 m)) = "_"
                     \/ lower (take (String.length m - 6) (drop 3 m)) = "-").
      { rewrite lower_take, lower_drop, <- (length_lower m).
        destruct H as [H|[H|H]]; rewrite H; simpl; auto. }
      destruct (take (String.length m - 6) (drop 3 m)) as [|c [|c' mid]].
      * apply Matches_Opt_none.
      * apply Matches_Opt_some. constructor. apply fold_case_separator.
        simpl in Hmid. destruct Hmid as [E|[E|E]]; [discriminate| |];
          injection E as E; auto.
      * simpl in Hmid. destruct Hmid as [E|[E|E]]; discriminate.
    + apply Matches_word_i. rewrite lower_drop, <- (length_lower m).
      destruct H as [H|[H|H]]; now rewrite H.
Qed.

Lemma Matches_Alt (r1 r2 : regex) (m : string) :
  Matches (Alt r1 r2) m <-> Matches r1 m \/ Matches r2 m.
Proof.
  split.
  - intros Hm. inversion Hm; subst; auto.
  - intros [H|H]; [now apply Matches_Alt_l | now apply Matches_Alt_r].
Qed.

Lemma Matches_SENSITIVE (m : string) :
  Matches SENSITIVE_PATTERNS m <-> In (lower m) SENSITIVE_WORDS.
Proof.
  unfold SENSITIVE_PATTERNS, SENSITIVE_WORDS.
  rewrite !Matches_Alt, Matches_api_key, !Matches_word_i.
  cbn [In lower]. change (fold_case ?c) with c.
  split; intros H; intuition congruence.
Qed.

End SensitiveFacts.

(** X1. [SENSITIVE_PATTERNS.test(key)] is true exactly when the key contains, up
    to case, one of: apikey, api_key, api-key, secret, token, password,
    authorization, bearer, credential.  The word may sit anywhere in the
    key. *)
Theorem sensitive_key_iff (key : string) :
  Re.test SENSITIVE_PATTERNS key = true <->
  exists w, In w SENSITIVE_WORDS /\ Str.contains_ci w key.
Proof.
  rewrite MatchFacts.test_Matches. split.
  - intros (pre & m & post & -> & Hm).
    apply SensitiveFacts.Matches_SENSITIVE in Hm.
    exists (Str.lower m). split; [exact Hm|].
    exists pre, m, post. split; [reflexivity|].
    now rewrite SensitiveFacts.lower_lower.
  - intros (w & Hw & pre & mid & post & -> & E).
    exists pre, mid, post. split; [reflexivity|].
    apply SensitiveFacts.Matches_SENSITIVE. rewrite E.
    assert (Hlow : Str.lower w = w).
    { simpl in Hw.
      repeat (destruct Hw as [<-|Hw]; [reflexivity|]). contradiction. }
    now rewrite Hlow.
Qed.

(** ** The sanitizer *)

Module SanitizeFacts.
Import Str StrFacts.

(** Induction over values, through arrays and property lists. *)
Lemma JsValue_nested_ind (P : JsValue -> Prop) :
  P JUndefined -> P JNull -> (forall b, P (JBool b)) -> (forall n, P (JNum n)) ->
  (forall s, P (JStr s)) ->
  (forall items, List.Forall P items -> P (JArr items)) ->
  (forall props, List.Forall (fun kv => P (snd kv)) props -> P (JObj props)) ->
  (forall nm msg stack code body props,
      List.Forall (fun kv => P (snd kv)) props ->
      P (JError nm msg stack code body props)) ->
  forall v, P v.
Proof.
  intros Hu Hn Hb Hnum Hs Harr Hobj Herr.
  fix IH 1. intros [| | b | n | s | items | props | nm msg stack code body props].
  - exact Hu.
  - exact Hn.
  - apply Hb.
  - apply Hnum.
  - apply Hs.
  - apply Harr. induction items as [|x items IHi]; constructor; [apply IH | exact IHi].
  - apply Hobj. induction props as [|[k x] props IHp]; constructor;
      [apply IH | exact IHp].
  - apply Herr. induction props as [|[k x] props IHp]; constructor;
      [apply IH | exact IHp].
Qed.

Lemma sanitizeError_JObj (props : list (string * JsValue)) :
  sanitizeError (JObj props) = JObj (List.map sanitizeProp props).
Proof. reflexivity. Qed.

Lemma sanitizeError_JError nm msg stack code body props :
  sanitizeError (JError nm msg stack code body props)
  = JObj ([("name"%string, JStr nm); ("message"%string, JStr msg)]
          ++ (match stack with
              | Some st => if is_empty st then [] else [("stack"%string, JStr st)]
              | None => []
              end)
          ++ opt_prop "statusCode" (option_map JNum code)
          ++ opt_prop "responseBody" (option_map JStr body)
          ++ List.flat_map
               (fun kv => if reserved_key (fst kv) then [] else [sanitizeProp kv])
               props).
Proof. reflexivity. Qed.

(** *** Masking a value *)

Lemma length_take_last (n : nat) (s : string) :
  n <= String.length s -> String.length (take_last n s) = n.
Proof. intros H. unfold take_last. rewrite length_drop. lia. Qed.

Lemma take_app_exact (a b : string) (n : nat) :
  String.length a = n -> take n (a ++ b)%string = a.
Proof. intros <-. apply take_app_length. Qed.

Lemma mask_length (s : string) :
  8 < String.length s ->
  String.length (take 4 s ++ "***" ++ take_last 4 s)%string = 11.
Proof.
  intros H. rewrite !length_app.
  assert (String.length (take 4 s) = 4) by (rewrite length_take; lia).
  assert (String.length (take_last 4 s) = 4) by (apply length_take_last; lia).
  change (String.length "***") with 3. lia.
Qed.

Lemma mask_mask (s : string) :
  8 < String.length s ->
  let masked := (take 4 s ++ "***" ++ take_last 4 s)%string in
  (take 4 masked ++ "***" ++ take_last 4 masked)%string = masked.
Proof.
  intros H masked.
  assert (H4 : String.length (take 4 s) = 4) by (rewrite length_take; lia).
  assert (Hm : String.length masked = 11) by (now apply mask_length).
  assert (E1 : take 4 masked = take 4 s) by (now apply take_app_exact).
  assert (E2 : take_last 4 masked = take_last 4 s).
  { unfold take_last at 1. rewrite Hm. subst masked.
    rewrite <- (app_assoc (take 4 s) "***" (take_last 4 s)).
    replace (11 - 4) with (String.length (take 4 s ++ "***")%string)
      by (rewrite length_app, H4; reflexivity).
    apply drop_app_length. }
  now rewrite E1, E2.
Qed.

Lemma sanitizeValue_short (s : string) :
  String.length s <= 8 -> sanitizeValue (JStr s) = JStr s.
Proof.
  intros H. unfold sanitizeValue.
  now replace (String.length s <=? 8) with true by (symmetry; now apply Nat.leb_le).
Qed.

Lemma sanitizeValue_idem (v : JsValue) :
  sanitizeValue (sanitizeValue v) = sanitizeValue v.
Proof.
  destruct v as [| | | |s| | |]; try reflexivity.
  destruct (le_gt_dec (String.length s) 8) as [Hs|Hl].
  - now rewrite !sanitizeValue_short.
  - rewrite (sanitizeValue_long s Hl).
    rewrite sanitizeValue_long by (rewrite mask_length; lia).
    f_equal. now apply mask_mask.
Qed.

(** *** Sanitizing twice *)

Lemma sanitizeProp_idem (kv : string * JsValue) :
  sanitizeError (sanitizeError (snd kv)) = sanitizeError (snd kv) ->
  sanitizeProp (sanitizeProp kv) = sanitizeProp kv.
Proof.
  intros IH. destruct kv as [k v]. unfold sanitizeProp. cbn [fst snd] in *.
  destruct (Re.test SENSITIVE_PATTERNS k); f_equal;
    [apply sanitizeValue_idem | exact IH].
Qed.

Lemma sanitizeError_idem (v : JsValue) :
  sanitizeError (sanitizeError v) = sanitizeError v.
Proof.
  induction v as [| | | | |items IH|props IH|nm msg stack code body props IH]
    using JsValue_nested_ind; try reflexivity.
  - cbn [sanitizeError]. f_equal. rewrite List.map_map.
    apply List.map_ext_Forall. exact IH.
  - rewrite !sanitizeError_JObj. f_equal. rewrite List.map_map.
    apply List.map_ext_Forall.
    eapply List.Forall_impl; [|exact IH]. intros kv. apply sanitizeProp_idem.
  - rewrite sanitizeError_JError, sanitizeError_JObj. f_equal.
    rewrite !List.map_app. f_equal. f_equal; [now destruct stack as [[|? ?]|]|].
    f_equal; [now destruct code|]. f_equal; [now destruct body|].
    induction IH as [|kv props Hkv _ IHp]; [reflexivity|]. cbn [List.flat_map].
    rewrite List.map_app, IHp. f_equal.
    destruct (reserved_key (fst kv)); [reflexivity|]. cbn [List.map].
    now rewrite sanitizeProp_idem.
Qed.

(** *** What is left alone *)

Lemma sanitizeError_unremarkable (v : JsValue) :
  unremarkable v = true -> sanitizeError v = v.
Proof.
  induction v as [| | | | |items IH|props IH|nm msg stack code body props IH]
    using JsValue_nested_ind; try reflexivity; cbn [unremarkable].
  - intros H. cbn [sanitizeError]. f_equal.
    rewrite <- (List.map_id items) at 2. apply List.map_ext_Forall.
    rewrite List.forallb_forall in H. rewrite List.Forall_forall in *.
    intros x Hx. apply IH; [exact Hx | now apply H].
  - intros H. rewrite sanitizeError_JObj. f_equal.
    rewrite <- (List.map_id props) at 2. apply List.map_ext_Forall.
    rewrite List.forallb_forall in H. rewrite List.Forall_forall in *.
    intros [k x] Hx. specialize (H _ Hx). specialize (IH _ Hx).
    cbn [fst snd] in *. apply andb_true_iff in H as [Hk Hx'].
    apply negb_true_iff in Hk. unfold sanitizeProp. cbn [fst snd].
    rewrite Hk. f_equal. now apply IH.
  - discriminate.
Qed.

End SanitizeFacts.

(** X2. [sanitizeValue] leaves every value that is not a string, and every
    string of at most 8 code units, as it is.  A longer string becomes a
    string of 11 code units that keeps the first 4 and the last 4 of the
    original.  Applying it a second time changes nothing. *)
Theorem sanitizeValue_spec :
  (forall v, (forall s, v <> JStr s) -> sanitizeValue v = v)
  /\ (forall s, String.length s <= 8 -> sanitizeValue (JStr s) = JStr s)
  /\ (forall s, 8 < String.length s ->
        exists masked,
          sanitizeValue (JStr s) = JStr masked
          /\ String.length masked = 11
          /\ Str.take 4 masked = Str.take 4 s
          /\ Str.take_last 4 masked = Str.take_last 4 s
          /\ Str.take 3 (Str.drop 4 masked) = "***"%string)
  /\ (forall v, sanitizeValue (sanitizeValue v) = sanitizeValue v).
Proof.
  split; [|split; [|split]].
  - intros v Hv. destruct v; try reflexivity. now destruct (Hv s).
  - apply SanitizeFacts.sanitizeValue_short.
  - intros s Hs. eexists. split; [now apply sanitizeValue_long|].
    assert (H4 : String.length (Str.take 4 s) = 4)
      by (rewrite StrFacts.length_take; lia).
    split; [now apply SanitizeFacts.mask_length|].
    split; [now apply SanitizeFacts.take_app_exact|]. split.
    + pose proof (SanitizeFacts.mask_mask s Hs) as Hmm. cbv zeta in Hmm.
      assert (E1 : Str.take 4 (Str.take 4 s ++ "***" ++ Str.take_last 4 s)%string
                   = Str.take 4 s) by (now apply SanitizeFacts.take_app_exact).
      rewrite E1 in Hmm.
      assert (Hinj : forall a b c : string, (a ++ b = a ++ c)%string -> b = c).
      { intros a b c. induction a as [|x a IH]; simpl; [auto|].
        intros [= E]. auto. }
      apply Hinj in Hmm. now apply (Hinj "***"%string) in Hmm.
    + rewrite <- H4 at 1. rewrite StrFacts.drop_app_length. reflexivity.
  - apply SanitizeFacts.sanitizeValue_idem.
Qed.

(** X2 on an API key. *)
Lemma sanitizeValue_spec_witness :
  exists masked,
    sanitizeValue (JStr "sk-proj-abcdef123456") = JStr masked
    /\ String.length masked = 11
    /\ Str.take 4 masked = Str.take 4 "sk-proj-abcdef123456"
    /\ Str.take_last 4 masked = Str.take_last 4 "sk-proj-abcdef123456"
    /\ Str.take 3 (Str.drop 4 masked) = "***"%string.
Proof.
  apply (proj1 (proj2 (proj2 sanitizeValue_spec)) "sk-proj-abcdef123456").
  vm_compute. lia.
Defined.

(** X3. Sanitizing what [sanitizeError] returned gives the same value again:
    a payload is not masked further when it passes through the sanitizer a
    second time. *)
Theorem sanitizeError_idempotent (error : JsValue) :
  sanitizeError (sanitizeError error) = sanitizeError error.
Proof. apply SanitizeFacts.sanitizeError_idem. Qed.

(** X4. [sanitizeError] returns a value unchanged when it holds no [Error]
    instance and none of its keys, at any depth, is sensitive: strings are
    never masked for what they say, only for the key they sit under. *)
Theorem sanitizeError_leaves_plain_data (error : JsValue) :
  unremarkable error = true -> sanitizeError error = error.
Proof. apply SanitizeFacts.sanitizeError_unremarkable. Qed.

(** X4 on a response object that holds a token under a harmless key. *)
Lemma sanitizeError_leaves_plain_data_witness :
  sanitizeError (JObj [("detail"%string, JArr [JStr "sk-proj-abcdef123456"])])
  = JObj [("detail"%string, JArr [JStr "sk-proj-abcdef123456"])].
Proof.
  apply (sanitizeError_leaves_plain_data
           (JObj [("detail"%string, JArr [JStr "sk-proj-abcdef123456"])])).
  vm_compute. reflexivity.
Defined.

(** X5. Under a sensitive key [sanitizeError] only masks a string longer than
    8 code units.  Any other value under such a key is copied as it is and is
    not sanitized inside, whatever it holds. *)
Theorem sanitizeError_sensitive_passthrough
    (props : list (string * JsValue)) (key : string) (value : JsValue) :
  In (key, value) props ->
  Re.test SENSITIVE_PATTERNS key = true ->
  (forall s, value = JStr s -> String.length s <= 8) ->
  exists props',
    sanitizeError (JObj props) = JObj props' /\ In (key, value) props'.
Proof.
  intros Hin Hkey Hshort. exists (List.map sanitizeProp props).
  split; [reflexivity|]. apply List.in_map_iff. exists (key, value).
  split; [|exact Hin]. unfold sanitizeProp. cbn [fst snd]. rewrite Hkey.
  f_equal. destruct value as [| | | |s| | |]; try reflexivity.
  apply SanitizeFacts.sanitizeValue_short. now apply Hshort.
Qed.

(** X5 on credentials kept in a nested object: the password stays whole. *)
Lemma sanitizeError_sensitive_passthrough_witness :
  exists props',
    sanitizeError
      (JObj [("credentials"%string,
              JObj [("password"%string, JStr "correct horse battery")])])
    = JObj props'
    /\ In ("credentials"%string,
           JObj [("password"%string, JStr "correct horse battery")]) props'.
Proof.
  apply (sanitizeError_sensitive_passthrough
           [("credentials"%string,
             JObj [("password"%string, JStr "correct horse battery")])]).
  - simpl. auto.
  - vm_compute. reflexivity.
  - intros s E. discriminate.
Defined.

(** ** The message of an error *)

Module MessageFacts.
Import Str StrFacts MatchFacts.
Local Open Scope string_scope.

Lemma Matches_lit (c : ascii) (m : string) :
  Matches (Re.lit c) m <-> m = String c "".
Proof.
  split.
  - intros Hm. inversion Hm as [|p a Ha| | | | | | |]; subst.
    apply Ascii.eqb_eq in Ha. now subst.
  - intros ->. constructor. apply Ascii.eqb_refl.
Qed.

Lemma Matches_SSE_PREFIX (m : string) :
  Matches SSE_PREFIX m <->
  exists ws : string, m = "data:" ++ ws /\ all Re.space ws = true.
Proof.
  unfold SSE_PREFIX. split.
  - intros Hm. inversion Hm as [| |r1 r2 m1 m2 H1 H2| | | | | |]; subst.
    apply (proj1 (Matches_word "data:" _)) in H1. subst m1.
    apply Matches_Star_Chr in H2. eauto.
  - intros (ws & -> & Hws). constructor.
    + now apply Matches_word.
    + now apply Matches_Star_Chr.
Qed.

Lemma Matches_SSE_GROUP (m : string) :
  Matches SSE_GROUP m <->
  exists inner : string, m = "{" ++ inner ++ "}" /\ all Re.dot inner = true.
Proof.
  unfold SSE_GROUP. split.
  - intros Hm. inversion Hm as [| |r1 r2 m1 m23 H1 H23| | | | | |]; subst.
    inversion H23 as [| |r1 r2 m2 m3 H2 H3| | | | | |]; subst.
    apply Matches_lit in H1. apply Matches_lit in H3. subst.
    apply Matches_Star_Chr in H2. eauto.
  - intros (inner & -> & Hin). constructor; [now apply Matches_lit|].
    constructor; [now apply Matches_Star_Chr | now apply Matches_lit].
Qed.

Lemma sse_here_Some (s g : string) :
  sse_here s = Some g ->
  exists m post : string,
    s = m ++ g ++ post /\ Matches SSE_PREFIX m /\ Matches SSE_GROUP g.
Proof.
  unfold sse_here. intros E.
  apply exec_sound in E as (m & s1 & -> & Hm & E).
  apply exec_sound in E as (g' & post & -> & Hg & E).
  injection E as <-. exists m, post.
  rewrite length_app, Nat.add_sub, take_app_length. auto.
Qed.

Lemma sse_here_complete (m g post : string) :
  Matches SSE_PREFIX m -> Matches SSE_GROUP g ->
  is_Some (sse_here (m ++ g ++ post)).
Proof.
  intros Hm Hg. unfold sse_here.
  apply (exec_complete SSE_PREFIX m Hm). apply (exec_complete SSE_GROUP g Hg).
  eauto.
Qed.

Lemma sseMatch_cons (c : ascii) (s : string) :
  sseMatch (String c s)
  = match sse_here (String c s) with
    | Some group => Some group
    | None => sseMatch s
    end.
Proof. reflexivity. Qed.

Lemma sseMatch_Some (body g : string) :
  sseMatch body = Some g ->
  exists pre m post : string,
    body = pre ++ m ++ g ++ post /\ Matches SSE_PREFIX m /\ Matches SSE_GROUP g.
Proof.
  induction body as [|c body IH].
  - discriminate.
  - rewrite sseMatch_cons. destruct (sse_here (String c body)) as [g'|] eqn:E.
    + intros [= ->]. apply sse_here_Some in E as (m & post & E & Hm & Hg).
      exists "", m, post. auto.
    + intros E'. apply IH in E' as (pre & m & post & -> & Hm & Hg).
      exists (String c pre), m, post. auto.
Qed.

Lemma sseMatch_complete (pre m g post : string) :
  Matches SSE_PREFIX m -> Matches SSE_GROUP g ->
  is_Some (sseMatch (pre ++ m ++ g ++ post)).
Proof.
  intros Hm Hg. induction pre as [|c pre IH].
  - pose proof (sse_here_complete m g post Hm Hg) as [x Hx].
    change ("" ++ m ++ g ++ post) with (m ++ g ++ post).
    destruct (m ++ g ++ post) as [|c s]; [vm_compute in Hx; discriminate|].
    rewrite sseMatch_cons, Hx. eauto.
  - change (String c pre ++ m ++ g ++ post)
      with (String c (pre ++ m ++ g ++ post)).
    rewrite sseMatch_cons.
    destruct (sse_here (String c (pre ++ m ++ g ++ post))); [eauto | exact IH].
Qed.

Section WithHost.
Context `{Host}.

Lemma parse_message_truthy (text : string) (v : JsValue) :
  parse_message text = Return v -> Js.truthy v = true.
Proof.
  unfold parse_message.
  destruct (JSON_parse text) as [data|]; [|discriminate].
  destruct (Js.get data "message") as [m|]; [|discriminate].
  destruct (Js.truthy m) eqn:Hm; [now intros [= <-]|].
  destruct (Js.get data "error") as [e|]; [|discriminate].
  destruct (Js.nullish e); [discriminate|].
  destruct (Js.get e "message") as [em|]; [|discriminate].
  destruct (Js.truthy em) eqn:Hem; [now intros [= <-] | discriminate].
Qed.

Lemma take_nonempty (n : nat) (s : string) :
  0 < n -> 0 < String.length s -> is_empty (take n s) = false.
Proof. destruct n, s; simpl; intros; try lia; reflexivity. Qed.

End WithHost.

End MessageFacts.

(** X6. When [responseBody.match(/data:\s*(\{.*\})/)] finds a group, the
    body reads: anything, then "data:", white space, then the group; the group
    opens with a brace, closes with a brace and stays on one line.  And a
    body of that shape always yields a group. *)
Theorem sseMatch_shape (body : string) :
  (forall g : string,
      sseMatch body = Some g ->
      exists pre ws inner post : string,
        body = (pre ++ "data:" ++ ws ++ g ++ post)%string
        /\ Str.all Re.space ws = true
        /\ g = ("{" ++ inner ++ "}")%string
        /\ Str.all Re.dot inner = true)
  /\ (forall pre ws inner post : string,
        body = (pre ++ "data:" ++ ws ++ ("{" ++ inner ++ "}") ++ post)%string ->
        Str.all Re.space ws = true ->
        Str.all Re.dot inner = true ->
        is_Some (sseMatch body)).
Proof.
  split.
  - intros g E.
    apply MessageFacts.sseMatch_Some in E as (pre & m & post & -> & Hm & Hg).
    apply MessageFacts.Matches_SSE_PREFIX in Hm as (ws & -> & Hws).
    apply MessageFacts.Matches_SSE_GROUP in Hg as (inner & -> & Hin).
    exists pre, ws, inner, post. rewrite !StrFacts.app_assoc. auto.
  - intros pre ws inner post -> Hws Hin.
    rewrite <- (StrFacts.app_assoc "data:" ws).
    apply MessageFacts.sseMatch_complete.
    + apply MessageFacts.Matches_SSE_PREFIX. eauto.
    + apply MessageFacts.Matches_SSE_GROUP. eauto.
Qed.

(** X6 on a server-sent event. *)
Lemma sseMatch_shape_witness :
  is_Some (sseMatch "event:error data: {x}").
Proof.
  apply (proj2 (sseMatch_shape "event:error data: {x}")
           "event:error " " " "x" ""); reflexivity.
Defined.

(** X7. Whatever [JSON.parse] does, [extractErrorFromResponseBody] never
    returns a falsy value: its result is [null] or a truthy value, so the
    test [if (extracted)] of [getErrorMessage] only tells [null] apart. *)
Theorem extractErrorFromResponseBody_truthy `{Host}
    (responseBody : string) (v : JsValue) :
  extractErrorFromResponseBody responseBody = Some v -> Js.truthy v = true.
Proof.
  unfold extractErrorFromResponseBody.
  assert (Hdirect :
            match parse_message responseBody with
            | Return v0 => Some v0
            | Fallthrough => None
            | Raise =>
                if 0 <? String.length responseBody
                then Some (JStr (Str.take 100 responseBody)) else None
            end = Some v -> Js.truthy v = true).
  { destruct (parse_message responseBody) as [y| |] eqn:Eb.
    - intros [= <-]. now apply (MessageFacts.parse_message_truthy responseBody).
    - discriminate.
    - destruct (0 <? String.length responseBody) eqn:El; [|discriminate].
      intros E.
      assert (v = JStr (Str.take 100 responseBody)) as -> by congruence.
      cbn [Js.truthy]. apply Nat.ltb_lt in El.
      rewrite MessageFacts.take_nonempty by lia. reflexivity. }
  destruct (sseMatch responseBody) as [group|]; [|exact Hdirect].
  destruct (parse_message group) as [x| |] eqn:Eg; [|exact Hdirect..].
  intros [= <-]. now apply (MessageFacts.parse_message_truthy group).
Qed.

(** X7 on a body that is not JSON. *)
Lemma extractErrorFromResponseBody_truthy_witness :
  Js.truthy (JStr "Bad Gateway") = true.
Proof.
  apply (extractErrorFromResponseBody_truthy (H := Example.host) "Bad Gateway").
  reflexivity.
Defined.

(** X8. When the response body of an error is not empty and [JSON.parse]
    rejects it, and rejects the group of a server-sent event in it if there is
    one, the message is the status prefix followed by the first 100 code
    units of the body; the message of the error itself is not used. *)
Theorem getErrorMessage_raw_body `{Host}
    (nm msg : string) (stack : option string) (code : option float)
    (body : string) (props : list (string * JsValue)) :
  body <> EmptyString ->
  JSON_parse body = None ->
  (forall g, sseMatch body = Some g -> JSON_parse g = None) ->
  getErrorMessage (JError nm msg stack code (Some body) props)
  = Some (statusPrefix code ++ Str.take 100 body)%string
  /\ String.length (Str.take 100 body) <= 100.
Proof.
  intros Hne Hbody Hgroup. split.
  - unfold getErrorMessage.
    assert (Hext : extractErrorFromResponseBody body
                   = Some (JStr (Str.take 100 body))).
    { unfold extractErrorFromResponseBody.
      assert (Hraise : parse_message body = Raise)
        by (unfold parse_message; now rewrite Hbody).
      assert (Hlen : (0 <? String.length body) = true)
        by (apply Nat.ltb_lt; destruct body; simpl; [congruence | lia]).
      destruct (sseMatch body) as [g|] eqn:Eg.
      - assert (parse_message g = Raise) as ->
          by (unfold parse_message; now rewrite (Hgroup g eq_refl)).
        now rewrite Hraise, Hlen.
      - now rewrite Hraise, Hlen. }
    destruct body as [|c body]; [congruence|].
    cbn [Str.is_empty]. rewrite Hext. reflexivity.
  - rewrite StrFacts.length_take. lia.
Qed.

(** X8 on a gateway error answered in plain text. *)
Lemma getErrorMessage_raw_body_witness :
  getErrorMessage (H := Example.host)
    (JError "APICallError" "Bad Gateway" None None
       (Some "upstream connect error") [])
  = Some (statusPrefix (H := Example.host) None
          ++ Str.take 100 "upstream connect error")%string.
Proof.
  apply (proj1 (getErrorMessage_raw_body (H := Example.host)
                  "APICallError" "Bad Gateway" None None
                  "upstream connect error" [] ltac:(discriminate) eq_refl
                  (fun g _ => eq_refl))).
Defined.

(** ** The retry policy *)



(** X10. When the provider check returns a [failed] result with an aborted
    message on all three calls, [checkWithRetry] returns the third result as
    it came, status [failed] included: it is not turned into an [error]
    result, and nothing but the two retry warnings is written. *)
Theorem checkWithRetry_exhausted_failed `{Host}
    (checkWithAiSdk : ProviderConfig -> nat -> Completion CheckResult)
    (now : string) (config : ProviderConfig) (w : World)
    (r0 r1 r2 : CheckResult) :
  checkWithAiSdk config (calls w) = Returned r0 ->
  checkWithAiSdk config (calls w + 1) = Returned r1 ->
  checkWithAiSdk config (calls w + 2) = Returned r2 ->
  status r0 = failed -> shouldRetryRequestAborted (message r0) = true ->
  status r1 = failed -> shouldRetryRequestAborted (message r1) = true ->
  checkWithRetry checkWithAiSdk now config w
  = (Returned r2,
     {| calls := calls w + 3;
        console := console w
                   ++ [retryWarning config 0; retryWarning config 1] |}).
Proof.
  intros E0 E1 E2 S0 M0 S1 M1.
  rewrite (checkWithRetry_stops_at checkWithAiSdk now config 2 w).
  - rewrite E2. cbn [settled settledLog seq List.map].
    f_equal; f_equal; first [lia | now rewrite app_nil_r].
  - reflexivity.
  - intros i Hi. destruct i as [|[|i]]; [| |lia].
    + rewrite Nat.add_0_r, E0. unfold retryable. now rewrite S0, M0.
    + rewrite E1. unfold retryable. now rewrite S1, M1.
  - now left.
Qed.

(** X10 on a provider check that always reports an aborted request. *)
Lemma checkWithRetry_exhausted_failed_witness :
  let r := {| id := "Alpha"; name := "Alpha"; type := "openai";
              endpoint := "https://api.example.com/v1"; model := "gpt-4o-mini";
              status := failed; latencyMs := None; pingLatencyMs := None;
              checkedAt := Example.clock;
              message := Some "Request was aborted" |} in
  fst (checkWithRetry (H := Example.host) (fun _ _ => Returned r) Example.clock
         (Example.provider "Alpha") Example.world) = Returned r.
Proof.
  intros r.
  rewrite (checkWithRetry_exhausted_failed (H := Example.host)
             (fun _ _ => Returned r) Example.clock (Example.provider "Alpha")
             Example.world r r r); reflexivity.
Defined.

(** X11. A thrown value that is neither an [Error] instance nor a string is
    never retried, whatever it holds: its message is the fixed text for an
    unknown error, so the first such throw ends the run with an [error]
    result after one call. *)
Theorem checkWithRetry_foreign_throw `{Host}
    (checkWithAiSdk : ProviderConfig -> nat -> Completion CheckResult)
    (now : string) (config : ProviderConfig) (w : World) (thrown : JsValue) :
  checkWithAiSdk config (calls w) = Threw thrown ->
  (forall s, thrown <> JStr s) ->
  (forall nm msg stack code body props,
      thrown <> JError nm msg stack code body props) ->
  exists r w',
    checkWithRetry checkWithAiSdk now config w = (Returned r, w')
    /\ calls w' = calls w + 1
    /\ status r = error
    /\ message r = Some UNKNOWN_ERROR.
Proof.
  intros E Hstr Herr.
  assert (Hmsg : getErrorMessage thrown = Some UNKNOWN_ERROR).
  { destruct thrown; try reflexivity; [now destruct (Hstr s)|].
    exfalso. eapply Herr. reflexivity. }
  rewrite (checkWithRetry_stops_at checkWithAiSdk now config 0 w).
  - rewrite Nat.add_0_r, E. cbn [settled]. rewrite Hmsg.
    eexists _, _. split; [reflexivity|]. cbn [calls]. split; [lia|].
    split; reflexivity.
  - unfold MAX_REQUEST_ABORT_RETRIES. lia.
  - intros i Hi. lia.
  - right. rewrite Nat.add_0_r, E. unfold retryable. rewrite Hmsg.
    vm_compute. reflexivity.
Qed.

(** X11 on a thrown object that looks like an aborted request. *)
Lemma checkWithRetry_foreign_throw_witness :
  exists r w',
    checkWithRetry (H := Example.host)
      (fun _ _ => Threw (JObj [("message"%string, JStr "Request was aborted")]))
      Example.clock (Example.provider "Alpha") Example.world = (Returned r, w')
    /\ calls w' = 0 + 1
    /\ status r = error
    /\ message r = Some UNKNOWN_ERROR.
Proof.
  apply (checkWithRetry_foreign_throw (H := Example.host)
           (fun _ _ => Threw (JObj [("message"%string, JStr "Request was aborted")]))
           Example.clock (Example.provider "Alpha") Example.world
           (JObj [("message"%string, JStr "Request was aborted")]));
    [reflexivity | discriminate | discriminate].
Defined.

(** ** The order of results with equal names *)

Section StableFacts.
Context {A : Type} (compare : A -> A -> Z) (keep : A -> bool).

(** The elements kept by [keep] never compare greater than one another. *)
Hypothesis keep_tied :
  forall x y, keep x = true -> keep y = true -> (compare x y <= 0)%Z.



End StableFacts.



(** ** The batch, when every check resolves *)

Section ResolvedFacts.
Context `{Host}.
Variable checkWithAiSdk : ProviderConfig -> nat -> Completion CheckResult.
Variable now : string.


End ResolvedFacts.



(** ** The statistics do not depend on the order of the history *)

Module OrderFacts.
Import StatSpec.









End OrderFacts.



(** ** What the validator accepts *)

Module AcceptFacts.
Import Str StrFacts Spec Scan.
Local Open Scope string_scope.

Lemma contains_cons (w s : string) (c : ascii) :
  contains w s -> contains w (String c s).
Proof. intros (pre & post & ->). now exists (String c pre), post. Qed.

Lemma contains_app_l (w s pre : string) : contains w s -> contains w (pre ++ s).
Proof.
  intros Hc. induction pre as [|c pre IH]; [exact Hc|].
  now apply contains_cons.
Qed.

(** The tokens of a text are numbers, and each occurs in the text. *)
Lemma Tokens_numbers (s : string) (toks : list string) :
  Tokens s toks ->
  List.Forall (fun t => is_number t /\ contains t s) toks.
Proof.
  induction 1 as [gap Hgap|gap tok rest toks Hgap Htok Hrest Hsign _ IH];
    constructor.
  - split; [exact Htok|]. now exists gap, rest.
  - eapply List.Forall_impl; [|exact IH]. intros t [Ht Hc].
    split; [exact Ht|]. apply contains_app_l. now apply contains_app_l.
Qed.

Lemma no_digit_starts (s : string) :
  no_digit s = true -> starts_with Re.digit s = false.
Proof.
  unfold no_digit. destruct s as [|c s]; [reflexivity|]. simpl.
  intros H. apply andb_true_iff in H as [H _]. now apply negb_true_iff in H.
Qed.

Lemma app_nonempty_r (a b : string) : b <> "" -> a ++ b <> "".
Proof. destruct a, b; simpl; congruence. Qed.

(** The numbers of a reply that holds one number between two stretches
    without digits. *)
Lemma numbers_single (pre tok post : string) :
  no_digit pre = true -> is_number tok ->
  (starts_with Re.digit tok = true -> ~ ends_with_minus pre) ->
  no_digit post = true ->
  numbers (pre ++ tok ++ post) = [tok].
Proof.
  intros Hpre Htok Hsign Hpost.
  rewrite NumberFacts.numbers_next by (auto using no_digit_starts).
  now rewrite NumberFacts.numbers_no_digit.
Qed.

End AcceptFacts.

(** X14. Every entry of [extractedNumbers] is a decimal integer, with or
    without a minus sign, that occurs in the reply as it stands; and a reply
    is valid only if the expected answer is such an integer and occurs in the
    reply.  An expected answer of another form is never validated. *)
Theorem validateResponse_extracts_numbers
    (response expectedAnswer : string) :
  (forall numbers,
      extractedNumbers (validateResponse (Some response) (Some expectedAnswer))
      = Some numbers ->
      List.Forall (fun t => Spec.is_number t /\ Str.contains t response) numbers)
  /\ (valid (validateResponse (Some response) (Some expectedAnswer)) = true ->
      Spec.is_number expectedAnswer /\ Str.contains expectedAnswer response).
Proof.
  pose proof (AcceptFacts.Tokens_numbers response _
                (NumberFacts.numbers_sound response)) as Hall.
  destruct (falsy_string (Some response) || falsy_string (Some expectedAnswer))
    eqn:Hf.
  { apply orb_true_iff in Hf.
    rewrite (validateResponse_falsy (Some response) (Some expectedAnswer) Hf).
    split; [discriminate | discriminate]. }
  apply orb_false_iff in Hf as [Hr He].
  rewrite validateResponse_nonempty
    by (intros ->; simpl in *; discriminate).
  destruct (Scan.numbers response) as [|m ms] eqn:E; cbn [valid extractedNumbers].
  { split; discriminate. }
  split.
  - intros numbers [= <-]. exact Hall.
  - intros Hv. apply includes_In in Hv.
    rewrite List.Forall_forall in Hall. now apply Hall.
Qed.

(** X14 on the reply "-3 and 8". *)
Lemma validateResponse_extracts_numbers_witness :
  Spec.is_number "-3" /\ Str.contains "-3" "-3 and 8".
Proof.
  apply (proj2 (validateResponse_extracts_numbers "-3 and 8" "-3")).
  reflexivity.
Defined.

(** X15. When the reply holds exactly one number, between two stretches of
    text without digits, it is valid exactly when that number is the expected
    answer, character for character: a sign or a leading zero makes it
    another number. *)
Theorem validateResponse_single_number
    (pre tok post expectedAnswer : string) :
  Spec.no_digit pre = true ->
  Spec.is_number tok ->
  (Str.starts_with Re.digit tok = true -> ~ Spec.ends_with_minus pre) ->
  Spec.no_digit post = true ->
  expectedAnswer <> EmptyString ->
  (valid (validateResponse (Some (pre ++ tok ++ post)%string)
            (Some expectedAnswer)) = true
   <-> tok = expectedAnswer)
  /\ extractedNumbers (validateResponse (Some (pre ++ tok ++ post)%string)
                         (Some expectedAnswer)) = Some [tok].
Proof.
  intros Hpre Htok Hsign Hpost He.
  assert (Hne : (pre ++ tok ++ post)%string <> EmptyString).
  { apply AcceptFacts.app_nonempty_r. intros E.
    pose proof (NumberFacts.is_number_nonempty tok Htok) as Hl.
    destruct tok; simpl in *; [lia | discriminate]. }
  rewrite validateResponse_nonempty by assumption.
  rewrite AcceptFacts.numbers_single by assumption.
  cbn [valid extractedNumbers]. split; [|reflexivity].
  rewrite includes_In. simpl. intuition congruence.
Qed.

(** X15 on the reply "The answer is -49." for the expected answer 49. *)
Lemma validateResponse_single_number_witness :
  (valid (validateResponse (Some "The answer is -49.") (Some "49")) = true
   <-> "-49"%string = "49"%string)
  /\ extractedNumbers (validateResponse (Some "The answer is -49.") (Some "49"))
     = Some ["-49"%string].
Proof.
  apply (validateResponse_single_number "The answer is " "-49" "." "49").
  - reflexivity.
  - apply (Spec.number_minus "49"); [discriminate | reflexivity].
  - discriminate.
  - reflexivity.
  - discriminate.
Defined.

(** X16. A reply that states the expected answer of a generated challenge
    passes validation, whatever text surrounds it, provided no digit and no
    minus sign touches the answer on the left and no digit touches it on the
    right. *)
Theorem challenge_answer_validates (r1 r2 r3 : Q) (pre post : string) :
  (0 <= r1)%Q -> (r1 < 1)%Q -> (0 <= r2)%Q -> (r2 < 1)%Q ->
  Spec.no_digit pre = true ->
  ~ Spec.ends_with_minus pre ->
  Str.starts_with Re.digit post = false ->
  let answer := expectedAnswer (generateChallenge r1 r2 r3) in
  valid (validateResponse (Some (pre ++ answer ++ post)%string) (Some answer))
  = true.
Proof.
  intros H1 H1' H2 H2' Hpre Hminus Hpost answer.
  pose proof (operand_range r1 H1 H1') as Ha.
  pose proof (operand_range r2 H2 H2') as Hb.
  assert (Hnum : Str.all Re.digit answer = true /\ answer <> EmptyString).
  { subst answer. unfold generateChallenge.
    destruct (negb (Qle_bool r3 (1 # 2))); cbn [expectedAnswer];
      apply String_of_Z_digits; lia. }
  destruct Hnum as [Hdigits Hne].
  assert (Htok : Spec.is_number answer) by (now apply Spec.number_plain).
  rewrite validateResponse_nonempty;
    [|apply AcceptFacts.app_nonempty_r; destruct answer, post; simpl; congruence
     |exact Hne].
  rewrite NumberFacts.numbers_next by auto.
  cbn [valid]. apply includes_In. now left.
Qed.

(** X16 on the challenge whose answer is 49 and the reply "The result is 49.". *)
Lemma challenge_answer_validates_witness :
  valid (validateResponse (Some "The result is 49.") (Some "49")) = true.
Proof.
  apply (challenge_answer_validates (99 # 100) (1 # 100) (1 # 3)
           "The result is " ".");
    try reflexivity; try discriminate.
  intros [s0 E]. do 15 (destruct s0 as [|? s0]; try discriminate).
Defined.

(** ** The cache keys *)

Section SortedFacts.
Context {A : Type} (le : A -> A -> Prop).
Hypothesis le_antisym : forall a b, le a b -> le b a -> a = b.

(** Two sorted lists with the same elements are one list. *)
Lemma sorted_perm_eq (l l' : list A) :
  StronglySorted le l -> StronglySorted le l' -> Permutation l l' -> l = l'.
Proof.
  intros Hl. revert l'. induction Hl as [|x l Hl IH Hx]; intros l' Hl' Hp.
  - now apply Permutation_nil in Hp.
  - destruct Hl' as [|y l' Hl' Hy].
    + apply Permutation_sym, Permutation_nil in Hp. discriminate.
    + assert (x = y) as <-.
      { assert (Hxin : In x (y :: l'))
          by (eapply Permutation_in; [exact Hp | now left]).
        assert (Hyin : In y (x :: l))
          by (eapply Permutation_in; [exact (Permutation_sym Hp) | now left]).
        destruct Hxin as [->|Hxin]; [reflexivity|].
        destruct Hyin as [->|Hyin]; [reflexivity|].
        rewrite List.Forall_forall in Hx, Hy.
        apply le_antisym; [now apply Hx | now apply Hy]. }
      f_equal. apply IH; [exact Hl'|].
      now apply Permutation_cons_inv in Hp.
Qed.

End SortedFacts.

Module KeyFacts.
Local Open Scope string_scope.

Local Abbreviation le := (fun a b : string => (compare_units a b <= 0)%Z).

Lemma le_compare (a b : string) : le a b <-> String.compare a b <> Gt.
Proof.
  unfold compare_units. destruct (String.compare a b); split; intros H;
    try lia; try congruence.
Qed.

Lemma compare_units_total (a b : string) : le a b \/ le b a.
Proof.
  rewrite !le_compare, (String.compare_antisym b a).
  destruct (String.compare a b); simpl; [left|left|right]; congruence.
Qed.

Lemma compare_units_antisym (a b : string) : le a b -> le b a -> a = b.
Proof.
  rewrite !le_compare, (String.compare_antisym b a). intros H1 H2.
  apply String.compare_eq_iff.
  destruct (String.compare a b); simpl in *; congruence.
Qed.

Lemma compare_Lt_trans (a b c : string) :
  String.compare a b = Lt -> String.compare b c = Lt -> String.compare a c = Lt.
Proof.
  intros H1 H2. apply String_as_OT.cmp_lt.
  apply String_as_OT.cmp_lt in H1, H2.
  exact (String_as_OT.lt_trans _ _ _ H1 H2).
Qed.

Lemma compare_units_trans (a b c : string) : le a b -> le b c -> le a c.
Proof.
  rewrite !le_compare. intros H1 H2.
  destruct (String.compare a b) eqn:E1; [| |congruence].
  - apply String.compare_eq_iff in E1 as ->. exact H2.
  - destruct (String.compare b c) eqn:E2; [| |congruence].
    + apply String.compare_eq_iff in E2 as <-. congruence.
    + rewrite (compare_Lt_trans a b c E1 E2). discriminate.
Qed.

(** The sorted keys do not depend on the order of the properties. *)
Lemma sortedKeys_perm (keys keys' : list string) :
  Permutation keys keys' ->
  Array_sort compare_units keys = Array_sort compare_units keys'.
Proof.
  intros Hp. apply (sorted_perm_eq le compare_units_antisym).
  - apply Array_sort_sorted;
      [exact compare_units_total | exact compare_units_trans].
  - apply Array_sort_sorted;
      [exact compare_units_total | exact compare_units_trans].
  - rewrite !Array_sort_perm. exact Hp.
Qed.

Lemma Record_get_None (obj : StringRecord) (k : string) :
  ~ In k (Object_keys obj) -> Record_get obj k = None.
Proof.
  induction obj as [|[k' v] obj IH]; [reflexivity|]. simpl. intros Hn.
  destruct (String.eqb_spec k' k) as [->|_]; [tauto|]. apply IH. tauto.
Qed.

(** Nor does the value found under a key, when no key occurs twice. *)
Lemma Record_get_perm (obj obj' : StringRecord) (k : string) :
  List.NoDup (Object_keys obj) -> Permutation obj obj' ->
  Record_get obj k = Record_get obj' k.
Proof.
  intros Hnd Hp. induction Hp as [|[k1 v1] l l' Hp IH|[k1 v1] [k2 v2] l|l l' l'' Hp1 IH1 Hp2 IH2].
  - reflexivity.
  - simpl. destruct (String.eqb k1 k); [reflexivity|].
    apply IH. now inversion Hnd.
  - simpl. destruct (String.eqb_spec k1 k) as [->|_];
      destruct (String.eqb_spec k2 k) as [->|_]; try reflexivity.
    exfalso. unfold Object_keys in Hnd. simpl in Hnd.
    inversion Hnd as [|? ? Hnot _]. apply Hnot. now left.
  - rewrite IH1 by exact Hnd. apply IH2.
    unfold Object_keys in *.
    eapply Permutation_NoDup; [|exact Hnd]. now apply Permutation_map.
Qed.

End KeyFacts.

(** X17. [stableStringify] does not depend on the order in which the
    properties of the object were defined: two objects with the same
    properties, no key twice, give the same string. *)
Theorem stableStringify_order_independent (obj obj' : StringRecord) :
  List.NoDup (Object_keys obj) ->
  Permutation obj obj' ->
  stableStringify (Some obj) = stableStringify (Some obj').
Proof.
  intros Hnd Hp. unfold stableStringify. cbv zeta.
  rewrite (KeyFacts.sortedKeys_perm (Object_keys obj) (Object_keys obj'))
    by (now apply Permutation_map).
  f_equal. apply List.map_ext. intros k. unfold keyValue.
  now rewrite (KeyFacts.Record_get_perm obj obj' k Hnd Hp).
Qed.

(** X17 on the example of the source: [{ b: "2", a: "1" }] and
    [{ a: "1", b: "2" }]. *)
Lemma stableStringify_order_independent_witness :
  stableStringify (Some [("b", "2"); ("a", "1")]%string)
  = stableStringify (Some [("a", "1"); ("b", "2")]%string).
Proof.
  apply stableStringify_order_independent.
  - repeat constructor; simpl; intuition discriminate.
  - apply perm_swap.
Defined.

(** X18. [stableStringify] does not escape its separators: an object with one
    property whose value spells out a second property gives the string of the
    object that has both, so two different objects can share a cache key. *)
Theorem stableStringify_collision (k v k' v' : string) :
  String.compare k k' = Lt ->
  stableStringify (Some [(k, v ++ "&" ++ k' ++ "=" ++ v')]%string)
  = stableStringify (Some [(k, v); (k', v')])
  /\ [(k, (v ++ "&" ++ k' ++ "=" ++ v')%string)] <> [(k, v); (k', v')].
Proof.
  intros Hlt. split; [|discriminate].
  assert (Hne : String.eqb k k' = false).
  { apply String.eqb_neq. intros ->.
    pose proof (String.compare_antisym k' k') as Ha. rewrite Hlt in Ha.
    discriminate. }
  unfold stableStringify, Array_sort, Object_keys, keyValue.
  cbn [List.map fst List.fold_right sort_insert Record_get].
  unfold compare_units. rewrite Hlt. cbn [Z.leb Z.compare].
  cbn [List.map Js.join Record_get]. rewrite !String.eqb_refl, Hne.
  now rewrite StrFacts.app_assoc.
Qed.

(** X18 on [{ a: "1&b=2" }] and [{ a: "1", b: "2" }]. *)
Lemma stableStringify_collision_witness :
  stableStringify (Some [("a", "1&b=2")]%string)
  = stableStringify (Some [("a", "1"); ("b", "2")]%string)
  /\ [("a", "1&b=2")]%string <> [("a", "1"); ("b", "2")]%string.
Proof.
  apply (stableStringify_collision "a" "1" "b" "2"). reflexivity.
Defined.

(** ** The client caches *)

Section CacheFacts.
Context {T : Type}.

Local Abbreviation run := (List.fold_left (@CacheOp_run T)).

Lemma GlobalCacheKey_eqb_eq (a b : GlobalCacheKey) :
  GlobalCacheKey_eqb a b = true <-> a = b.
Proof. destruct a, b; simpl; split; congruence. Qed.

Lemma length_set_nth {A : Type} (n : nat) (x : A) (l : list A) :
  length (set_nth n x l) = length l.
Proof.
  revert n; induction l as [|y l IH]; intros [|n]; simpl; auto.
Qed.

Lemma nth_error_set_nth_eq {A : Type} (n : nat) (x : A) (l : list A) :
  n < length l -> List.nth_error (set_nth n x l) n = Some x.
Proof.
  revert n; induction l as [|y l IH]; intros [|n]; simpl; try lia; auto.
  intros Hn. apply IH. lia.
Qed.

Lemma nth_error_set_nth_ne {A : Type} (n m : nat) (x : A) (l : list A) :
  n <> m -> List.nth_error (set_nth n x l) m = List.nth_error l m.
Proof.
  revert n m; induction l as [|y l IH]; intros [|n] [|m] Hne; simpl;
    try reflexivity; try congruence.
  apply IH. congruence.
Qed.

Lemma Map_lookup_update (entries : list (string * T)) (key : string) (client : T) :
  Map_lookup (Map_update entries key client) key = Some client.
Proof.
  induction entries as [|[k v] entries IH]; simpl.
  - now rewrite String.eqb_refl.
  - destruct (String.eqb k key) eqn:E; simpl; rewrite E; auto.
Qed.

(** A key that holds a cache keeps it. *)
Lemma globalThis_kept (op : CacheOp T) (g : Globals T)
    (globalKey : GlobalCacheKey) (cache : nat) :
  globalThis g globalKey = Some cache ->
  globalThis (CacheOp_run g op) globalKey = Some cache.
Proof.
  intros Hg. destruct op as [key|c k v]; simpl.
  - unfold getOrCreateClientCache. destruct (globalThis g key) eqn:E;
      [exact Hg|]. simpl.
    destruct (GlobalCacheKey_eqb globalKey key) eqn:Ek; [|exact Hg].
    apply GlobalCacheKey_eqb_eq in Ek as ->. congruence.
  - unfold Map_set. now destruct (List.nth_error (heap g) c).
Qed.

Lemma globalThis_kept_run (ops : list (CacheOp T)) (g : Globals T)
    (globalKey : GlobalCacheKey) (cache : nat) :
  globalThis g globalKey = Some cache ->
  globalThis (run ops g) globalKey = Some cache.
Proof.
  revert g; induction ops as [|op ops IH]; intros g Hg; [exact Hg|].
  simpl. apply IH. now apply globalThis_kept.
Qed.

Lemma getOrCreateClientCache_holds (globalKey : GlobalCacheKey) (g : Globals T) :
  globalThis (snd (getOrCreateClientCache globalKey g)) globalKey
  = Some (fst (getOrCreateClientCache globalKey g)).
Proof.
  unfold getOrCreateClientCache.
  destruct (globalThis g globalKey) eqn:E; simpl; [exact E|].
  assert (GlobalCacheKey_eqb globalKey globalKey = true) as ->
      by (now apply GlobalCacheKey_eqb_eq).
  reflexivity.
Qed.

Lemma Globals_wf_initial : Globals_wf (@Globals_initial T).
Proof. split; simpl; intros; discriminate. Qed.

Lemma Globals_wf_ask (globalKey : GlobalCacheKey) (g : Globals T) :
  Globals_wf g -> Globals_wf (snd (getOrCreateClientCache globalKey g)).
Proof.
  intros [Hin Hinj]. unfold getOrCreateClientCache.
  destruct (globalThis g globalKey) eqn:E; simpl; [now split|].
  split; simpl.
  - intros key cache. rewrite length_app. simpl.
    destruct (GlobalCacheKey_eqb key globalKey).
    + intros [= <-]. lia.
    + intros Hk. apply Hin in Hk. lia.
  - intros key key' cache.
    destruct (GlobalCacheKey_eqb key globalKey) eqn:E1,
             (GlobalCacheKey_eqb key' globalKey) eqn:E2.
    + apply GlobalCacheKey_eqb_eq in E1, E2. congruence.
    + intros [= <-] Hk. apply Hin in Hk. lia.
    + intros Hk [= <-]. apply Hin in Hk. lia.
    + apply Hinj.
Qed.

Lemma Globals_wf_store (cache : nat) (key : string) (client : T) (g : Globals T) :
  Globals_wf g -> Globals_wf (Map_set cache key client g).
Proof.
  intros [Hin Hinj]. unfold Map_set.
  destruct (List.nth_error (heap g) cache); [|now split].
  split; simpl; [|exact Hinj].
  intros k c Hk. rewrite length_set_nth. now apply (Hin k).
Qed.

Lemma Globals_wf_run (ops : list (CacheOp T)) (g : Globals T) :
  Globals_wf g -> Globals_wf (run ops g).
Proof.
  revert g; induction ops as [|op ops IH]; intros g Hg; [exact Hg|].
  simpl. apply IH. destruct op; simpl;
    [now apply Globals_wf_ask | now apply Globals_wf_store].
Qed.

End CacheFacts.

(** X19. A cache is created at most once for each key: whatever the modules
    do after a call of [getOrCreateClientCache] (ask for caches, store
    clients), a later call with the same key returns the same [Map] object
    and changes nothing. *)
Theorem getOrCreateClientCache_once {T : Type} (globalKey : GlobalCacheKey)
    (g : Globals T) (ops : list (CacheOp T)) :
  let first := getOrCreateClientCache globalKey g in
  let later := List.fold_left CacheOp_run ops (snd first) in
  getOrCreateClientCache globalKey later = (fst first, later).
Proof.
  intros first later.
  pose proof (globalThis_kept_run ops (snd first) globalKey (fst first)
                (getOrCreateClientCache_holds globalKey g)) as Hk.
  fold later in Hk. unfold getOrCreateClientCache at 1. now rewrite Hk.
Qed.

(** X20. Starting from globals without caches, and whatever has been done
    since, the caches of two different keys are two different [Map] objects:
    a client stored in one is found there under its key, and the other cache
    is as it was. *)
Theorem client_caches_separate {T : Type} (ops : list (CacheOp T))
    (globalKey globalKey' : GlobalCacheKey)
    (key key' : string) (client : T) :
  globalKey <> globalKey' ->
  let g := List.fold_left CacheOp_run ops Globals_initial in
  let first := getOrCreateClientCache globalKey g in
  let second := getOrCreateClientCache globalKey' (snd first) in
  let stored := Map_set (fst first) key client (snd second) in
  fst first <> fst second
  /\ Map_get (fst first) key stored = Some client
  /\ Map_get (fst second) key' stored = Map_get (fst second) key' (snd second).
Proof.
  intros Hne g first second stored.
  assert (Hwf : Globals_wf (snd second)).
  { apply Globals_wf_ask, Globals_wf_ask, Globals_wf_run, Globals_wf_initial. }
  assert (H1 : globalThis (snd second) globalKey = Some (fst first)).
  { apply (globalThis_kept (Ask globalKey') (snd first)).
    apply getOrCreateClientCache_holds. }
  assert (H2 : globalThis (snd second) globalKey' = Some (fst second))
    by apply getOrCreateClientCache_holds.
  destruct Hwf as [Hin Hinj].
  assert (Hdiff : fst first <> fst second).
  { intros E. rewrite E in H1. apply Hne. exact (Hinj _ _ _ H1 H2). }
  split; [exact Hdiff|].
  pose proof (Hin _ _ H1) as Hlt.
  destruct (List.nth_error (heap (snd second)) (fst first)) as [entries|] eqn:E;
    [|apply List.nth_error_None in E; lia].
  subst stored. unfold Map_get, Map_set. rewrite E. cbn [heap]. split.
  - rewrite nth_error_set_nth_eq by exact Hlt. apply Map_lookup_update.
  - now rewrite nth_error_set_nth_ne by exact Hdiff.
Qed.

(** X20 on the caches of the OpenAI and the Gemini clients, after one client
    has been stored. *)
Lemma client_caches_separate_witness :
  let g := List.fold_left CacheOp_run
             [Ask CHECK_CX_OPENAI_CLIENTS; Store 0 "u::k" 7] Globals_initial in
  let first := getOrCreateClientCache CHECK_CX_OPENAI_CLIENTS g in
  let second := getOrCreateClientCache CHECK_CX_GEMINI_CLIENTS (snd first) in
  let stored := Map_set (fst first) "u::k2" 8 (snd second) in
  fst first <> fst second
  /\ Map_get (fst first) "u::k2" stored = Some 8
  /\ Map_get (fst second) "v" stored = Map_get (fst second) "v" (snd second).
Proof.
  apply (client_caches_separate
           [Ask CHECK_CX_OPENAI_CLIENTS; Store 0 "u::k" 7]
           CHECK_CX_OPENAI_CLIENTS CHECK_CX_GEMINI_CLIENTS "u::k2" "v" 8).
  discriminate.
Defined.

(** ** The status report *)

Section ReportFacts.
Variable getTime : string -> Z.
Variable allConfigs : list StoredConfig.
Variable history : string -> option (list CheckResult).

Local Abbreviation newer :=
  (fun a b : CheckResult => (byCheckedAt getTime a b <= 0)%Z).

Lemma byCheckedAt_total (a b : CheckResult) : newer a b \/ newer b a.
Proof. unfold byCheckedAt. lia. Qed.

Lemma byCheckedAt_trans (a b c : CheckResult) : newer a b -> newer b c -> newer a c.
Proof. unfold byCheckedAt. lia. Qed.

Lemma sortedItems_sorted (items : list CheckResult) :
  StronglySorted newer (Array_sort (byCheckedAt getTime) items).
Proof.
  apply Array_sort_sorted; [exact byCheckedAt_total | exact byCheckedAt_trans].
Qed.

Lemma StronglySorted_map {A B : Type} (R : A -> A -> Prop) (R' : B -> B -> Prop)
    (f : A -> B) (l : list A) :
  (forall a b, R a b -> R' (f a) (f b)) ->
  StronglySorted R l -> StronglySorted R' (List.map f l).
Proof.
  intros Hf. induction 1 as [|x l Hl IH Hx]; simpl; constructor; [exact IH|].
  apply List.Forall_map. eapply List.Forall_impl; [|exact Hx].
  intros b. apply Hf.
Qed.

(** The head of the sorted history: the first of the most recent checks. *)
Lemma sortedItems_head (items : list CheckResult) :
  match List.head (Array_sort (byCheckedAt getTime) items) with
  | None => items = []
  | Some item =>
      exists before after,
        items = before ++ item :: after
        /\ List.Forall
             (fun other => (getTime (checkedAt other) < getTime (checkedAt item))%Z)
             before
        /\ List.Forall
             (fun other => (getTime (checkedAt other) <= getTime (checkedAt item))%Z)
             after
  end.
Proof.
  unfold Array_sort. induction items as [|x l IH]; [reflexivity|].
  cbn [List.fold_right].
  destruct (List.fold_right (sort_insert (byCheckedAt getTime)) [] l)
    as [|y sorted] eqn:E; cbn [List.head] in IH.
  - subst l. cbn [sort_insert List.head]. exists [], []. repeat split; constructor.
  - destruct IH as (before & after & -> & Hb & Ha).
    cbn [sort_insert]. destruct (byCheckedAt getTime x y <=? 0)%Z eqn:Ec;
      cbn [List.head].
    + apply Z.leb_le in Ec. unfold byCheckedAt in Ec.
      exists [], (before ++ y :: after). split; [reflexivity|].
      split; [constructor|]. apply List.Forall_app. split.
      * eapply List.Forall_impl; [|exact Hb]. cbv beta. intros; lia.
      * constructor; [lia|].
        eapply List.Forall_impl; [|exact Ha]. cbv beta. intros; lia.
    + apply Z.leb_gt in Ec. unfold byCheckedAt in Ec.
      exists (x :: before), after. split; [reflexivity|].
      split; [|exact Ha]. constructor; [lia | exact Hb].
Qed.


End ReportFacts.

Module SummaryFacts.

(** The counters after the loop, from where it starts. *)
Lemma count_fold (providers : list ProviderStatus) (c : Counters) :
  List.fold_left count_provider providers c =
  {| summaryOperational := summaryOperational c + latest_count operational providers;
     summaryDegraded := summaryDegraded c + latest_count degraded providers;
     summaryFailed := summaryFailed c + latest_count failed providers;
     summaryValidationFailed :=
       summaryValidationFailed c + latest_count validation_failed providers;
     summaryMaintenance := summaryMaintenance c + latest_count maintenance providers;
     allLatencies :=
       allLatencies c
       ++ omap (fun p => match latest p with
                         | Some l => entry_latencyMs l
                         | None => None
                         end) providers |}.
Proof.
  revert c; induction providers as [|p providers IH]; intros c.
  - destruct c; unfold latest_count; simpl. rewrite app_nil_r. f_equal; lia.
  - cbn [List.fold_left]. rewrite IH. unfold count_provider, latest_count.
    cbn [List.filter omap].
    destruct (latest p) as [l|] eqn:El; [|simpl; now rewrite El].
    destruct (entry_status l), (entry_latencyMs l) as [ms|] eqn:E; simpl;
      rewrite ?El, ?E; f_equal; try lia; now rewrite <- ?app_assoc.
Qed.

(** Every provider has no latest check, or one of exactly one status. *)
Lemma latest_partition (providers : list ProviderStatus) :
  length providers
  = latest_count operational providers + latest_count degraded providers
    + latest_count failed providers + latest_count validation_failed providers
    + latest_count maintenance providers + latest_count error providers
    + without_latest providers.
Proof.
  unfold latest_count, without_latest.
  induction providers as [|p providers IH]; [reflexivity|].
  cbn [List.filter length]. destruct (latest p) as [l|].
  - destruct (entry_status l); cbn [HealthStatus_eqb length]; lia.
  - cbn [length]. lia.
Qed.

End SummaryFacts.

(** X21. The counters of the summary count the providers by the status of
    their latest check, and they need not add up to [total]: a provider
    without any check, and one whose latest check has the status [error], is
    counted in [total] and under no counter. *)
Theorem summary_accounts (providers : list ProviderStatus) :
  let s := summary providers in
  total s = length providers
  /\ summary_operational s = latest_count operational providers
  /\ summary_degraded s = latest_count degraded providers
  /\ summary_failed s = latest_count failed providers
  /\ summary_validationFailed s = latest_count validation_failed providers
  /\ summary_maintenance s = latest_count maintenance providers
  /\ total s
     = summary_operational s + summary_degraded s + summary_failed s
       + summary_validationFailed s + summary_maintenance s
       + latest_count error providers + without_latest providers.
Proof.
  unfold summary. rewrite SummaryFacts.count_fold.
  cbn [Counters_zero total summary_operational summary_degraded summary_failed
       summary_validationFailed summary_maintenance summaryOperational
       summaryDegraded summaryFailed summaryValidationFailed summaryMaintenance
       allLatencies Nat.add].
  repeat (split; [reflexivity|]).
  apply SummaryFacts.latest_partition.
Qed.



(** X23. The latest check of a provider is the first, in the stored order,
    of the most recent checks of its history, and the timeline runs from the
    most recent check to the oldest; a provider has no latest check exactly
    when its history is empty or absent. *)
Theorem providerStatus_latest_newest (getTime : string -> Z)
    (allConfigs : list StoredConfig)
    (history : string -> option (list CheckResult)) (config : StoredConfig) :
  let items := match history (row_id config) with
               | Some items => items
               | None => []
               end in
  let provider := providerStatus getTime allConfigs history config in
  let isMaintenance :=
    List.existsb (String.eqb (row_id config)) (maintenanceConfigIds allConfigs) in
  StronglySorted
    (fun a b => (getTime (entry_checkedAt b) <= getTime (entry_checkedAt a))%Z)
    (timeline provider)
  /\ match latest provider with
     | None => items = []
     | Some l =>
         exists before item after,
           items = before ++ item :: after
           /\ l = entry isMaintenance item
           /\ List.Forall
                (fun other =>
                   (getTime (checkedAt other) < getTime (checkedAt item))%Z)
                before
           /\ List.Forall
                (fun other =>
                   (getTime (checkedAt other) <= getTime (checkedAt item))%Z)
                after
     end.
Proof.
  intros items provider isMaintenance. subst provider.
  unfold providerStatus. fold items. cbv zeta. cbn [timeline latest].
  fold isMaintenance. split.
  - apply (StronglySorted_map
             (fun a b : CheckResult => (byCheckedAt getTime a b <= 0)%Z));
      [|apply sortedItems_sorted].
    intros a b. unfold byCheckedAt. cbn [entry entry_checkedAt]. lia.
  - pose proof (sortedItems_head getTime items) as Hhead.
    destruct (List.head (Array_sort (byCheckedAt getTime) items)) as [item|];
      cbn [option_map]; [|exact Hhead].
    destruct Hhead as (before & after & Hitems & Hb & Ha).
    now exists before, item, after.
Qed.

(** ** A reply that repeats the prompt *)

Module EchoFacts.
Import Str Spec Scan.
Local Open Scope string_scope.

Lemma ends_with_minus_last (g : string) (c : ascii) :
  ends_with_minus (g ++ String c "") -> c = "-"%char.
Proof.
  intros [s0 E]. revert s0 E.
  induction g as [|a g IH]; intros [|b s0] E; simpl in E.
  - now injection E.
  - injection E as _ E. destruct s0; discriminate.
  - injection E as _ E. destruct g; discriminate.
  - injection E as _ E. now apply (IH s0).
Qed.

Lemma digit_number (ds : string) :
  all Re.digit ds = true -> ds <> "" -> is_number ds.
Proof. intros Hd Hne. now apply number_plain. Qed.

(** The numbers of the text that ends a prompt, for a question with two
    operands. *)
Lemma numbers_question (x op y : string) :
  all Re.digit x = true -> x <> "" ->
  all Re.digit y = true -> y <> "" ->
  op = " + " \/ op = " - " ->
  numbers (newline ++ newline ++ "Q: " ++ x ++ op ++ y ++ " = ?" ++ newline ++ "A:")
  = [x; y].
Proof.
  intros Hx Hxne Hy Hyne Hop.
  change (newline ++ newline ++ "Q: " ++ x ++ op ++ y ++ " = ?" ++ newline ++ "A:")
    with ((newline ++ newline ++ "Q: ") ++ x ++ op ++ y ++ " = ?" ++ newline ++ "A:").
  rewrite NumberFacts.numbers_next.
  - f_equal. rewrite NumberFacts.numbers_next.
    + reflexivity.
    + destruct Hop as [-> | ->]; reflexivity.
    + now apply digit_number.
    + reflexivity.
    + intros _ Hm. destruct Hop as [-> | ->];
        [apply (ends_with_minus_last " +" " ") in Hm
        |apply (ends_with_minus_last " -" " ") in Hm]; discriminate.
  - reflexivity.
  - now apply digit_number.
  - destruct Hop as [-> | ->]; reflexivity.
  - intros _ Hm.
    apply (ends_with_minus_last (newline ++ newline ++ "Q:") " ") in Hm.
    discriminate.
Qed.

Local Ltac number_step g c :=
  rewrite NumberFacts.numbers_next;
  [f_equal
  |reflexivity
  |apply digit_number; [reflexivity | discriminate]
  |reflexivity
  |let Hm := fresh "Hm" in
   intros _ Hm; apply (ends_with_minus_last g c) in Hm; discriminate].

(** The numbers of a prompt: those of the two examples, then the operands of
    the question. *)
Lemma numbers_prompt (x op y : string) :
  all Re.digit x = true -> x <> "" ->
  all Re.digit y = true -> y <> "" ->
  op = " + " \/ op = " - " ->
  numbers (buildPromptWithExamples (x ++ op ++ y ++ " = ?"))
  = ["3"; "5"; "8"; "12"; "7"; "5"; x; y].
Proof.
  intros Hx Hxne Hy Hyne Hop.
  set (tail := newline ++ newline ++ "Q: " ++ x ++ op ++ y ++ " = ?" ++ newline ++ "A:").
  assert (Htail : starts_with Re.digit tail = false) by reflexivity.
  assert (Hnum : numbers tail = [x; y]) by (now apply numbers_question).
  unfold buildPromptWithExamples. rewrite !StrFacts.app_assoc.
  change ("Calculate and respond with ONLY the number, nothing else."
          ++ newline ++ newline ++ "Q: 3 + 5 = ?" ++ newline ++ "A: 8" ++ newline
          ++ newline ++ "Q: 12 - 7 = ?" ++ newline ++ "A: 5" ++ newline ++ newline
          ++ "Q: " ++ x ++ op ++ y ++ " = ?" ++ newline ++ "A:")
    with (("Calculate and respond with ONLY the number, nothing else."
             ++ newline ++ newline ++ "Q: ")
          ++ "3" ++ " + " ++ "5" ++ (" = ?" ++ newline ++ "A: ") ++ "8"
          ++ (newline ++ newline ++ "Q: ") ++ "12" ++ " - " ++ "7"
          ++ (" = ?" ++ newline ++ "A: ") ++ "5" ++ tail).
  clearbody tail.
  number_step ("Calculate and respond with ONLY the number, nothing else."
                 ++ newline ++ newline ++ "Q:") " "%char.
  number_step " +" " "%char.
  number_step (" = ?" ++ newline ++ "A:") " "%char.
  number_step (newline ++ newline ++ "Q:") " "%char.
  number_step " -" " "%char.
  rewrite NumberFacts.numbers_next;
    [now rewrite Hnum
    |reflexivity
    |apply digit_number; [reflexivity | discriminate]
    |exact Htail
    |intros _ Hm;
     apply (ends_with_minus_last (" = ?" ++ newline ++ "A:") " ") in Hm;
     discriminate].
Qed.

End EchoFacts.

(** X24. The numbers of the prompt of a challenge are those of its two
    worked examples and the two operands of its question.  So a reply that
    repeats the prompt is valid exactly when the expected answer is 3, 5, 8,
    12 or 7, or one of the operands: a challenge such as 6 - 3 is passed
    without computing anything. *)
Theorem prompt_echo_validates (r1 r2 r3 : Q) :
  (0 <= r1)%Q -> (r1 < 1)%Q -> (0 <= r2)%Q -> (r2 < 1)%Q ->
  let challenge := generateChallenge r1 r2 r3 in
  let a := operand r1 in
  let b := operand r2 in
  let shown :=
    if negb (Qle_bool r3 (1 # 2)) then [String_of_Z a; String_of_Z b]
    else [String_of_Z (Z.max a b); String_of_Z (Z.min a b)] in
  let echoed :=
    validateResponse (Some (prompt challenge)) (Some (expectedAnswer challenge)) in
  extractedNumbers echoed
  = Some (["3"; "5"; "8"; "12"; "7"; "5"]%string ++ shown)
  /\ (valid echoed = true
      <-> In (expectedAnswer challenge)
            (["3"; "5"; "8"; "12"; "7"]%string ++ shown)).
Proof.
  intros H1 H1' H2 H2' challenge a b shown echoed.
  pose proof (operand_range r1 H1 H1') as Ha.
  pose proof (operand_range r2 H2 H2') as Hb.
  fold a in Ha. fold b in Hb.
  assert (Hecho : echoed
                  = {| valid := includes (expectedAnswer challenge)
                                  (["3"; "5"; "8"; "12"; "7"; "5"]%string ++ shown);
                       extractedNumbers :=
                         Some (["3"; "5"; "8"; "12"; "7"; "5"]%string ++ shown) |}).
  { subst echoed challenge shown. unfold generateChallenge. fold a b.
    destruct (negb (Qle_bool r3 (1 # 2))); cbv zeta; cbn [prompt expectedAnswer].
    - destruct (String_of_Z_digits a) as [Hda Hna]; [lia|].
      destruct (String_of_Z_digits b) as [Hdb Hnb]; [lia|].
      destruct (String_of_Z_digits (a + b)) as [_ Hne]; [lia|].
      rewrite validateResponse_nonempty; [|discriminate|exact Hne].
      rewrite EchoFacts.numbers_prompt by auto. reflexivity.
    - destruct (String_of_Z_digits (Z.max a b)) as [Hda Hna]; [lia|].
      destruct (String_of_Z_digits (Z.min a b)) as [Hdb Hnb]; [lia|].
      destruct (String_of_Z_digits (Z.max a b - Z.min a b)) as [_ Hne]; [lia|].
      rewrite validateResponse_nonempty; [|discriminate|exact Hne].
      rewrite EchoFacts.numbers_prompt by auto. reflexivity. }
  rewrite Hecho. cbn [valid extractedNumbers]. split; [reflexivity|].
  rewrite includes_In. cbn [app In]. intuition.
Qed.

(** X24 on the challenge 6 - 3. *)
Lemma prompt_echo_validates_witness :
  let challenge := generateChallenge (11 # 100) (5 # 100) (1 # 3) in
  let echoed :=
    validateResponse (Some (prompt challenge)) (Some (expectedAnswer challenge)) in
  valid echoed = true.
Proof.
  intros challenge echoed.
  apply (prompt_echo_validates (11 # 100) (5 # 100) (1 # 3));
    try reflexivity; try discriminate.
  left. reflexivity.
Defined.
